(** * SingleLinkedList<Type>: a shallow embedding of single-linked-list.h

    The container is a chain of heap nodes hanging from a sentinel node
    [head_] that is a member of the list object.  Pointers are modelled
    symbolically: a [Node*] is null, the address of the sentinel of some
    list object, or the address of a node obtained from [new].  The
    machine state holds the live list objects, the heap of nodes and the
    pool of addresses the allocator can still hand out; [new] throws
    [std::bad_alloc] when the pool is empty.  Every member function is a
    computation in a small state-and-exception monad whose outcomes are
    normal return, a propagating exception, undefined behaviour (a failed
    [assert], a null or dangling dereference) and divergence of a loop. *)

From Stdlib Require Import ZArith Lia.
From stdpp Require Import gmap list fin_maps.

Local Open Scope Z_scope.

(* [naive_solver] clears hypotheses it has already consumed. *)
#[local] Set Warnings "-clear-no-such-hyp".

(** ** Pointers and iterators *)

(** A value of type [Node*]. *)
Inductive ptr : Type :=
  | nullptr
  | head_of (l : positive)   (* &head_ of the list object stored at l *)
  | node_at (a : positive).  (* a node allocated with new *)

#[global] Instance ptr_eq_dec : EqDecision ptr.
Proof. solve_decision. Defined.

(** [BasicIterator<ValueType>]: both variants hold one [Node*]; the
    converting constructor copies it, so a single record serves for
    [Iterator] and [ConstIterator]. *)
Record BasicIterator : Type := Iter { node_ : ptr }.

(** [BasicIterator() = default], with [Node* node_ = nullptr]. *)
Definition BasicIterator_default : BasicIterator := Iter nullptr.

(** [operator==] and [operator!=] of iterators compare [node_]. *)
Definition iter_eq (lhs rhs : BasicIterator) : bool :=
  bool_decide (node_ lhs = node_ rhs).

Definition iter_ne (lhs rhs : BasicIterator) : bool :=
  negb (bool_decide (node_ lhs = node_ rhs)).

(** [size_t] is a 64-bit unsigned integer. *)
Definition size_t_modulus : Z := 2 ^ 64.

Definition size_t_wrap (z : Z) : Z := z mod size_t_modulus.

Section Container.

Context {T : Type}.

(** The value a default-initialised [Type] holds; only the sentinel has it. *)
Variable Type_default : T.

(** ** Data *)

Record Node : Type := mkNode { value : T; next_node : ptr }.

Record SingleLinkedList : Type := mkList { head_ : Node; size_ : Z }.

Record state : Type := mkState {
  objects : gmap positive SingleLinkedList;  (* live list objects *)
  heap : gmap positive Node;                 (* nodes created by new *)
  free_pool : list positive                  (* addresses new can return *)
}.

(** ** The monad *)

Inductive outcome (A : Type) : Type :=
  | Ret (a : A) (st : state)   (* normal return *)
  | Throw (st : state)         (* std::bad_alloc propagates *)
  | Undefined                  (* failed assert, invalid pointer *)
  | OutOfFuel.                 (* a loop that does not end *)

Arguments Ret {A} a st.
Arguments Throw {A} st.
Arguments Undefined {A}.
Arguments OutOfFuel {A}.

Definition M (A : Type) : Type := state → outcome A.

#[global] Instance M_ret : MRet M := λ A a st, Ret a st.

#[global] Instance M_bind : MBind M := λ A B k m st,
  match m st with
  | Ret a st' => k a st'
  | Throw st' => Throw st'
  | Undefined => Undefined
  | OutOfFuel => OutOfFuel
  end.

Definition undefined {A} : M A := λ _, Undefined.

Definition out_of_fuel {A} : M A := λ _, OutOfFuel.

Definition assert (b : bool) : M unit :=
  if b then mret tt else undefined.

(** ** Memory primitives *)

(** Reading the node a pointer refers to. *)
Definition load (p : ptr) : M Node := λ st,
  match p with
  | nullptr => Undefined
  | head_of l =>
      match objects st !! l with
      | Some o => Ret (head_ o) st
      | None => Undefined
      end
  | node_at a =>
      match heap st !! a with
      | Some n => Ret n st
      | None => Undefined
      end
  end.

(** [p->next_node = q]. *)
Definition store_next (p q : ptr) : M unit := λ st,
  match p with
  | nullptr => Undefined
  | head_of l =>
      match objects st !! l with
      | Some o =>
          Ret tt (mkState
                    (<[l := mkList (mkNode (value (head_ o)) q) (size_ o)]> (objects st))
                    (heap st) (free_pool st))
      | None => Undefined
      end
  | node_at a =>
      match heap st !! a with
      | Some n =>
          Ret tt (mkState (objects st)
                    (<[a := mkNode (value n) q]> (heap st)) (free_pool st))
      | None => Undefined
      end
  end.

(** [p->value = v]. *)
Definition store_value (p : ptr) (v : T) : M unit := λ st,
  match p with
  | nullptr => Undefined
  | head_of l =>
      match objects st !! l with
      | Some o =>
          Ret tt (mkState
                    (<[l := mkList (mkNode v (next_node (head_ o))) (size_ o)]> (objects st))
                    (heap st) (free_pool st))
      | None => Undefined
      end
  | node_at a =>
      match heap st !! a with
      | Some n =>
          Ret tt (mkState (objects st)
                    (<[a := mkNode v (next_node n)]> (heap st)) (free_pool st))
      | None => Undefined
      end
  end.

Definition get_size (this : positive) : M Z := λ st,
  match objects st !! this with
  | Some o => Ret (size_ o) st
  | None => Undefined
  end.

Definition set_size (this : positive) (z : Z) : M unit := λ st,
  match objects st !! this with
  | Some o =>
      Ret tt (mkState (<[this := mkList (head_ o) z]> (objects st))
                (heap st) (free_pool st))
  | None => Undefined
  end.

(** [new Node(val, next)]: takes the first address of the pool, or throws. *)
Definition new_Node (val : T) (next : ptr) : M ptr := λ st,
  match free_pool st with
  | [] => Throw st
  | a :: pool =>
      Ret (node_at a)
          (mkState (objects st) (<[a := mkNode val next]> (heap st)) pool)
  end.

(** [delete p]: the address goes back to the allocator. *)
Definition delete_Node (p : ptr) : M unit := λ st,
  match p with
  | nullptr => Ret tt st
  | head_of _ => Undefined
  | node_at a =>
      match heap st !! a with
      | Some _ =>
          Ret tt (mkState (objects st) (delete a (heap st)) (a :: free_pool st))
      | None => Undefined
      end
  end.

(** ** BasicIterator *)

(** [operator++]: [assert(node_ != nullptr); node_ = node_->next_node]. *)
Definition iter_incr (it : BasicIterator) : M BasicIterator :=
  assert (negb (bool_decide (node_ it = nullptr)));;
  n ← load (node_ it);
  mret (Iter (next_node n)).

(** [operator*]: [assert(node_ != nullptr); return node_->value]. *)
Definition iter_deref (it : BasicIterator) : M T :=
  assert (negb (bool_decide (node_ it = nullptr)));;
  n ← load (node_ it);
  mret (value n).

(** [operator++(int)]: after [assert(node_ != nullptr)] a copy [temp] of
    the iterator is taken, [node_ = node_->next_node] is done and [temp] is
    returned.  The result pairs the value returned with the iterator
    after the call. *)
Definition iter_post_incr (it : BasicIterator) : M (BasicIterator * BasicIterator) :=
  assert (negb (bool_decide (node_ it = nullptr)));;
  let temp := it in
  n ← load (node_ it);
  mret (temp, Iter (next_node n)).

(** Assignment through the reference [operator*] of a mutable iterator
    returns: [assert(node_ != nullptr); node_->value = v]. *)
Definition iter_assign (it : BasicIterator) (v : T) : M unit :=
  assert (negb (bool_decide (node_ it = nullptr)));;
  store_value (node_ it) v.

(** ** SingleLinkedList: observers and iterators *)

Definition GetSize (this : positive) : M Z := get_size this.

Definition IsEmpty (this : positive) : M bool :=
  n ← get_size this;
  mret (if bool_decide (n = 0) then true else false).

Definition before_begin (this : positive) : BasicIterator := Iter (head_of this).

Definition cbefore_begin (this : positive) : BasicIterator := Iter (head_of this).

Definition cbegin (this : positive) : M BasicIterator :=
  hd ← load (head_of this);
  mret (Iter (next_node hd)).

Definition begin (this : positive) : M BasicIterator := cbegin this.

Definition cend (this : positive) : BasicIterator := Iter nullptr.

Definition end_ (this : positive) : BasicIterator := Iter nullptr.

(** ** SingleLinkedList: mutators *)

(** [head_.next_node = new Node(value, head_.next_node); ++size_;] *)
Definition PushFront (this : positive) (val : T) : M unit :=
  hd ← load (head_of this);
  p ← new_Node val (next_node hd);
  store_next (head_of this) p;;
  n ← get_size this;
  set_size this (size_t_wrap (n + 1)).

Definition PopFront (this : positive) : M unit :=
  e ← IsEmpty this;
  assert (negb e);;
  hd ← load (head_of this);
  first ← load (next_node hd);
  let temp := next_node first in
  delete_Node (next_node hd);;
  store_next (head_of this) temp;;
  n ← get_size this;
  set_size this (size_t_wrap (n - 1)).

Definition InsertAfter (this : positive) (pos : BasicIterator) (val : T)
  : M BasicIterator :=
  assert (negb (bool_decide (node_ pos = nullptr)));;
  at_pos ← load (node_ pos);
  p ← new_Node val (next_node at_pos);
  store_next (node_ pos) p;;
  n ← get_size this;
  set_size this (size_t_wrap (n + 1));;
  at_pos' ← load (node_ pos);
  mret (Iter (next_node at_pos')).

Definition EraseAfter (this : positive) (pos : BasicIterator) : M BasicIterator :=
  assert (negb (bool_decide (node_ pos = nullptr)));;
  at_pos ← load (node_ pos);
  victim ← load (next_node at_pos);
  let temp := next_node victim in
  delete_Node (next_node at_pos);;
  store_next (node_ pos) temp;;
  n ← get_size this;
  set_size this (size_t_wrap (n - 1));;
  at_pos' ← load (node_ pos);
  mret (Iter (next_node at_pos')).

(** The loop of [Clear]: [while (head_.next_node != nullptr) { ... }]. *)
Fixpoint Clear_loop (fuel : nat) (this : positive) : M unit :=
  match fuel with
  | O => out_of_fuel
  | S fuel' =>
      hd ← load (head_of this);
      if bool_decide (next_node hd = nullptr) then mret tt
      else
        first ← load (next_node hd);
        let temp := next_node first in
        delete_Node (next_node hd);;
        store_next (head_of this) temp;;
        Clear_loop fuel' this
  end.

(** The bound on the iterations of a loop over a chain of nodes: a chain
    that ends visits no node twice, so it has at most as many nodes as the
    heap, and one more test finds the end. *)
Definition loop_fuel : M nat := λ st, Ret (S (size (heap st))) st.

Definition Clear (this : positive) : M unit :=
  fuel ← loop_fuel;
  Clear_loop fuel this;;
  set_size this 0.

(** [std::swap] on the two first-node pointers, then on the two sizes. *)
Definition Swap (this other : positive) : M unit :=
  o ← load (head_of other);
  t ← load (head_of this);
  store_next (head_of other) (next_node t);;
  store_next (head_of this) (next_node o);;
  so ← get_size other;
  st ← get_size this;
  set_size other st;;
  set_size this so.

(** ** Construction, destruction, assignment *)

(** Member initialisation of a new list object in unused storage:
    [Node head_] (with [next_node = nullptr]) and [size_t size_ = 0]. *)
Definition init_members (this : positive) : M unit := λ st,
  match objects st !! this with
  | Some _ => Undefined
  | None =>
      Ret tt (mkState
                (<[this := mkList (mkNode Type_default nullptr) 0]> (objects st))
                (heap st) (free_pool st))
  end.

(** The storage of a list object is given up. *)
Definition release_members (this : positive) : M unit := λ st,
  match objects st !! this with
  | Some _ => Ret tt (mkState (delete this (objects st)) (heap st) (free_pool st))
  | None => Undefined
  end.

(** A constructor body that throws: the members are destroyed, the
    destructor of the class does not run. *)
Definition ctor_body {A} (this : positive) (body : M A) : M A := λ st,
  match body st with
  | Throw st' =>
      match release_members this st' with
      | Ret _ st'' => Throw st''
      | _ => Undefined
      end
  | r => r
  end.

(** [SingleLinkedList() {}] *)
Definition SingleLinkedList_default (this : positive) : M unit :=
  init_members this.

(** [~SingleLinkedList() { Clear(); }] *)
Definition SingleLinkedList_destroy (this : positive) : M unit :=
  Clear this;;
  release_members this.

(** A local list object [temp]: constructed by [ctor] at a fresh address,
    used by [body], destroyed when the scope is left, also by an exception. *)
Definition with_local {A} (ctor : positive → M unit) (body : positive → M A)
  : M A := λ st,
  let temp := fresh (dom (objects st)) in
  match ctor temp st with
  | Ret _ st1 =>
      match body temp st1 with
      | Ret a st2 =>
          match SingleLinkedList_destroy temp st2 with
          | Ret _ st3 => Ret a st3
          | Throw _ => Undefined
          | Undefined => Undefined
          | OutOfFuel => OutOfFuel
          end
      | Throw st2 =>
          match SingleLinkedList_destroy temp st2 with
          | Ret _ st3 => Throw st3
          | Throw _ => Undefined
          | Undefined => Undefined
          | OutOfFuel => OutOfFuel
          end
      | Undefined => Undefined
      | OutOfFuel => OutOfFuel
      end
  | Throw st1 => Throw st1
  | Undefined => Undefined
  | OutOfFuel => OutOfFuel
  end.

(** The loop of the initializer-list constructor: [it] runs from
    [rbegin(values)] up to [rend(values)] and each element it refers to is
    passed to [PushFront]; that is one call per element of the reversed
    sequence. *)
Fixpoint PushFront_each (this : positive) (reversed : list T) : M unit :=
  match reversed with
  | [] => mret tt
  | v :: rest => PushFront this v;; PushFront_each this rest
  end.

(** [SingleLinkedList(std::initializer_list<Type> values)] *)
Definition SingleLinkedList_init (this : positive) (values : list T) : M unit :=
  init_members this;;
  ctor_body this (PushFront_each this (rev values)).

(** [for (const auto& value : other) temp_it = InsertAfter(temp_it, value);]
    The call is [this->InsertAfter], at a position of [temp]. *)
Fixpoint copy_loop (fuel : nat) (this : positive) (it last temp_it : BasicIterator)
  : M BasicIterator :=
  match fuel with
  | O => out_of_fuel
  | S fuel' =>
      if iter_ne it last then
        val ← iter_deref it;
        temp_it' ← InsertAfter this temp_it val;
        it' ← iter_incr it;
        copy_loop fuel' this it' last temp_it'
      else mret temp_it
  end.

(** [SingleLinkedList(const SingleLinkedList& other)] *)
Definition SingleLinkedList_copy (this other : positive) : M unit :=
  init_members this;;
  ctor_body this (
    n ← get_size this;
    hd ← load (head_of this);
    assert (bool_decide (n = 0) && bool_decide (next_node hd = nullptr));;
    with_local SingleLinkedList_default (λ temp,
      let temp_it := cbefore_begin temp in
      first ← begin other;
      fuel ← loop_fuel;
      copy_loop fuel this first (end_ other) temp_it;;
      m ← get_size other;
      set_size temp m;;
      Swap this temp)).

(** [operator=(const SingleLinkedList& rhs)] *)
Definition assign (this rhs : positive) : M unit :=
  if bool_decide (this ≠ rhs) then
    with_local (λ temp, SingleLinkedList_copy temp rhs) (λ temp, Swap this temp)
  else mret tt.

(** ** Comparison of lists *)

(** [std::equal(first1, last1, first2, last2)] for forward iterators, as
    the standard library defines it. *)
Fixpoint std_equal (eq : T → T → bool) (fuel : nat)
    (first1 last1 first2 last2 : BasicIterator) : M bool :=
  match fuel with
  | O => out_of_fuel
  | S fuel' =>
      if iter_ne first1 last1 && iter_ne first2 last2 then
        x ← iter_deref first1;
        y ← iter_deref first2;
        if negb (eq x y) then mret false
        else
          first1' ← iter_incr first1;
          first2' ← iter_incr first2;
          std_equal eq fuel' first1' last1 first2' last2
      else mret (iter_eq first1 last1 && iter_eq first2 last2)
  end.

(** [std::lexicographical_compare(first1, last1, first2, last2)]. *)
Fixpoint std_lexicographical_compare (lt : T → T → bool) (fuel : nat)
    (first1 last1 first2 last2 : BasicIterator) : M bool :=
  match fuel with
  | O => out_of_fuel
  | S fuel' =>
      if iter_ne first1 last1 && iter_ne first2 last2 then
        x ← iter_deref first1;
        y ← iter_deref first2;
        if lt x y then mret true
        else if lt y x then mret false
        else
          first1' ← iter_incr first1;
          first2' ← iter_incr first2;
          std_lexicographical_compare lt fuel' first1' last1 first2' last2
      else mret (iter_eq first1 last1 && iter_ne first2 last2)
  end.

Definition op_eq (eq : T → T → bool) (lhs rhs : positive) : M bool :=
  b1 ← begin lhs;
  b2 ← begin rhs;
  fuel ← loop_fuel;
  std_equal eq fuel b1 (end_ lhs) b2 (end_ rhs).

Definition op_ne (eq : T → T → bool) (lhs rhs : positive) : M bool :=
  r ← op_eq eq lhs rhs;
  mret (negb r).

Definition op_lt (lt : T → T → bool) (lhs rhs : positive) : M bool :=
  b1 ← begin lhs;
  b2 ← begin rhs;
  fuel ← loop_fuel;
  std_lexicographical_compare lt fuel b1 (end_ lhs) b2 (end_ rhs).

Definition op_gt (lt : T → T → bool) (lhs rhs : positive) : M bool :=
  op_lt lt rhs lhs.

Definition op_le (lt : T → T → bool) (lhs rhs : positive) : M bool :=
  r ← op_gt lt lhs rhs;
  mret (negb r).

Definition op_ge (lt : T → T → bool) (lhs rhs : positive) : M bool :=
  r ← op_lt lt lhs rhs;
  mret (negb r).

(** The free function [Swap(lhs, rhs)]: [lhs.Swap(rhs)]. *)
Definition Swap_free (lhs rhs : positive) : M unit := Swap lhs rhs.

End Container.

Arguments Ret {T A} a st.
Arguments Throw {T A} st.
Arguments Undefined {T A}.
Arguments OutOfFuel {T A}.

(** ** Well-formed states and observations *)

Section Specification.

Context {T : Type}.

(** The nodes from [p] up to, not including, [q]: their addresses and
    values in link order. *)
Fixpoint seg (h : gmap positive (@Node T)) (p : ptr)
    (cells : list (positive * T)) (q : ptr) : Prop :=
  match cells with
  | [] => p = q
  | c :: rest =>
      p = node_at c.1 ∧ ∃ r, h !! c.1 = Some (mkNode c.2 r) ∧ seg h r rest q
  end.

(** A chain of nodes that ends in [nullptr]. *)
Definition chain (h : gmap positive (@Node T)) (p : ptr)
    (cells : list (positive * T)) : Prop :=
  seg h p cells nullptr.

(** The list object at [l] is live, its sentinel heads the chain [cells]
    and its [size_] is their number. *)
Definition owns (st : @state T) (l : positive) (cells : list (positive * T)) : Prop :=
  ∃ hd, objects st !! l = Some (mkList hd (Z.of_nat (length cells)))
        ∧ chain (heap st) (next_node hd) cells.

(** The allocator and the heap agree: the pool has no address twice and
    none that is in use, and every address fits a 64-bit pointer. *)
Record alloc_ok (st : @state T) : Prop := mk_alloc_ok {
  pool_NoDup : NoDup (free_pool st);
  pool_unused : ∀ a, a ∈ free_pool st → heap st !! a = None;
  pool_bounded : ∀ a, a ∈ free_pool st → Z.pos a < size_t_modulus;
  heap_bounded : ∀ a, is_Some (heap st !! a) → Z.pos a < size_t_modulus
}.

(** The invariant of the whole state: every live list object owns a chain,
    and the chains of different lists share no node. *)
Record state_inv (st : @state T) : Prop := mk_state_inv {
  inv_alloc : alloc_ok st;
  inv_owns : ∀ l, is_Some (objects st !! l) → ∃ cells, owns st l cells;
  inv_sep : ∀ l1 l2 c1 c2, l1 ≠ l2 → owns st l1 c1 → owns st l2 c2 →
            ∀ a, a ∈ c1.*1 → a ∉ c2.*1
}.

(** Following [next_node] links from [p] until [nullptr]. *)
Fixpoint walk (fuel : nat) (h : gmap positive (@Node T)) (p : ptr)
  : option (list (positive * T)) :=
  match fuel with
  | O => None
  | S fuel' =>
      match p with
      | nullptr => Some []
      | head_of _ => None
      | node_at a =>
          match h !! a with
          | Some n =>
              match walk fuel' h (next_node n) with
              | Some rest => Some ((a, value n) :: rest)
              | None => None
              end
          | None => None
          end
      end
  end.

(** The nodes reachable from the sentinel of [l], the sentinel excluded. *)
Definition reachable_nodes (st : @state T) (l : positive)
  : option (list (positive * T)) :=
  match objects st !! l with
  | Some o => walk (S (size (heap st))) (heap st) (next_node (head_ o))
  | None => None
  end.

(** The stored size equals the number of reachable nodes. *)
Definition size_invariant (st : @state T) (l : positive) : Prop :=
  ∃ o cells, objects st !! l = Some o
             ∧ reachable_nodes st l = Some cells
             ∧ size_ o = Z.of_nat (length cells).

(** A forward traversal with iterators: [for (it = first; it != last; ++it)]
    collecting [*it]. *)
Fixpoint traverse (fuel : nat) (it last : BasicIterator) : @M T (list T) :=
  match fuel with
  | O => out_of_fuel
  | S fuel' =>
      if iter_ne it last then
        v ← iter_deref it;
        it' ← iter_incr it;
        vs ← traverse fuel' it' last;
        mret (v :: vs)
      else mret []
  end.

(** The element sequence of a list, from [begin()] to [end()]. *)
Definition contents (this : positive) : @M T (list T) :=
  b ← begin this;
  fuel ← loop_fuel;
  traverse fuel b (end_ this).

(** The position with [k] elements before it: [before_begin()] advanced
    [k] times.  In a list with cells [cells] it is the sentinel for
    [k = 0] and the [k]-th node otherwise. *)
Fixpoint advance (k : nat) (it : BasicIterator) : @M T BasicIterator :=
  match k with
  | O => mret it
  | S k' => it' ← iter_incr it; advance k' it'
  end.

Definition pos_ptr (this : positive) (cells : list (positive * T)) (k : nat) : ptr :=
  match k with
  | O => head_of this
  | S k' =>
      match cells !! k' with
      | Some c => node_at c.1
      | None => nullptr
      end
  end.

(** The pointer to the first node of a sequence of cells. *)
Definition first_ptr (cells : list (positive * T)) : ptr :=
  match cells with
  | [] => nullptr
  | c :: _ => node_at c.1
  end.

(** An operation completed: it returned normally. *)
Definition returns {A} (o : @outcome T A) : Prop := ∃ a st, o = Ret a st.

(** The ways a client can change the list at [this] through its own
    interface.  A position is reached from [before_begin()] (or, for an
    element, from [begin()]) by [k] increments. *)
Inductive mutation : Type :=
  | MutPushFront (v : T)
  | MutPopFront
  | MutInsertAfter (k : nat) (v : T)
  | MutEraseAfter (k : nat)
  | MutClear
  | MutAssignValue (k : nat) (v : T).

Definition run_mutation (this : positive) (m : mutation) : @M T unit :=
  match m with
  | MutPushFront v => PushFront this v
  | MutPopFront => PopFront this
  | MutInsertAfter k v =>
      pos ← advance k (before_begin this);
      InsertAfter this pos v;;
      mret tt
  | MutEraseAfter k =>
      pos ← advance k (before_begin this);
      EraseAfter this pos;;
      mret tt
  | MutClear => Clear this
  | MutAssignValue k v =>
      b ← begin this;
      it ← advance k b;
      iter_assign it v
  end.

Fixpoint run_mutations (this : positive) (ms : list mutation) : @M T unit :=
  match ms with
  | [] => mret tt
  | m :: ms' => run_mutation this m;; run_mutations this ms'
  end.

(** The public operations of the class, applied to the list at [this]. *)
Inductive public_op : Type :=
  | OpDefault
  | OpInit (values : list T)
  | OpCopy (other : positive)
  | OpMutate (m : mutation)
  | OpSwap (other : positive)
  | OpAssign (rhs : positive).

Definition run_op (Type_default : T) (this : positive) (op : public_op) : @M T unit :=
  match op with
  | OpDefault => SingleLinkedList_default Type_default this
  | OpInit values => SingleLinkedList_init Type_default this values
  | OpCopy other => SingleLinkedList_copy Type_default this other
  | OpMutate m => run_mutation this m
  | OpSwap other => Swap this other
  | OpAssign rhs => assign Type_default this rhs
  end.

(** Comparison of two element sequences, position by position: what
    [std::equal] and [std::lexicographical_compare] compute on them. *)
Fixpoint seq_equal (eq : T → T → bool) (l1 l2 : list T) : bool :=
  match l1, l2 with
  | [], [] => true
  | x :: l1', y :: l2' => if negb (eq x y) then false else seq_equal eq l1' l2'
  | _, _ => false
  end.

Fixpoint seq_less (lt : T → T → bool) (l1 l2 : list T) : bool :=
  match l1, l2 with
  | _, [] => false
  | [], _ :: _ => true
  | x :: l1', y :: l2' =>
      if lt x y then true else if lt y x then false else seq_less lt l1' l2'
  end.

(** Lexicographic order in the words of the specification: a strict prefix
    is less, and otherwise the first position where the sequences differ
    decides. *)
Definition lexicographic_less (lt : T → T → bool) (l1 l2 : list T) : Prop :=
  (∃ y s, l2 = l1 ++ y :: s)
  ∨ (∃ p x y s1 s2, l1 = p ++ x :: s1 ∧ l2 = p ++ y :: s2 ∧ lt x y = true).

(** What a mutator of the list at [this] may do to a state: the result is
    again well allocated, the list owns [cells'], no other list object is
    touched, nodes outside the old chain keep their contents, and the new
    chain is made of old nodes and freshly allocated ones. *)
Definition frame_step (st st' : @state T) (this : positive)
    (cells cells' : list (positive * T)) : Prop :=
  alloc_ok st'
  ∧ owns st' this cells'
  ∧ (∀ l, l ≠ this → objects st' !! l = objects st !! l)
  ∧ (∀ x, x ∉ cells.*1 → is_Some (heap st !! x) → heap st' !! x = heap st !! x)
  ∧ (∀ x, x ∈ cells'.*1 → x ∈ cells.*1 ∨ heap st !! x = None).

(** What a mutator does to the heap outside the new chain: a node of the
    old chain that is not kept is deleted, and no other address changes. *)
Definition heap_step (st st' : @state T) (cells cells' : list (positive * T)) : Prop :=
  ∀ x, x ∉ cells'.*1 →
       heap st' !! x = if decide (x ∈ cells.*1) then None else heap st !! x.

(** Every allocated node belongs to the chain of a live list. *)
Definition no_leak (st : @state T) : Prop :=
  ∀ x, is_Some (heap st !! x) → ∃ l cells, owns st l cells ∧ x ∈ cells.*1.

(** A computation that lets no exception out, whatever the state. *)
Definition never_throws {A} (m : @M T A) : Prop := ∀ st st', m st ≠ Throw st'.

End Specification.

(** ** Concrete states over [Z], used to run the theorems *)

(** The addresses the allocator starts with. *)
Definition ex_pool : list positive :=
  [10; 11; 12; 13; 14; 15; 16; 17; 18; 19; 20; 21; 22; 23; 24; 25]%positive.

(** No list object, nothing allocated. *)
Definition ex_empty : @state Z := mkState ∅ ∅ ex_pool.

(** The list [1, 2, 3] at address 1, as the initializer-list constructor
    leaves it: the last value was inserted first and took address 10. *)
Definition ex_heap_A : gmap positive (@Node Z) :=
  <[12%positive := mkNode 1 (node_at 11)]>
    (<[11%positive := mkNode 2 (node_at 10)]>
       (<[10%positive := mkNode 3 nullptr]> ∅)).

Definition ex_cells_A : list (positive * Z) :=
  [(12%positive, 1); (11%positive, 2); (10%positive, 3)].

Definition ex_one : @state Z :=
  mkState {[ 1%positive := mkList (mkNode 0 (node_at 12)) 3 ]} ex_heap_A
    [13; 14; 15; 16; 17; 18; 19; 20; 21; 22; 23; 24; 25]%positive.

(** The same list when the allocator has nothing left. *)
Definition ex_full : @state Z :=
  mkState {[ 1%positive := mkList (mkNode 0 (node_at 12)) 3 ]} ex_heap_A [].

(** Two lists: [1, 2, 3] at address 1 and [1, 2, 3, 4] at address 2. *)
Definition ex_cells_B : list (positive * Z) :=
  [(16%positive, 1); (15%positive, 2); (14%positive, 3); (13%positive, 4)].

Definition ex_two : @state Z :=
  mkState
    (<[2%positive := mkList (mkNode 0 (node_at 16)) 4]>
       {[ 1%positive := mkList (mkNode 0 (node_at 12)) 3 ]})
    (<[16%positive := mkNode 1 (node_at 15)]>
       (<[15%positive := mkNode 2 (node_at 14)]>
          (<[14%positive := mkNode 3 (node_at 13)]>
             (<[13%positive := mkNode 4 nullptr]> ex_heap_A))))
    [17; 18; 19; 20; 21; 22; 23; 24; 25]%positive.

(** The list [1, 2, 3] at address 1 when the allocator has two addresses
    left. *)
Definition ex_short : @state Z :=
  mkState {[ 1%positive := mkList (mkNode 0 (node_at 12)) 3 ]} ex_heap_A
    [13; 14]%positive.

(** No list object and two addresses to allocate from. *)
Definition ex_tiny : @state Z := mkState ∅ ∅ [10; 11]%positive.

(** The two lists when the allocator has two addresses left. *)
Definition ex_two_short : @state Z :=
  mkState (objects ex_two) (heap ex_two) [17; 18]%positive.

(** * Proofs *)

(** ** Chains of nodes *)

Section ChainFacts.

Context {T : Type}.

Implicit Types (h : gmap positive (@Node T)) (p q r : ptr).
Implicit Types (cells : list (positive * T)) (st : @state T).

Lemma seg_app h p c1 c2 q :
  seg h p (c1 ++ c2) q ↔ ∃ r, seg h p c1 r ∧ seg h r c2 q.
Proof.
  revert p. induction c1 as [|c c1 IH]; intros p; simpl.
  - split.
    + intros H. by exists p.
    + by intros (r & -> & H).
  - split.
    + intros (-> & r & Hr & Hs). apply IH in Hs as (r' & H1 & H2).
      exists r'. split; [|done]. split; [done|]. by exists r.
    + intros (r' & (-> & r & Hr & H1) & H2). split; [done|].
      exists r. split; [done|]. apply IH. by exists r'.
Qed.

Lemma seg_frame h h' p cells q :
  seg h p cells q →
  (∀ a, a ∈ cells.*1 → h' !! a = h !! a) →
  seg h' p cells q.
Proof.
  revert p. induction cells as [|c cells IH]; intros p; simpl; [done|].
  intros (-> & r & Hr & Hs) Hsame. split; [done|]. exists r. split.
  - rewrite Hsame; [done|]. apply list_elem_of_here.
  - apply IH; [done|]. intros a Ha. apply Hsame. by apply list_elem_of_further.
Qed.

Lemma seg_allocated h p cells q a :
  seg h p cells q → a ∈ cells.*1 → is_Some (h !! a).
Proof.
  revert p. induction cells as [|c cells IH]; intros p; simpl.
  - intros _ Ha. by apply elem_of_nil in Ha.
  - intros (-> & r & Hr & Hs) Ha. apply elem_of_cons in Ha as [->|Ha]; [by eexists|].
    by eapply IH.
Qed.

Lemma chain_det h p c1 c2 : chain h p c1 → chain h p c2 → c1 = c2.
Proof.
  unfold chain. revert p c2. induction c1 as [|[a v] c1 IH]; intros p [|[b w] c2]; simpl.
  - done.
  - intros -> (? & _). done.
  - intros (-> & _) ?. done.
  - intros (-> & r & Hr & H1) (Heq & r' & Hr' & H2).
    injection Heq as <-. rewrite Hr in Hr'. injection Hr' as <- <-.
    f_equal. by eapply IH.
Qed.

Lemma chain_NoDup h p cells : chain h p cells → NoDup cells.*1.
Proof.
  unfold chain. revert p. induction cells as [|[a v] cells IH]; intros p; simpl.
  - intros _. constructor.
  - intros (-> & r & Hr & Hs). constructor; [|by eapply IH].
    intros Hin. apply list_elem_of_fmap in Hin as ([a' v'] & Ha & Hin). simpl in Ha. subst a'.
    apply list_elem_of_split in Hin as (c1 & c2 & ->).
    pose proof Hs as Hs'. apply seg_app in Hs' as (r' & _ & H2). simpl in H2.
    destruct H2 as (_ & r'' & Hr'' & H2). rewrite Hr in Hr''. injection Hr'' as _ <-.
    pose proof (chain_det _ _ _ _ Hs H2) as Heq.
    apply (f_equal length) in Heq. rewrite length_app in Heq. simpl in Heq. lia.
Qed.

Lemma chain_length_le h p cells : chain h p cells → (length cells ≤ size h)%nat.
Proof.
  intros Hc. pose proof (chain_NoDup _ _ _ Hc) as Hnd.
  rewrite <- (length_fmap fst cells).
  rewrite <- (size_list_to_set (C:=gset positive) _ Hnd).
  rewrite <- (size_dom (D:=gset positive) h).
  apply subseteq_size. intros a Ha. apply elem_of_list_to_set in Ha.
  apply elem_of_dom. by eapply seg_allocated.
Qed.

Lemma walk_chain fuel h p cells : walk fuel h p = Some cells → chain h p cells.
Proof.
  unfold chain. revert p cells. induction fuel as [|fuel IH]; intros p cells; simpl; [done|].
  destruct p as [| |a]; [|done|].
  - intros [= <-]. done.
  - destruct (h !! a) as [[v r]|] eqn:Ha; [|done]. simpl.
    destruct (walk fuel h r) as [rest|] eqn:Hw; [|done].
    intros [= <-]. simpl. split; [done|]. exists r. split; [done|]. by apply IH.
Qed.

Lemma chain_walk fuel h p cells :
  chain h p cells → (length cells < fuel)%nat → walk fuel h p = Some cells.
Proof.
  unfold chain. revert p cells. induction fuel as [|fuel IH]; intros p cells Hc Hlt; [lia|].
  destruct cells as [|[a v] cells]; simpl in *.
  - by subst p.
  - destruct Hc as (-> & r & Hr & Hs). rewrite Hr. simpl.
    rewrite (IH r cells); [done|done|lia].
Qed.

(** Fewer than [2^64] distinct addresses are below [2^64]. *)
Lemma bounded_NoDup_length (l : list positive) :
  NoDup l → (∀ a, a ∈ l → Z.pos a < size_t_modulus) →
  Z.of_nat (length l) < size_t_modulus.
Proof.
  intros Hnd Hb.
  set (n := Z.to_nat (size_t_modulus - 1)).
  assert (Hsub : Pos.to_nat <$> l ⊆+ seq 1 n).
  { apply NoDup_submseteq.
    - apply NoDup_fmap_2; [|done]. intros x y. apply Pos2Nat.inj.
    - intros x Hx. apply list_elem_of_fmap in Hx as (a & -> & Ha).
      apply elem_of_seq. specialize (Hb a Ha). unfold n. lia. }
  apply submseteq_length in Hsub. rewrite length_fmap, length_seq in Hsub.
  unfold n in Hsub. unfold size_t_modulus in *. lia.
Qed.

Lemma owns_det st l c1 c2 : owns st l c1 → owns st l c2 → c1 = c2.
Proof.
  intros (hd1 & Ho1 & Hc1) (hd2 & Ho2 & Hc2). rewrite Ho1 in Ho2.
  injection Ho2 as <- _. by eapply chain_det.
Qed.

Lemma owns_size_bound st l cells :
  alloc_ok st → owns st l cells → Z.of_nat (length cells) < size_t_modulus.
Proof.
  intros Hok (hd & _ & Hc). rewrite <- (length_fmap fst cells).
  apply bounded_NoDup_length; [by eapply chain_NoDup|].
  intros a Ha. apply (heap_bounded _ Hok). by eapply seg_allocated.
Qed.

End ChainFacts.

(** ** Running the observers on a well-formed list *)

Ltac unfold_monad :=
  unfold mbind, M_bind, mret, M_ret, assert, undefined, out_of_fuel.

Tactic Notation "unfold_monad" "in" hyp(H) :=
  unfold mbind, M_bind, mret, M_ret, assert, undefined, out_of_fuel in H.

Section Observers.

Context {T : Type}.

Implicit Types (h : gmap positive (@Node T)) (p q r : ptr).
Implicit Types (cells : list (positive * T)) (st : @state T).

Lemma traverse_chain fuel st p cells :
  chain (heap st) p cells → (length cells < fuel)%nat →
  traverse fuel (Iter p) (Iter nullptr) st = Ret cells.*2 st.
Proof.
  unfold chain. revert p cells. induction fuel as [|fuel IH]; intros p cells Hc Hlt; [lia|].
  destruct cells as [|[a v] cells]; simpl in Hc.
  - subst p. reflexivity.
  - destruct Hc as (-> & r & Hr & Hs). simpl in Hlt.
    cbn [traverse]. unfold iter_ne, iter_deref, iter_incr, load. unfold_monad. simpl.
    repeat (rewrite Hr; simpl). rewrite (IH r cells); [done|done|lia].
Qed.

Lemma contents_owns st l cells :
  owns st l cells → contents l st = Ret cells.*2 st.
Proof.
  intros (hd & Ho & Hc). unfold contents, begin, cbegin, load, loop_fuel, end_.
  unfold_monad. rewrite Ho. cbv beta iota. cbn [head_].
  apply traverse_chain; [done|]. apply chain_length_le in Hc. lia.
Qed.

Lemma GetSize_owns st l cells :
  owns st l cells → GetSize l st = Ret (Z.of_nat (length cells)) st.
Proof.
  intros (hd & Ho & Hc). unfold GetSize, get_size. by rewrite Ho.
Qed.

Lemma IsEmpty_owns st l cells :
  owns st l cells → IsEmpty l st = Ret (bool_decide (cells = [])) st.
Proof.
  intros (hd & Ho & Hc). unfold IsEmpty, get_size. unfold_monad. rewrite Ho. simpl.
  f_equal. destruct cells; [done|].
  repeat case_bool_decide; done || (simpl in *; lia).
Qed.

Lemma begin_owns st l cells :
  owns st l cells → begin l st = Ret (Iter (first_ptr cells)) st.
Proof.
  intros (hd & Ho & Hc). unfold begin, cbegin, load. unfold_monad. rewrite Ho. simpl.
  do 2 f_equal. destruct cells as [|c cells]; simpl in *; [done|]. by destruct Hc.
Qed.

Lemma size_invariant_owns st l cells : owns st l cells → size_invariant st l.
Proof.
  intros (hd & Ho & Hc). exists (mkList hd (Z.of_nat (length cells))), cells.
  split; [done|]. split; [|done]. unfold reachable_nodes. rewrite Ho. cbn [head_].
  apply chain_walk; [done|]. apply chain_length_le in Hc. lia.
Qed.

Lemma owns_size_invariant st l :
  size_invariant st l → ∃ cells, owns st l cells.
Proof.
  intros ([hd n] & cells & Ho & Hw & Hn). simpl in Hn. subst n. exists cells, hd.
  split; [done|]. unfold reachable_nodes in Hw. rewrite Ho in Hw. cbn [head_] in Hw.
  by eapply walk_chain.
Qed.

End Observers.

(** ** The state each mutator returns *)

Ltac exec_step :=
  match goal with
  | H : objects _ !! _ = _ |- _ => rewrite H
  | H : heap _ !! _ = _ |- _ => rewrite H
  | H : free_pool _ = _ |- _ => rewrite H
  | |- _ => rewrite lookup_insert_eq
  | |- _ => rewrite lookup_insert_ne by congruence
  | |- _ => rewrite lookup_delete_eq
  | |- _ => rewrite lookup_delete_ne by congruence
  | |- _ => rewrite insert_insert_eq
  | |- _ => rewrite bool_decide_eq_true_2 by congruence
  | |- _ => rewrite bool_decide_eq_false_2 by congruence
  end.

Ltac exec := unfold_monad; simpl; repeat (exec_step; simpl).

Section Runs.

Context {T : Type}.

Implicit Types (h : gmap positive (@Node T)) (p q r : ptr).
Implicit Types (cells : list (positive * T)) (st : @state T).

Lemma PushFront_run st this o a pool v :
  objects st !! this = Some o → free_pool st = a :: pool →
  PushFront this v st =
    Ret tt (mkState
      (<[this := mkList (mkNode (value (head_ o)) (node_at a))
                   (size_t_wrap (size_ o + 1))]> (objects st))
      (<[a := mkNode v (next_node (head_ o))]> (heap st)) pool).
Proof.
  intros Ho Hp. unfold PushFront, load, new_Node, store_next, get_size, set_size.
  exec. done.
Qed.

Lemma InsertAfter_head_run st this o a pool v :
  objects st !! this = Some o → free_pool st = a :: pool →
  InsertAfter this (Iter (head_of this)) v st =
    Ret (Iter (node_at a)) (mkState
      (<[this := mkList (mkNode (value (head_ o)) (node_at a))
                   (size_t_wrap (size_ o + 1))]> (objects st))
      (<[a := mkNode v (next_node (head_ o))]> (heap st)) pool).
Proof.
  intros Ho Hp. unfold InsertAfter, load, new_Node, store_next, get_size, set_size.
  exec. done.
Qed.

Lemma InsertAfter_node_run st this o b nb a pool v :
  objects st !! this = Some o → heap st !! b = Some nb →
  free_pool st = a :: pool → a ≠ b →
  InsertAfter this (Iter (node_at b)) v st =
    Ret (Iter (node_at a)) (mkState
      (<[this := mkList (head_ o) (size_t_wrap (size_ o + 1))]> (objects st))
      (<[b := mkNode (value nb) (node_at a)]>
         (<[a := mkNode v (next_node nb)]> (heap st))) pool).
Proof.
  intros Ho Hb Hp Hne. unfold InsertAfter, load, new_Node, store_next, get_size, set_size.
  exec. done.
Qed.

Lemma PopFront_run st this o a n :
  objects st !! this = Some o → size_ o ≠ 0 →
  next_node (head_ o) = node_at a → heap st !! a = Some n →
  PopFront this st =
    Ret tt (mkState
      (<[this := mkList (mkNode (value (head_ o)) (next_node n))
                   (size_t_wrap (size_ o - 1))]> (objects st))
      (delete a (heap st)) (a :: free_pool st)).
Proof.
  intros Ho Hsz Hnext Ha.
  unfold PopFront, IsEmpty, load, delete_Node, store_next, get_size, set_size.
  exec. rewrite Hnext. exec. done.
Qed.

Lemma EraseAfter_head_run st this o a n :
  objects st !! this = Some o →
  next_node (head_ o) = node_at a → heap st !! a = Some n →
  EraseAfter this (Iter (head_of this)) st =
    Ret (Iter (next_node n)) (mkState
      (<[this := mkList (mkNode (value (head_ o)) (next_node n))
                   (size_t_wrap (size_ o - 1))]> (objects st))
      (delete a (heap st)) (a :: free_pool st)).
Proof.
  intros Ho Hnext Ha.
  unfold EraseAfter, load, delete_Node, store_next, get_size, set_size.
  exec. rewrite Hnext. exec. done.
Qed.

Lemma EraseAfter_node_run st this o b nb a n :
  objects st !! this = Some o → heap st !! b = Some nb →
  next_node nb = node_at a → heap st !! a = Some n → a ≠ b →
  EraseAfter this (Iter (node_at b)) st =
    Ret (Iter (next_node n)) (mkState
      (<[this := mkList (head_ o) (size_t_wrap (size_ o - 1))]> (objects st))
      (<[b := mkNode (value nb) (next_node n)]> (delete a (heap st)))
      (a :: free_pool st)).
Proof.
  intros Ho Hb Hnext Ha Hne.
  unfold EraseAfter, load, delete_Node, store_next, get_size, set_size.
  exec. rewrite Hnext. exec. done.
Qed.

End Runs.

(** ** Allocation and framing *)

Section Framing.

Context {T : Type}.

Implicit Types (h : gmap positive (@Node T)) (p q r : ptr).
Implicit Types (cells : list (positive * T)) (st : @state T).

Lemma alloc_ok_alloc st st' a pool :
  alloc_ok st → free_pool st = a :: pool → free_pool st' = pool →
  (∀ x, is_Some (heap st' !! x) ↔ x = a ∨ is_Some (heap st !! x)) →
  alloc_ok st'.
Proof.
  intros [Hnd Hun Hpb Hhb] Hp Hp' Hdom. rewrite Hp in *.
  apply NoDup_cons in Hnd as [Hnotin Hnd]. constructor; rewrite ?Hp'.
  - done.
  - intros x Hx. apply eq_None_not_Some. intros Hs. apply Hdom in Hs as [->|Hs]; [done|].
    rewrite Hun in Hs; [by destruct Hs|]. by apply list_elem_of_further.
  - intros x Hx. apply Hpb. by apply list_elem_of_further.
  - intros x Hs. apply Hdom in Hs as [->|Hs]; [|by apply Hhb].
    apply Hpb. apply list_elem_of_here.
Qed.

Lemma alloc_ok_free st st' a :
  alloc_ok st → is_Some (heap st !! a) → free_pool st' = a :: free_pool st →
  (∀ x, is_Some (heap st' !! x) ↔ x ≠ a ∧ is_Some (heap st !! x)) →
  alloc_ok st'.
Proof.
  intros [Hnd Hun Hpb Hhb] Ha Hp' Hdom. constructor; rewrite ?Hp'.
  - apply NoDup_cons. split; [|done]. intros Hin. apply Hun in Hin.
    rewrite Hin in Ha. by destruct Ha.
  - intros x Hx. apply eq_None_not_Some. intros Hs. apply Hdom in Hs as [Hne Hs].
    apply elem_of_cons in Hx as [->|Hx]; [done|].
    rewrite Hun in Hs; [by destruct Hs|done].
  - intros x Hx. apply elem_of_cons in Hx as [->|Hx]; [by apply Hhb|by apply Hpb].
  - intros x Hs. apply Hdom in Hs as [_ Hs]. by apply Hhb.
Qed.

Lemma alloc_ok_same st st' :
  alloc_ok st → free_pool st' = free_pool st →
  (∀ x, is_Some (heap st' !! x) ↔ is_Some (heap st !! x)) →
  alloc_ok st'.
Proof.
  intros [Hnd Hun Hpb Hhb] Hp' Hdom. constructor; rewrite ?Hp'.
  - done.
  - intros x Hx. apply eq_None_not_Some. intros Hs. apply Hdom in Hs.
    rewrite Hun in Hs; [by destruct Hs|done].
  - done.
  - intros x Hs. apply Hdom in Hs. by apply Hhb.
Qed.

Lemma chain_size_bound st p cells :
  alloc_ok st → chain (heap st) p cells → Z.of_nat (length cells) < size_t_modulus.
Proof.
  intros Hok Hc. rewrite <- (length_fmap fst cells).
  apply bounded_NoDup_length; [by eapply chain_NoDup|].
  intros a Ha. apply (heap_bounded _ Hok). by eapply seg_allocated.
Qed.

Lemma size_t_wrap_small z : 0 ≤ z < size_t_modulus → size_t_wrap z = z.
Proof. intros Hz. unfold size_t_wrap. by apply Z.mod_small. Qed.

Lemma owns_frame st st' l cells :
  owns st l cells →
  objects st' !! l = objects st !! l →
  (∀ a, a ∈ cells.*1 → heap st' !! a = heap st !! a) →
  owns st' l cells.
Proof.
  intros (hd & Ho & Hc) Hobj Hheap. exists hd. split; [by rewrite Hobj|].
  by eapply seg_frame.
Qed.

Lemma frame_step_other st st' this cells cells' l c :
  frame_step st st' this cells cells' →
  l ≠ this → owns st l c → (∀ a, a ∈ c.*1 → a ∉ cells.*1) →
  owns st' l c.
Proof.
  intros (_ & _ & Hobj & Hheap & _) Hne Ho Hsep.
  eapply owns_frame; [done|by apply Hobj|].
  intros a Ha. apply Hheap; [by apply Hsep|].
  destruct Ho as (hd & _ & Hc). by eapply seg_allocated.
Qed.

(** A mutator with this footprint keeps the invariant of the whole state. *)
Lemma frame_step_inv st st' this cells cells' :
  state_inv st →
  (owns st this cells ∨ (objects st !! this = None ∧ cells = [])) →
  frame_step st st' this cells cells' →
  state_inv st'.
Proof.
  intros [Hok Hall Hsep] Hthis Hstep.
  pose proof Hstep as (Hok' & Hown' & Hobj & Hheap & Hnew).
  assert (Hold : ∀ l c, l ≠ this → owns st l c → ∀ a, a ∈ c.*1 → a ∉ cells.*1).
  { intros l c Hne Hl a Ha. destruct Hthis as [Hthis|[_ ->]].
    - by eapply (Hsep l this).
    - simpl. apply not_elem_of_nil. }
  assert (Hother : ∀ l c, l ≠ this → owns st' l c → owns st l c).
  { intros l c Hne Hl. destruct (Hall l) as (c0 & Hc0).
    - rewrite <- Hobj by done. destruct Hl as (hd & -> & _). by eexists.
    - pose proof (frame_step_other _ _ _ _ _ _ _ Hstep Hne Hc0 (Hold _ _ Hne Hc0)) as Hc0'.
      by rewrite (owns_det _ _ _ _ Hl Hc0'). }
  assert (Hdisj : ∀ l c, l ≠ this → owns st l c → ∀ a, a ∈ c.*1 → a ∉ cells'.*1).
  { intros l c Hne Hl a Ha Hin. apply Hnew in Hin as [Hin|Hin].
    - by eapply Hold.
    - destruct Hl as (hd & _ & Hc). eapply seg_allocated in Hc; [|done].
      rewrite Hin in Hc. by destruct Hc. }
  constructor; [done| |].
  - intros l Hl. destruct (decide (l = this)) as [->|Hne]; [by eexists|].
    rewrite Hobj in Hl by done. destruct (Hall l Hl) as (c & Hc). exists c.
    eapply frame_step_other; [done|done|done|]. by eapply Hold.
  - intros l1 l2 c1 c2 Hne H1 H2 a Ha.
    destruct (decide (l1 = this)) as [->|Hne1]; destruct (decide (l2 = this)) as [->|Hne2].
    + done.
    + rewrite (owns_det _ _ _ _ H1 Hown') in Ha. intros Hin.
      by eapply (Hdisj l2 c2 Hne2 (Hother _ _ Hne2 H2) a).
    + rewrite (owns_det _ _ _ _ H2 Hown'). eapply Hdisj; [done| |done]. by apply Hother.
    + eapply (Hsep l1 l2); [done| | |done]; by apply Hother.
Qed.

End Framing.

(** ** Insertion and removal on a well-formed list *)

Section Mutators.

Context {T : Type}.

Implicit Types (h : gmap positive (@Node T)) (p q r : ptr).
Implicit Types (cells : list (positive * T)) (st : @state T).

Lemma pool_head_unused st a pool :
  alloc_ok st → free_pool st = a :: pool → heap st !! a = None.
Proof.
  intros Hok Hp. apply (pool_unused _ Hok). rewrite Hp. apply list_elem_of_here.
Qed.

Lemma unused_not_in_chain h p cells q a :
  seg h p cells q → h !! a = None → a ∉ cells.*1.
Proof.
  intros Hs Ha Hin. eapply seg_allocated in Hs; [|done]. rewrite Ha in Hs. by destruct Hs.
Qed.

Lemma InsertAfter_head_owns st this cells a pool v :
  alloc_ok st → owns st this cells → free_pool st = a :: pool →
  ∃ st', InsertAfter this (Iter (head_of this)) v st = Ret (Iter (node_at a)) st'
         ∧ PushFront this v st = Ret tt st'
         ∧ free_pool st' = pool
         ∧ frame_step st st' this cells ((a, v) :: cells).
Proof.
  intros Hok (hd & Ho & Hc) Hp.
  pose proof (pool_head_unused _ _ _ Hok Hp) as Hfresh.
  pose proof (unused_not_in_chain _ _ _ _ _ Hc Hfresh) as Hnotin.
  eexists. split; [by eapply InsertAfter_head_run|].
  split; [by eapply PushFront_run|]. split; [done|]. simpl.
  assert (Hok' : alloc_ok
    (mkState (<[this := mkList (mkNode (value hd) (node_at a))
                 (size_t_wrap (Z.of_nat (length cells) + 1))]> (objects st))
       (<[a := mkNode v (next_node hd)]> (heap st)) pool)).
  { eapply alloc_ok_alloc; [done|done|done|]. intros x. simpl.
    rewrite lookup_insert_is_Some. destruct (decide (a = x)); naive_solver. }
  assert (Hc' : chain (<[a := mkNode v (next_node hd)]> (heap st)) (node_at a)
                  ((a, v) :: cells)).
  { split; [done|]. exists (next_node hd). simpl. rewrite lookup_insert_eq. split; [done|].
    eapply seg_frame; [done|]. intros x Hx. rewrite lookup_insert_ne; [done|].
    by intros ->. }
  split; [done|]. split; [|split; [|split]].
  - exists (mkNode (value hd) (node_at a)). simpl. rewrite lookup_insert_eq. split; [|done].
    do 2 f_equal. pose proof (chain_size_bound _ _ _ Hok' Hc') as Hb. simpl in Hb.
    rewrite size_t_wrap_small; lia.
  - intros l Hne. simpl. by rewrite lookup_insert_ne.
  - intros x Hx Hs. simpl. rewrite lookup_insert_ne; [done|]. intros ->.
    rewrite Hfresh in Hs. by destruct Hs.
  - intros x Hx. simpl in Hx. apply elem_of_cons in Hx as [->|Hx]; [by right|by left].
Qed.

Lemma InsertAfter_node_owns st this c1 b vb c2 a pool v :
  alloc_ok st → owns st this (c1 ++ (b, vb) :: c2) → free_pool st = a :: pool →
  ∃ st', InsertAfter this (Iter (node_at b)) v st = Ret (Iter (node_at a)) st'
         ∧ free_pool st' = pool
         ∧ frame_step st st' this (c1 ++ (b, vb) :: c2) (c1 ++ (b, vb) :: (a, v) :: c2).
Proof.
  intros Hok (hd & Ho & Hc) Hp.
  pose proof (pool_head_unused _ _ _ Hok Hp) as Hfresh.
  pose proof (unused_not_in_chain _ _ _ _ _ Hc Hfresh) as Hnotin.
  pose proof (chain_NoDup _ _ _ Hc) as Hnd.
  rewrite fmap_app, fmap_cons in Hnd, Hnotin. simpl in Hnd, Hnotin.
  apply NoDup_app in Hnd as (Hnd1 & Hsep & Hnd2).
  apply NoDup_cons in Hnd2 as (Hb2 & Hnd2).
  pose proof Hc as Hc0. apply seg_app in Hc0 as (r & Hs1 & Hs2).
  destruct Hs2 as (-> & r' & Hb & Hs2). simpl in Hb.
  assert (Hab : a ≠ b).
  { intros ->. rewrite Hfresh in Hb. done. }
  eexists. split; [by eapply InsertAfter_node_run|]. split; [done|].
  set (h' := <[b := mkNode vb (node_at a)]> (<[a := mkNode v r']> (heap st))).
  assert (Hc' : chain h' (next_node hd) (c1 ++ (b, vb) :: (a, v) :: c2)).
  { apply seg_app. exists (node_at b). split.
    - eapply seg_frame; [done|]. intros x Hx. unfold h'.
      rewrite !lookup_insert_ne; [done| |].
      + intros ->. apply Hnotin. apply elem_of_app. by left.
      + intros ->. apply (Hsep _ Hx). apply list_elem_of_here.
    - split; [done|]. exists (node_at a). simpl. split; [by unfold h'; rewrite lookup_insert_eq|].
      split; [done|]. exists r'. simpl. split.
      + unfold h'. rewrite lookup_insert_ne by done. by rewrite lookup_insert_eq.
      + eapply seg_frame; [done|]. intros x Hx. unfold h'.
        rewrite !lookup_insert_ne; [done| |].
        * intros ->. apply Hnotin. apply elem_of_app. right. by apply list_elem_of_further.
        * by intros ->. }
  assert (Hok' : alloc_ok
    (mkState (<[this := mkList hd
                 (size_t_wrap (Z.of_nat (length (c1 ++ (b, vb) :: c2)) + 1))]> (objects st))
       h' pool)).
  { eapply alloc_ok_alloc; [done|done|done|]. intros x. simpl. unfold h'.
    rewrite !lookup_insert_is_Some.
    destruct (decide (a = x)), (decide (b = x)); subst; naive_solver. }
  simpl. fold h'. split; [done|]. split; [|split; [|split]].
  - exists hd. simpl. rewrite lookup_insert_eq. split; [|done].
    do 2 f_equal. pose proof (chain_size_bound _ _ _ Hok' Hc') as Hbd.
    rewrite !length_app in *. simpl in *. rewrite size_t_wrap_small; lia.
  - intros l Hne. simpl. by rewrite lookup_insert_ne.
  - intros x Hx Hs. simpl. unfold h'. rewrite !lookup_insert_ne; [done| |].
    + intros ->. rewrite Hfresh in Hs. by destruct Hs.
    + intros ->. apply Hx. rewrite fmap_app, fmap_cons. apply elem_of_app. right.
      apply list_elem_of_here.
  - intros x Hx. rewrite !fmap_app, !fmap_cons in *. simpl in *.
    rewrite !elem_of_app, !elem_of_cons in *. naive_solver.
Qed.

Lemma PopFront_owns st this a va cells :
  alloc_ok st → owns st this ((a, va) :: cells) →
  ∃ st', PopFront this st = Ret tt st'
         ∧ EraseAfter this (Iter (head_of this)) st = Ret (Iter (first_ptr cells)) st'
         ∧ free_pool st' = a :: free_pool st
         ∧ frame_step st st' this ((a, va) :: cells) cells.
Proof.
  intros Hok Hown. pose proof (owns_size_bound _ _ _ Hok Hown) as Hbd.
  destruct Hown as (hd & Ho & Hc).
  pose proof (chain_NoDup _ _ _ Hc) as Hnd. simpl in Hnd.
  apply NoDup_cons in Hnd as (Hnotin & Hnd).
  destruct Hc as (Hnext & r & Ha & Hs). simpl in Hnext, Ha.
  assert (Hr : r = first_ptr cells).
  { destruct cells as [|c cells]; simpl in *; [done|]. by destruct Hs. }
  eexists. split; [|split].
  - eapply PopFront_run; [done| |done|done]. simpl. simpl in Hbd. lia.
  - erewrite EraseAfter_head_run; [|done|done|done]. simpl. by rewrite Hr.
  - split; [done|]. simpl.
    assert (Hok' : alloc_ok
      (mkState (<[this := mkList (mkNode (value hd) r)
                   (size_t_wrap (Z.of_nat (length ((a, va) :: cells)) - 1))]> (objects st))
         (delete a (heap st)) (a :: free_pool st))).
    { eapply alloc_ok_free; [done|by eexists|done|]. intros x. simpl.
      rewrite lookup_delete_is_Some. naive_solver. }
    split; [done|]. split; [|split; [|split]].
    + exists (mkNode (value hd) r). simpl. rewrite lookup_insert_eq. split.
      * do 2 f_equal. simpl in Hbd. rewrite size_t_wrap_small; simpl length; lia.
      * simpl. eapply seg_frame; [done|]. intros x Hx. rewrite lookup_delete_ne; [done|].
        by intros ->.
    + intros l Hne. simpl. by rewrite lookup_insert_ne.
    + intros x Hx Hsome. simpl. rewrite lookup_delete_ne; [done|]. intros ->.
      apply Hx. simpl. apply list_elem_of_here.
    + intros x Hx. left. simpl. by apply list_elem_of_further.
Qed.

Lemma EraseAfter_node_owns st this c1 b vb a va c2 :
  alloc_ok st → owns st this (c1 ++ (b, vb) :: (a, va) :: c2) →
  ∃ st', EraseAfter this (Iter (node_at b)) st = Ret (Iter (first_ptr c2)) st'
         ∧ free_pool st' = a :: free_pool st
         ∧ frame_step st st' this (c1 ++ (b, vb) :: (a, va) :: c2) (c1 ++ (b, vb) :: c2).
Proof.
  intros Hok Hown. pose proof (owns_size_bound _ _ _ Hok Hown) as Hbd.
  destruct Hown as (hd & Ho & Hc).
  pose proof (chain_NoDup _ _ _ Hc) as Hnd.
  rewrite fmap_app, !fmap_cons in Hnd. simpl in Hnd.
  apply NoDup_app in Hnd as (Hnd1 & Hsep & Hnd2).
  apply NoDup_cons in Hnd2 as (Hb2 & Hnd2).
  apply NoDup_cons in Hnd2 as (Ha2 & Hnd2).
  pose proof Hc as Hc0. apply seg_app in Hc0 as (r & Hs1 & Hs2).
  destruct Hs2 as (-> & r' & Hb & (-> & r'' & Ha & Hs2)). simpl in Hb, Ha.
  assert (Hab : a ≠ b).
  { intros ->. apply Hb2. apply list_elem_of_here. }
  assert (Hr : r'' = first_ptr c2).
  { destruct c2 as [|c c2]; simpl in *; [done|]. by destruct Hs2. }
  eexists. split.
  { erewrite EraseAfter_node_run; [|done|done|done|done|done]. simpl. by rewrite <- Hr. }
  split; [done|]. simpl.
  set (h' := <[b := mkNode vb r'']> (delete a (heap st))).
  assert (Hok' : alloc_ok
    (mkState (<[this := mkList hd
         (size_t_wrap (Z.of_nat (length (c1 ++ (b, vb) :: (a, va) :: c2)) - 1))]> (objects st))
       h' (a :: free_pool st))).
  { eapply alloc_ok_free; [done|by eexists|done|]. intros x. simpl. unfold h'.
    rewrite lookup_insert_is_Some, lookup_delete_is_Some.
    destruct (decide (b = x)); subst; naive_solver. }
  split; [done|]. split; [|split; [|split]].
  - exists hd. simpl. rewrite lookup_insert_eq. split.
    + do 2 f_equal. rewrite !length_app in *. simpl in *. rewrite size_t_wrap_small; lia.
    + simpl. apply seg_app. exists (node_at b). split.
      * eapply seg_frame; [done|]. intros x Hx. unfold h'.
        rewrite lookup_insert_ne, lookup_delete_ne; [done| |].
        -- intros ->. apply (Hsep _ Hx). apply list_elem_of_further, list_elem_of_here.
        -- intros ->. apply (Hsep _ Hx). apply list_elem_of_here.
      * split; [done|]. exists r''. simpl. split; [by unfold h'; rewrite lookup_insert_eq|].
        eapply seg_frame; [done|]. intros x Hx. unfold h'.
        rewrite lookup_insert_ne, lookup_delete_ne; [done| |].
        -- by intros ->.
        -- intros ->. apply Hb2. by apply list_elem_of_further.
  - intros l Hne. simpl. by rewrite lookup_insert_ne.
  - intros x Hx Hsome. simpl. unfold h'.
    rewrite !fmap_app, !fmap_cons in Hx. simpl in Hx.
    rewrite !elem_of_app, !elem_of_cons in Hx.
    rewrite lookup_insert_ne, lookup_delete_ne; [done| |]; intros ->; naive_solver.
  - intros x Hx. left. rewrite !fmap_app, !fmap_cons in *. simpl in *.
    rewrite !elem_of_app, !elem_of_cons in *. naive_solver.
Qed.

End Mutators.

(** ** Positions given by an index *)

Section Positions.

Context {T : Type}.

Implicit Types (h : gmap positive (@Node T)) (p q r : ptr).
Implicit Types (cells : list (positive * T)) (st : @state T).

Lemma first_ptr_drop cells k :
  first_ptr (drop k cells) = pos_ptr 1%positive cells (S k).
Proof.
  assert (Hk : drop k cells !! 0%nat = cells !! k).
  { rewrite lookup_drop. f_equal. lia. }
  simpl. rewrite <- Hk. by destruct (drop k cells).
Qed.

Lemma pos_ptr_S this this' cells k : pos_ptr this cells (S k) = pos_ptr this' cells (S k).
Proof. done. Qed.

Lemma chain_lookup h p cells i b vb :
  chain h p cells → cells !! i = Some (b, vb) →
  h !! b = Some (mkNode vb (first_ptr (drop (S i) cells))).
Proof.
  unfold chain. revert p i. induction cells as [|c cells IH]; intros p i; [done|].
  intros (-> & r & Hr & Hs) Hi. destruct i as [|i]; simpl in Hi.
  - injection Hi as ->. simpl in Hr. rewrite Hr. do 2 f_equal. simpl.
    destruct cells as [|c cells]; simpl in *; [done|]. by destruct Hs.
  - simpl. by eapply IH.
Qed.

Lemma iter_incr_pos st this cells k :
  owns st this cells → (k ≤ length cells)%nat →
  iter_incr (Iter (pos_ptr this cells k)) st = Ret (Iter (pos_ptr this cells (S k))) st.
Proof.
  intros (hd & Ho & Hc) Hk. destruct k as [|k].
  - unfold iter_incr, load. exec. do 2 f_equal.
    destruct cells as [|c cells]; simpl in *; [done|]. by destruct Hc.
  - destruct (lookup_lt_is_Some_2 cells k) as [[b vb] Hb]; [lia|].
    pose proof (chain_lookup _ _ _ _ _ _ Hc Hb) as Hh.
    cbn [pos_ptr]. rewrite Hb. unfold iter_incr, load. exec.
    do 2 f_equal. rewrite (first_ptr_drop cells (S k)). done.
Qed.

Lemma advance_pos st this cells j k :
  owns st this cells → (j + k ≤ S (length cells))%nat →
  advance k (Iter (pos_ptr this cells j)) st = Ret (Iter (pos_ptr this cells (j + k))) st.
Proof.
  intros Hown. revert j. induction k as [|k IH]; intros j Hjk.
  - by rewrite Nat.add_0_r.
  - cbn [advance]. unfold_monad. rewrite (iter_incr_pos st this cells j); [|done|lia].
    rewrite IH by lia. do 3 f_equal. lia.
Qed.

Lemma InsertAfter_at st this cells k a pool v :
  alloc_ok st → owns st this cells → (k ≤ length cells)%nat →
  free_pool st = a :: pool →
  ∃ st', InsertAfter this (Iter (pos_ptr this cells k)) v st = Ret (Iter (node_at a)) st'
         ∧ free_pool st' = pool
         ∧ frame_step st st' this cells (take k cells ++ (a, v) :: drop k cells).
Proof.
  intros Hok Hown Hk Hp. destruct k as [|k].
  - destruct (InsertAfter_head_owns st this cells a pool v) as (st' & H1 & _ & H2 & H3); [done..|].
    exists st'. rewrite drop_0. done.
  - destruct (lookup_lt_is_Some_2 cells k) as [[b vb] Hb]; [lia|].
    cbn [pos_ptr]. rewrite Hb. simpl.
    pose proof (take_drop_middle cells k (b, vb) Hb) as Hsplit.
    rewrite <- Hsplit in Hown.
    destruct (InsertAfter_node_owns st this _ b vb _ a pool v Hok Hown Hp)
      as (st' & H1 & H2 & H3).
    exists st'. split; [done|]. split; [done|].
    rewrite Hsplit in H3. rewrite (take_S_r cells k (b, vb)) by done.
    by rewrite <- app_assoc.
Qed.

Lemma EraseAfter_at st this cells k :
  alloc_ok st → owns st this cells → (k < length cells)%nat →
  ∃ st' a, EraseAfter this (Iter (pos_ptr this cells k)) st
             = Ret (Iter (first_ptr (drop (S k) cells))) st'
         ∧ free_pool st' = a :: free_pool st
         ∧ frame_step st st' this cells (take k cells ++ drop (S k) cells).
Proof.
  intros Hok Hown Hk. destruct k as [|k].
  - destruct cells as [|[a va] cells]; [simpl in Hk; lia|].
    destruct (PopFront_owns st this a va cells Hok Hown) as (st' & _ & H1 & H2 & H3).
    exists st', a. simpl. rewrite drop_0. done.
  - destruct (lookup_lt_is_Some_2 cells k) as [[b vb] Hb]; [lia|].
    destruct (lookup_lt_is_Some_2 cells (S k)) as [[a va] Ha]; [lia|].
    cbn [pos_ptr]. rewrite Hb. simpl fst.
    pose proof (take_drop_middle cells k (b, vb) Hb) as Hsplit.
    pose proof (take_drop_middle cells (S k) (a, va) Ha) as Hsplit2.
    rewrite (take_S_r cells k (b, vb)) in Hsplit2 by done.
    rewrite <- app_assoc in Hsplit2. simpl in Hsplit2.
    rewrite <- Hsplit2 in Hown.
    destruct (EraseAfter_node_owns st this _ b vb a va _ Hok Hown) as (st' & H1 & H2 & H3).
    exists st', a. split; [done|]. split; [done|].
    rewrite Hsplit2 in H3. rewrite (take_S_r cells k (b, vb)) by done.
    by rewrite <- app_assoc.
Qed.

End Positions.

(** ** Clear, Swap and the constructors from nothing and from a sequence *)

Section Whole.

Context {T : Type}.
Variable Type_default : T.

Implicit Types (h : gmap positive (@Node T)) (p q r : ptr).
Implicit Types (cells : list (positive * T)) (st : @state T).

Lemma frame_step_trans st st1 st2 this c0 c1 c2 :
  frame_step st st1 this c0 c1 → frame_step st1 st2 this c1 c2 →
  frame_step st st2 this c0 c2.
Proof.
  intros (_ & _ & Hobj1 & Hheap1 & Hnew1) (Hok2 & Hown2 & Hobj2 & Hheap2 & Hnew2).
  split; [done|]. split; [done|]. split; [|split].
  - intros l Hne. rewrite Hobj2 by done. by apply Hobj1.
  - intros x Hx Hs. rewrite Hheap2.
    + by apply Hheap1.
    + intros Hin. apply Hnew1 in Hin as [Hin|Hin]; [done|]. rewrite Hin in Hs. by destruct Hs.
    + by rewrite Hheap1.
  - intros x Hx. destruct (decide (x ∈ c0.*1)) as [|Hnotin]; [by left|]. right.
    apply eq_None_not_Some. intros Hs.
    apply Hnew2 in Hx as [Hx|Hx].
    + apply Hnew1 in Hx as [Hx|Hx]; [done|]. rewrite Hx in Hs. by destruct Hs.
    + rewrite Hheap1 in Hx by done. rewrite Hx in Hs. by destruct Hs.
Qed.

Lemma Clear_loop_chain this cells : ∀ fuel st hd n,
  objects st !! this = Some (mkList hd n) →
  chain (heap st) (next_node hd) cells →
  (length cells < fuel)%nat →
  ∃ st', Clear_loop fuel this st = Ret tt st'
         ∧ objects st' = <[this := mkList (mkNode (value hd) nullptr) n]> (objects st)
         ∧ (∀ x, x ∉ cells.*1 → heap st' !! x = heap st !! x)
         ∧ (alloc_ok st → alloc_ok st').
Proof.
  induction cells as [|[a va] cells IH]; intros fuel st hd n Ho Hc Hfuel.
  - destruct fuel as [|fuel]; [simpl in Hfuel; lia|]. unfold chain in Hc. simpl in Hc.
    exists st. cbn [Clear_loop]. unfold load. exec.
    split; [done|]. split; [|done]. symmetry. apply insert_id. rewrite Ho.
    destruct hd as [v nx]. simpl in *. by subst nx.
  - destruct fuel as [|fuel]; [simpl in Hfuel; lia|].
    pose proof (chain_NoDup _ _ _ Hc) as Hnd. simpl in Hnd.
    apply NoDup_cons in Hnd as (Hnotin & Hnd).
    destruct Hc as (Hnext & r & Ha & Hs). simpl in Hnext, Ha.
    set (st1 := mkState (<[this := mkList (mkNode (value hd) r) n]> (objects st))
                  (delete a (heap st)) (a :: free_pool st)).
    destruct (IH fuel st1 (mkNode (value hd) r) n) as (st' & Hrun & Hobj & Hheap & Hok).
    { simpl. by rewrite lookup_insert_eq. }
    { simpl. eapply seg_frame; [done|]. intros x Hx. rewrite lookup_delete_ne; [done|].
      by intros ->. }
    { simpl in Hfuel. lia. }
    exists st'. split; [|split; [|split]].
    + cbn [Clear_loop]. unfold load, delete_Node, store_next. exec. rewrite Hnext. exec.
      exact Hrun.
    + rewrite Hobj. simpl. by rewrite insert_insert_eq.
    + intros x Hx. simpl in Hx. rewrite Hheap.
      * simpl. rewrite lookup_delete_ne; [done|]. intros ->. apply Hx, list_elem_of_here.
      * intros Hin. apply Hx. by apply list_elem_of_further.
    + intros Hok0. apply Hok. eapply alloc_ok_free; [done|by eexists|done|].
      intros x. simpl. rewrite lookup_delete_is_Some. naive_solver.
Qed.

Lemma Clear_chain st this hd n cells :
  objects st !! this = Some (mkList hd n) →
  chain (heap st) (next_node hd) cells →
  ∃ st', Clear this st = Ret tt st'
         ∧ objects st' = <[this := mkList (mkNode (value hd) nullptr) 0]> (objects st)
         ∧ (∀ x, x ∉ cells.*1 → heap st' !! x = heap st !! x)
         ∧ (alloc_ok st → alloc_ok st').
Proof.
  intros Ho Hc.
  destruct (Clear_loop_chain this cells (S (size (heap st))) st hd _ Ho Hc)
    as (st1 & Hrun & Hobj & Hheap & Hok).
  { apply chain_length_le in Hc. lia. }
  eexists. split; [|split; [|split]].
  - unfold Clear, loop_fuel, set_size. unfold_monad. rewrite Hrun. rewrite Hobj.
    rewrite lookup_insert_eq. done.
  - simpl. by rewrite insert_insert_eq.
  - done.
  - intros Hok0. specialize (Hok Hok0). eapply alloc_ok_same; [exact Hok|done|done].
Qed.

Lemma Clear_owns st this cells :
  owns st this cells →
  ∃ st' hd, Clear this st = Ret tt st'
         ∧ objects st' = <[this := mkList (mkNode (value hd) nullptr) 0]> (objects st)
         ∧ (∀ x, x ∉ cells.*1 → heap st' !! x = heap st !! x)
         ∧ (alloc_ok st → alloc_ok st').
Proof.
  intros (hd & Ho & Hc).
  destruct (Clear_chain st this hd _ cells Ho Hc) as (st' & H). by exists st', hd.
Qed.

Lemma Clear_empty_run st this o :
  objects st !! this = Some o → next_node (head_ o) = nullptr →
  Clear this st =
    Ret tt (mkState (<[this := mkList (head_ o) 0]> (objects st)) (heap st) (free_pool st)).
Proof.
  intros Ho Hnull. unfold Clear, loop_fuel, set_size. unfold_monad.
  cbn [Clear_loop]. unfold load. exec. done.
Qed.

Lemma Clear_frame st this cells :
  alloc_ok st → owns st this cells →
  ∃ st', Clear this st = Ret tt st' ∧ frame_step st st' this cells [].
Proof.
  intros Hok Hown. destruct (Clear_owns st this cells Hown) as (st' & hd & Hrun & Hobj & Hheap & Hok').
  exists st'. split; [done|]. split; [by apply Hok'|]. split; [|split; [|split]].
  - eexists. rewrite Hobj, lookup_insert_eq. done.
  - intros l Hne. by rewrite Hobj, lookup_insert_ne.
  - intros x Hx _. by apply Hheap.
  - intros x Hx. simpl in Hx. by apply elem_of_nil in Hx.
Qed.

Lemma Swap_run st this other ot oo :
  this ≠ other →
  objects st !! this = Some ot → objects st !! other = Some oo →
  Swap this other st =
    Ret tt (mkState
      (<[this := mkList (mkNode (value (head_ ot)) (next_node (head_ oo))) (size_ oo)]>
         (<[other := mkList (mkNode (value (head_ oo)) (next_node (head_ ot))) (size_ ot)]>
            (objects st)))
      (heap st) (free_pool st)).
Proof.
  intros Hne Ht Ho. unfold Swap, load, store_next, get_size, set_size. exec.
  do 2 f_equal. apply map_eq. intros i.
  destruct (decide (i = this)) as [Hi|Hi]; destruct (decide (i = other)) as [Hj|Hj];
    subst; simplify_map_eq; done.
Qed.

Lemma Swap_self_run st this o :
  objects st !! this = Some o → Swap this this st = Ret tt st.
Proof.
  intros Ho. unfold Swap, load, store_next, get_size, set_size. exec.
  f_equal. destruct st as [objs hp pool]. simpl in *. f_equal.
  destruct o as [[v nx] n]. simpl. by apply insert_id.
Qed.

Lemma Swap_owns st this other ct co :
  this ≠ other → owns st this ct → owns st other co →
  ∃ st', Swap this other st = Ret tt st'
         ∧ owns st' this co ∧ owns st' other ct
         ∧ heap st' = heap st ∧ free_pool st' = free_pool st
         ∧ (∀ l, l ≠ this → l ≠ other → objects st' !! l = objects st !! l).
Proof.
  intros Hne (ht & Ht & Hct) (ho & Ho & Hco).
  eexists. split; [by eapply Swap_run|]. simpl. split; [|split; [|split; [|split]]].
  - eexists. simpl. rewrite lookup_insert_eq. split; [done|]. done.
  - eexists. simpl. rewrite lookup_insert_ne by done. rewrite lookup_insert_eq.
    split; [done|]. done.
  - done.
  - done.
  - intros l H1 H2. simpl. by rewrite !lookup_insert_ne.
Qed.

Lemma Swap_inv st this other ct co :
  state_inv st → owns st this ct → owns st other co →
  ∃ st', Swap this other st = Ret tt st' ∧ state_inv st'
         ∧ owns st' this co ∧ owns st' other ct
         ∧ heap st' = heap st ∧ free_pool st' = free_pool st
         ∧ (∀ l, l ≠ this → l ≠ other → objects st' !! l = objects st !! l).
Proof.
  intros Hinv Ht Ho. destruct (decide (this = other)) as [<-|Hne].
  - exists st. destruct Ht as (ht & Ht' & Hct). split; [by eapply Swap_self_run|].
    split; [done|]. split; [done|]. split; [by exists ht|]. done.
  - destruct (Swap_owns st this other ct co Hne Ht Ho)
      as (st' & Hrun & Ht' & Ho' & Hheap & Hpool & Hobj).
    exists st'. split; [done|]. split; [|done].
    destruct Hinv as [Hok Hall Hsep].
    assert (Hback : ∀ l c, l ≠ this → l ≠ other → owns st' l c → owns st l c).
    { intros l c H1 H2 Hl. eapply owns_frame; [done|by rewrite Hobj|]. by rewrite Hheap. }
    assert (Hfwd : ∀ l c, l ≠ this → l ≠ other → owns st l c → owns st' l c).
    { intros l c H1 H2 Hl. eapply owns_frame; [done|by rewrite Hobj|]. by rewrite Hheap. }
    constructor.
    + eapply alloc_ok_same; [done|done|]. intros x. by rewrite Hheap.
    + intros l Hl. destruct (decide (l = this)) as [->|H1]; [by eexists|].
      destruct (decide (l = other)) as [->|H2]; [by eexists|].
      rewrite Hobj in Hl by done. destruct (Hall l Hl) as (c & Hc). exists c. by apply Hfwd.
    + intros l1 l2 c1 c2 Hne12 H1 H2.
      set (σ := λ l : positive,
             if decide (l = this) then other else if decide (l = other) then this else l).
      assert (Hpre : ∀ l c, owns st' l c → owns st (σ l) c).
      { intros l c Hl. unfold σ. destruct (decide (l = this)) as [->|Hn1].
        - by rewrite (owns_det _ _ _ _ Hl Ht').
        - destruct (decide (l = other)) as [->|Hn2].
          + by rewrite (owns_det _ _ _ _ Hl Ho').
          + by apply Hback. }
      eapply (Hsep (σ l1) (σ l2)); [|by apply Hpre|by apply Hpre].
      unfold σ. repeat case_decide; congruence.
Qed.

End Whole.

(** ** Construction *)

Section Construction.

Context {T : Type}.
Variable Type_default : T.

Implicit Types (h : gmap positive (@Node T)) (p q r : ptr).
Implicit Types (cells : list (positive * T)) (st : @state T).

Lemma rev_zip {A B} (l : list A) (k : list B) :
  length l = length k → rev (zip l k) = zip (rev l) (rev k).
Proof.
  revert k. induction l as [|x l IH]; intros [|y k] Hlen; simpl in *; try done.
  injection Hlen as Hlen. rewrite IH by done.
  rewrite zip_with_app by (by rewrite !length_rev). done.
Qed.

Lemma init_members_frame st this :
  alloc_ok st → objects st !! this = None →
  ∃ st', init_members Type_default this st = Ret tt st'
         ∧ objects st' = <[this := mkList (mkNode Type_default nullptr) 0]> (objects st)
         ∧ heap st' = heap st
         ∧ free_pool st' = free_pool st
         ∧ frame_step st st' this [] [].
Proof.
  intros Hok Hnone. eexists. split; [by unfold init_members; rewrite Hnone|].
  simpl. split; [done|]. split; [done|]. split; [done|].
  split; [by eapply alloc_ok_same|]. split; [|split; [|split]].
  - eexists. simpl. rewrite lookup_insert_eq. done.
  - intros l Hne. simpl. by rewrite lookup_insert_ne.
  - done.
  - intros x Hx. simpl in Hx. by apply elem_of_nil in Hx.
Qed.

Lemma PushFront_each_owns this vs : ∀ st cells news pool,
  alloc_ok st → owns st this cells →
  free_pool st = news ++ pool → length news = length vs →
  ∃ st', PushFront_each this vs st = Ret tt st'
         ∧ free_pool st' = pool
         ∧ frame_step st st' this cells (rev (zip news vs) ++ cells).
Proof.
  induction vs as [|v vs IH]; intros st cells news pool Hok Hown Hp Hlen.
  - destruct news; [|done]. exists st. split; [done|]. split; [done|].
    simpl. split; [done|]. split; [done|]. split; [done|]. split; [done|]. by left.
  - destruct news as [|a news]; [done|]. injection Hlen as Hlen. simpl in Hp.
    destruct (InsertAfter_head_owns st this cells a (news ++ pool) v Hok Hown Hp)
      as (st1 & _ & Hrun1 & Hp1 & Hstep1).
    pose proof Hstep1 as (Hok1 & Hown1 & _).
    destruct (IH st1 ((a, v) :: cells) news pool Hok1 Hown1 Hp1 Hlen)
      as (st' & Hrun & Hp' & Hstep).
    exists st'. split; [|split; [done|]].
    + cbn [PushFront_each]. unfold_monad. rewrite Hrun1. exact Hrun.
    + simpl. rewrite <- app_assoc. simpl. by eapply frame_step_trans.
Qed.

Lemma ctor_body_Ret {A} this (body : M A) st a st' :
  body st = Ret a st' → ctor_body this body st = Ret a st'.
Proof. intros H. unfold ctor_body. by rewrite H. Qed.

Lemma SingleLinkedList_init_owns st this vs :
  alloc_ok st → objects st !! this = None →
  (length vs ≤ length (free_pool st))%nat →
  ∃ st', SingleLinkedList_init Type_default this vs st = Ret tt st'
         ∧ free_pool st' = drop (length vs) (free_pool st)
         ∧ frame_step st st' this [] (zip (rev (take (length vs) (free_pool st))) vs).
Proof.
  intros Hok Hnone Hlen.
  destruct (init_members_frame st this Hok Hnone) as (st0 & Hrun0 & Hobj0 & Hheap0 & Hp0 & Hstep0).
  pose proof Hstep0 as (Hok0 & Hown0 & _).
  destruct (PushFront_each_owns this (rev vs) st0 [] (take (length vs) (free_pool st))
              (drop (length vs) (free_pool st)) Hok0 Hown0) as (st' & Hrun & Hp' & Hstep).
  { by rewrite Hp0, take_drop. }
  { rewrite length_take, length_rev. lia. }
  exists st'. split; [|split; [done|]].
  - unfold SingleLinkedList_init. unfold_monad. rewrite Hrun0.
    by apply ctor_body_Ret.
  - rewrite app_nil_r in Hstep. rewrite rev_zip in Hstep.
    + rewrite rev_involutive in Hstep. by eapply frame_step_trans.
    + rewrite length_take, length_rev. lia.
Qed.

End Construction.

(** ** The copy constructor *)

Section Copy.

Context {T : Type}.
Variable Type_default : T.

Implicit Types (h : gmap positive (@Node T)) (p q r : ptr).
Implicit Types (cells : list (positive * T)) (st : @state T).

(** [this->InsertAfter] at the sentinel of another list object. *)
Lemma InsertAfter_other_head_run st this temp o ot a pool v :
  this ≠ temp →
  objects st !! this = Some o → objects st !! temp = Some ot →
  free_pool st = a :: pool →
  InsertAfter this (Iter (head_of temp)) v st =
    Ret (Iter (node_at a)) (mkState
      (<[this := mkList (head_ o) (size_t_wrap (size_ o + 1))]>
         (<[temp := mkList (mkNode (value (head_ ot)) (node_at a)) (size_ ot)]>
            (objects st)))
      (<[a := mkNode v (next_node (head_ ot))]> (heap st)) pool).
Proof.
  intros Hne Ho Hot Hp. unfold InsertAfter, load, new_Node, store_next, get_size, set_size.
  exec. done.
Qed.

Lemma copy_loop_node this todo : ∀ fuel st p b vb news pool o,
  alloc_ok st → chain (heap st) p todo →
  heap st !! b = Some (mkNode vb nullptr) → b ∉ todo.*1 →
  objects st !! this = Some o →
  free_pool st = news ++ pool → length news = length todo →
  (length todo < fuel)%nat →
  ∃ st' last z,
    copy_loop fuel this (Iter p) (Iter nullptr) (Iter (node_at b)) st = Ret last st'
    ∧ objects st' = <[this := mkList (head_ o) z]> (objects st)
    ∧ free_pool st' = pool ∧ alloc_ok st'
    ∧ chain (heap st') (node_at b) ((b, vb) :: zip news todo.*2)
    ∧ (∀ x, x ≠ b → x ∉ news → heap st' !! x = heap st !! x).
Proof.
  induction todo as [|[a0 v0] todo IH];
    intros fuel st p b vb news pool o Hok Hc Hb Hbnot Ho Hp Hlen Hfuel.
  - destruct fuel as [|fuel]; [simpl in Hfuel; lia|]. destruct news; [|done].
    unfold chain in Hc. simpl in Hc. subst p.
    exists st, (Iter (node_at b)), (size_ o). split; [done|]. split; [|split; [done|]].
    { symmetry. apply insert_id. rewrite Ho. by destruct o. }
    split; [done|]. split; [|done]. split; [done|]. by exists nullptr.
  - destruct fuel as [|fuel]; [simpl in Hfuel; lia|].
    destruct news as [|a news]; [done|]. injection Hlen as Hlen. simpl in Hp.
    pose proof (pool_head_unused _ _ _ Hok Hp) as Hfresh.
    destruct Hc as (-> & r & Ha0 & Hs). simpl in Ha0.
    assert (Hab : a ≠ b) by (intros ->; by rewrite Hfresh in Hb).
    assert (Ha0a : a0 ≠ a) by (intros ->; by rewrite Hfresh in Ha0).
    assert (Ha0b : a0 ≠ b) by (intros ->; apply Hbnot; apply list_elem_of_here).
    set (st1 := mkState
      (<[this := mkList (head_ o) (size_t_wrap (size_ o + 1))]> (objects st))
      (<[b := mkNode vb (node_at a)]> (<[a := mkNode v0 nullptr]> (heap st)))
      (news ++ pool)).
    assert (Hok1 : alloc_ok st1).
    { eapply alloc_ok_alloc; [done|done|done|]. intros x. simpl.
      rewrite !lookup_insert_is_Some.
      destruct (decide (a = x)), (decide (b = x)); subst; naive_solver. }
    destruct (IH fuel st1 r a v0 news pool (mkList (head_ o) (size_t_wrap (size_ o + 1))))
      as (st' & last & z & Hrun & Hobj & Hp' & Hok' & Hc' & Hframe).
    { done. }
    { simpl. eapply seg_frame; [done|]. intros x Hx. rewrite !lookup_insert_ne; [done| |].
      - intros ->. eapply unused_not_in_chain in Hs; done.
      - intros ->. apply Hbnot. by apply list_elem_of_further. }
    { simpl. rewrite lookup_insert_ne by done. by rewrite lookup_insert_eq. }
    { by eapply unused_not_in_chain. }
    { simpl. by rewrite lookup_insert_eq. }
    { done. }
    { done. }
    { simpl in Hfuel. lia. }
    exists st', last, z. split; [|split; [|split; [done|split; [done|split]]]].
    + cbn [copy_loop]. unfold iter_ne, iter_deref, iter_incr. simpl.
      unfold_monad. unfold load at 1. rewrite Ha0. simpl.
      rewrite (InsertAfter_node_run st this o b (mkNode vb nullptr) a (news ++ pool) v0)
        by done.
      simpl. fold st1. unfold load. simpl.
      rewrite !lookup_insert_ne by done. rewrite Ha0. simpl. exact Hrun.
    + rewrite Hobj. simpl. by rewrite insert_insert_eq.
    + assert (Hbnews : b ∉ news).
      { intros Hin. rewrite (pool_unused _ Hok) in Hb; [done|].
        rewrite Hp. apply list_elem_of_further, elem_of_app. by left. }
      split; [done|]. exists (node_at a). split; [|done].
      rewrite Hframe by done. simpl. by rewrite lookup_insert_eq.
    + intros x Hxb Hx. apply not_elem_of_cons in Hx as [Hxa Hx].
      rewrite Hframe by done. simpl. by rewrite !lookup_insert_ne.
Qed.

Lemma copy_loop_head this temp todo : ∀ fuel st p ot news pool o,
  this ≠ temp → alloc_ok st → chain (heap st) p todo →
  objects st !! temp = Some ot → next_node (head_ ot) = nullptr →
  objects st !! this = Some o →
  free_pool st = news ++ pool → length news = length todo →
  (length todo < fuel)%nat →
  ∃ st' last z,
    copy_loop fuel this (Iter p) (Iter nullptr) (Iter (head_of temp)) st = Ret last st'
    ∧ objects st' =
        <[this := mkList (head_ o) z]>
          (<[temp := mkList (mkNode (value (head_ ot)) (first_ptr (zip news todo.*2)))
                       (size_ ot)]> (objects st))
    ∧ free_pool st' = pool ∧ alloc_ok st'
    ∧ chain (heap st') (first_ptr (zip news todo.*2)) (zip news todo.*2)
    ∧ (∀ x, x ∉ news → heap st' !! x = heap st !! x).
Proof.
  intros fuel st p ot news pool o Hne Hok Hc Hot Hnull Ho Hp Hlen Hfuel.
  destruct todo as [|[a0 v0] todo].
  - destruct fuel as [|fuel]; [simpl in Hfuel; lia|]. destruct news; [|done].
    unfold chain in Hc. simpl in Hc. subst p.
    exists st, (Iter (head_of temp)), (size_ o). split; [done|]. split; [|done].
    simpl. rewrite <- Hnull. symmetry.
    rewrite (insert_id (objects st) temp); [|rewrite Hot; by destruct ot as [[? ?] ?]].
    apply insert_id. rewrite Ho. by destruct o.
  - destruct fuel as [|fuel]; [simpl in Hfuel; lia|].
    destruct news as [|a news]; [done|]. injection Hlen as Hlen. simpl in Hp.
    pose proof (pool_head_unused _ _ _ Hok Hp) as Hfresh.
    pose proof (unused_not_in_chain _ _ _ _ _ Hc Hfresh) as Hanot.
    destruct Hc as (-> & r & Ha0 & Hs). simpl in Ha0.
    assert (Ha0a : a0 ≠ a) by (intros ->; by rewrite Hfresh in Ha0).
    set (st1 := mkState
      (<[this := mkList (head_ o) (size_t_wrap (size_ o + 1))]>
         (<[temp := mkList (mkNode (value (head_ ot)) (node_at a)) (size_ ot)]>
            (objects st)))
      (<[a := mkNode v0 nullptr]> (heap st)) (news ++ pool)).
    assert (Hok1 : alloc_ok st1).
    { eapply alloc_ok_alloc; [done|done|done|]. intros x. simpl.
      rewrite !lookup_insert_is_Some. destruct (decide (a = x)); subst; naive_solver. }
    destruct (copy_loop_node this todo fuel st1 r a v0 news pool
                (mkList (head_ o) (size_t_wrap (size_ o + 1))))
      as (st' & last & z & Hrun & Hobj & Hp' & Hok' & Hc' & Hframe).
    { done. }
    { simpl. eapply seg_frame; [done|]. intros x Hx. rewrite lookup_insert_ne; [done|].
      intros ->. apply Hanot. simpl. by apply list_elem_of_further. }
    { simpl. by rewrite lookup_insert_eq. }
    { intros Hin. apply Hanot. simpl. by apply list_elem_of_further. }
    { simpl. by rewrite lookup_insert_eq. }
    { done. }
    { done. }
    { simpl in Hfuel. lia. }
    exists st', last, z. split; [|split; [|split; [done|split; [done|split]]]].
    + cbn [copy_loop]. unfold iter_ne, iter_deref, iter_incr. simpl.
      unfold_monad. unfold load at 1. rewrite Ha0. simpl.
      rewrite (InsertAfter_other_head_run st this temp o ot a (news ++ pool) v0) by done.
      simpl. rewrite Hnull. fold st1. unfold load. simpl.
      rewrite !lookup_insert_ne by done. rewrite Ha0. simpl. exact Hrun.
    + rewrite Hobj. simpl. by rewrite insert_insert_eq.
    + done.
    + intros x Hx. apply not_elem_of_cons in Hx as [Hxa Hx].
      destruct (decide (x = a)) as [->|Hxa']; [done|].
      rewrite Hframe by done. simpl. by rewrite lookup_insert_ne.
Qed.

End Copy.

Section CopyConstructor.

Context {T : Type}.
Variable Type_default : T.

Implicit Types (h : gmap positive (@Node T)) (p q r : ptr).
Implicit Types (cells : list (positive * T)) (st : @state T).

Lemma with_local_Ret {A} (ctor : positive → M unit) (body : positive → M A)
    st st1 a st2 st3 :
  ctor (fresh (dom (objects st))) st = Ret tt st1 →
  body (fresh (dom (objects st))) st1 = Ret a st2 →
  SingleLinkedList_destroy (fresh (dom (objects st))) st2 = Ret tt st3 →
  with_local ctor body st = Ret a st3.
Proof. intros H1 H2 H3. unfold with_local. by rewrite H1, H2, H3. Qed.

Lemma fresh_object_unused st : objects st !! fresh (dom (objects st)) = None.
Proof. apply not_elem_of_dom. apply is_fresh. Qed.

Lemma bind_Ret_eq {A B} (m : M A) (k : A → M B) st a st1 (r : outcome B) :
  m st = Ret a st1 → k a st1 = r → (m ≫= k) st = r.
Proof. intros Hm Hk. unfold_monad. by rewrite Hm. Qed.

Lemma get_size_run st l o : objects st !! l = Some o → get_size l st = Ret (size_ o) st.
Proof. intros Ho. unfold get_size. by rewrite Ho. Qed.

Lemma set_size_run st l o z :
  objects st !! l = Some o →
  set_size l z st =
    Ret tt (mkState (<[l := mkList (head_ o) z]> (objects st)) (heap st) (free_pool st)).
Proof. intros Ho. unfold set_size. by rewrite Ho. Qed.

Lemma load_head_run st l o : objects st !! l = Some o → load (head_of l) st = Ret (head_ o) st.
Proof. intros Ho. unfold load. by rewrite Ho. Qed.

Lemma begin_run st l o :
  objects st !! l = Some o → begin l st = Ret (Iter (next_node (head_ o))) st.
Proof. intros Ho. unfold begin, cbegin, load. unfold_monad. by rewrite Ho. Qed.

Lemma release_members_run st l o :
  objects st !! l = Some o →
  release_members l st =
    Ret tt (mkState (delete l (objects st)) (heap st) (free_pool st)).
Proof. intros Ho. unfold release_members. by rewrite Ho. Qed.

Lemma SingleLinkedList_copy_exact st this other cells :
  alloc_ok st → objects st !! this = None → owns st other cells →
  (length cells ≤ length (free_pool st))%nat →
  ∃ st', SingleLinkedList_copy Type_default this other st = Ret tt st'
         ∧ free_pool st' = drop (length cells) (free_pool st)
         ∧ frame_step st st' this []
             (zip (take (length cells) (free_pool st)) cells.*2)
         ∧ (∀ x, x ∉ take (length cells) (free_pool st) → heap st' !! x = heap st !! x).
Proof.
  intros Hok Hnone Hown Hlen.
  set (news := take (length cells) (free_pool st)).
  set (pool := drop (length cells) (free_pool st)).
  set (new_cells := zip news cells.*2).
  set (L0 := mkList (mkNode Type_default nullptr) 0).
  set (st0 := mkState (<[this := L0]> (objects st)) (heap st) (free_pool st)).
  set (temp := fresh (dom (objects st0))).
  assert (Htemp0 : objects st0 !! temp = None) by apply fresh_object_unused.
  assert (Hne : this ≠ temp).
  { intros Heq. rewrite <- Heq in Htemp0. simpl in Htemp0.
    by rewrite lookup_insert_eq in Htemp0. }
  assert (Htemp : objects st !! temp = None).
  { simpl in Htemp0. by rewrite lookup_insert_ne in Htemp0. }
  destruct Hown as (hdo & Hother & Hc).
  assert (Hot : other ≠ this) by (intros ->; by rewrite Hnone in Hother).
  assert (Hott : other ≠ temp) by (intros ->; by rewrite Htemp in Hother).
  set (st1 := mkState (<[temp := L0]> (objects st0)) (heap st) (free_pool st)).
  assert (Hok1 : alloc_ok st1) by (by eapply alloc_ok_same).
  destruct (copy_loop_head this temp cells (S (size (heap st))) st1 (next_node hdo)
              L0 news pool L0) as (st2 & last & z & Hloop & Hobj2 & Hp2 & Hok2 & Hc2 & Hframe2).
  { done. }
  { done. }
  { done. }
  { simpl. by rewrite lookup_insert_eq. }
  { done. }
  { simpl. rewrite lookup_insert_ne by done. by rewrite lookup_insert_eq. }
  { simpl. unfold news, pool. by rewrite take_drop. }
  { unfold news. rewrite length_take. lia. }
  { apply chain_length_le in Hc. lia. }
  simpl in Hobj2. fold new_cells in Hobj2, Hc2.
  set (Lnew := mkList (mkNode Type_default (first_ptr new_cells)) (Z.of_nat (length cells))).
  set (st' := mkState (<[this := Lnew]> (objects st)) (heap st2) pool).
  assert (Hother2 : objects st2 !! other = Some (mkList hdo (Z.of_nat (length cells)))).
  { rewrite Hobj2. by rewrite !lookup_insert_ne. }
  assert (Htemp2 : objects st2 !! temp
            = Some (mkList (mkNode Type_default (first_ptr new_cells)) 0)).
  { rewrite Hobj2. rewrite lookup_insert_ne by done. by rewrite lookup_insert_eq. }
  exists st'. split; [|split; [done|split]]; [| |by apply Hframe2].
  - unfold SingleLinkedList_copy.
    eapply bind_Ret_eq.
    { unfold init_members. rewrite Hnone. fold L0. fold st0. reflexivity. }
    apply ctor_body_Ret.
    eapply bind_Ret_eq; [apply (get_size_run st0 this L0); apply lookup_insert_eq|].
    eapply bind_Ret_eq; [apply (load_head_run st0 this L0); apply lookup_insert_eq|].
    eapply bind_Ret_eq; [reflexivity|].
    eapply with_local_Ret.
    + unfold SingleLinkedList_default, init_members. fold temp. rewrite Htemp0.
      fold L0. fold st1. reflexivity.
    + fold temp.
      eapply bind_Ret_eq.
      { apply (begin_run st1 other (mkList hdo (Z.of_nat (length cells)))).
        simpl. by rewrite !lookup_insert_ne. }
      eapply bind_Ret_eq; [reflexivity|].
      eapply bind_Ret_eq; [exact Hloop|].
      eapply bind_Ret_eq; [by apply get_size_run|].
      eapply bind_Ret_eq; [by apply set_size_run|].
      eapply Swap_run; [done| |].
      * simpl. rewrite lookup_insert_ne by done. rewrite Hobj2. apply lookup_insert_eq.
      * simpl. apply lookup_insert_eq.
    + fold temp. unfold SingleLinkedList_destroy.
      eapply bind_Ret_eq.
      { eapply Clear_empty_run;
          [simpl; rewrite lookup_insert_ne by done; apply lookup_insert_eq|done]. }
      erewrite release_members_run; [|simpl; apply lookup_insert_eq].
      f_equal. unfold st'. simpl. rewrite Hp2. f_equal.
      rewrite Hobj2. apply map_eq. intros i.
      destruct (decide (i = temp)) as [->|Hi].
      * rewrite lookup_delete_eq. by rewrite lookup_insert_ne.
      * rewrite lookup_delete_ne by done. rewrite lookup_insert_ne by done.
        destruct (decide (i = this)) as [->|Hj].
        -- by rewrite !lookup_insert_eq.
        -- by rewrite !lookup_insert_ne.
  - assert (Hnews : ∀ x, x ∈ news → heap st !! x = None).
    { intros x Hx. apply (pool_unused _ Hok). unfold news in Hx.
      apply elem_of_take in Hx as (i & Hi & _). by eapply list_elem_of_lookup_2. }
    split; [|split; [|split; [|split]]].
    + unfold st'. constructor; simpl.
      * by rewrite <- Hp2; apply (pool_NoDup _ Hok2).
      * rewrite <- Hp2. apply (pool_unused _ Hok2).
      * rewrite <- Hp2. apply (pool_bounded _ Hok2).
      * apply (heap_bounded _ Hok2).
    + exists (mkNode Type_default (first_ptr new_cells)). unfold st'. simpl.
      rewrite lookup_insert_eq. split; [|done]. unfold Lnew. do 3 f_equal.
      unfold new_cells. rewrite length_zip_with, length_fmap. unfold news.
      rewrite length_take. lia.
    + intros l Hl. unfold st'. simpl. by rewrite lookup_insert_ne.
    + intros x _ Hs. unfold st'. simpl. rewrite Hframe2; [done|].
      intros Hx. rewrite (Hnews x Hx) in Hs. by destruct Hs.
    + intros x Hx. right. apply Hnews. unfold new_cells in Hx.
      rewrite fst_zip in Hx; [done|]. rewrite length_fmap. unfold news.
      rewrite length_take. lia.
Qed.

Lemma SingleLinkedList_copy_owns st this other cells :
  alloc_ok st → objects st !! this = None → owns st other cells →
  (length cells ≤ length (free_pool st))%nat →
  ∃ st', SingleLinkedList_copy Type_default this other st = Ret tt st'
         ∧ free_pool st' = drop (length cells) (free_pool st)
         ∧ frame_step st st' this []
             (zip (take (length cells) (free_pool st)) cells.*2).
Proof.
  intros Hok Hnone Hown Hlen.
  destruct (SingleLinkedList_copy_exact st this other cells Hok Hnone Hown Hlen)
    as (st' & H1 & H2 & H3 & _).
  by exists st'.
Qed.

End CopyConstructor.

(** ** Comparison operators *)

Section Comparison.

Context {T : Type}.

Implicit Types (h : gmap positive (@Node T)) (p q r : ptr).
Implicit Types (cells : list (positive * T)) (st : @state T).

Lemma std_equal_chain (eq : T → T → bool) st : ∀ fuel c1 c2 p1 p2,
  chain (heap st) p1 c1 → chain (heap st) p2 c2 →
  (length c1 < fuel)%nat →
  std_equal eq fuel (Iter p1) (Iter nullptr) (Iter p2) (Iter nullptr) st
    = Ret (seq_equal eq c1.*2 c2.*2) st.
Proof.
  unfold chain. induction fuel as [|fuel IH]; intros c1 c2 p1 p2 H1 H2 Hfuel; [lia|].
  destruct c1 as [|[a1 v1] c1]; destruct c2 as [|[a2 v2] c2]; simpl in H1, H2.
  - subst. reflexivity.
  - subst p1. destruct H2 as (-> & _). reflexivity.
  - subst p2. destruct H1 as (-> & _). reflexivity.
  - destruct H1 as (-> & r1 & Hr1 & H1). destruct H2 as (-> & r2 & Hr2 & H2).
    simpl in Hr1, Hr2, Hfuel.
    cbn [std_equal]. unfold iter_ne, iter_eq, iter_deref, iter_incr, load. unfold_monad.
    simpl. rewrite Hr1. simpl. rewrite Hr2. simpl.
    destruct (eq v1 v2); simpl; [|done].
    rewrite Hr1. simpl. rewrite Hr2. simpl. apply IH; [done|done|lia].
Qed.

Lemma std_lexicographical_compare_chain (lt : T → T → bool) st : ∀ fuel c1 c2 p1 p2,
  chain (heap st) p1 c1 → chain (heap st) p2 c2 →
  (length c1 < fuel)%nat →
  std_lexicographical_compare lt fuel (Iter p1) (Iter nullptr) (Iter p2) (Iter nullptr) st
    = Ret (seq_less lt c1.*2 c2.*2) st.
Proof.
  unfold chain. induction fuel as [|fuel IH]; intros c1 c2 p1 p2 H1 H2 Hfuel; [lia|].
  destruct c1 as [|[a1 v1] c1]; destruct c2 as [|[a2 v2] c2]; simpl in H1, H2.
  - subst. reflexivity.
  - subst p1. destruct H2 as (-> & _). reflexivity.
  - subst p2. destruct H1 as (-> & _). reflexivity.
  - destruct H1 as (-> & r1 & Hr1 & H1). destruct H2 as (-> & r2 & Hr2 & H2).
    simpl in Hr1, Hr2, Hfuel.
    cbn [std_lexicographical_compare].
    unfold iter_ne, iter_eq, iter_deref, iter_incr, load. unfold_monad.
    simpl. rewrite Hr1. simpl. rewrite Hr2. simpl.
    destruct (lt v1 v2); simpl; [done|]. destruct (lt v2 v1); simpl; [done|].
    rewrite Hr1. simpl. rewrite Hr2. simpl. apply IH; [done|done|lia].
Qed.

Lemma op_eq_owns (eq : T → T → bool) st lhs rhs c1 c2 :
  owns st lhs c1 → owns st rhs c2 →
  op_eq eq lhs rhs st = Ret (seq_equal eq c1.*2 c2.*2) st.
Proof.
  intros (h1 & Ho1 & Hc1) (h2 & Ho2 & Hc2). unfold op_eq.
  eapply bind_Ret_eq; [by eapply begin_run|].
  eapply bind_Ret_eq; [by eapply begin_run|].
  eapply bind_Ret_eq; [reflexivity|].
  apply std_equal_chain; [done|done|]. apply chain_length_le in Hc1. lia.
Qed.

Lemma op_lt_owns (lt : T → T → bool) st lhs rhs c1 c2 :
  owns st lhs c1 → owns st rhs c2 →
  op_lt lt lhs rhs st = Ret (seq_less lt c1.*2 c2.*2) st.
Proof.
  intros (h1 & Ho1 & Hc1) (h2 & Ho2 & Hc2). unfold op_lt.
  eapply bind_Ret_eq; [by eapply begin_run|].
  eapply bind_Ret_eq; [by eapply begin_run|].
  eapply bind_Ret_eq; [reflexivity|].
  apply std_lexicographical_compare_chain; [done|done|]. apply chain_length_le in Hc1. lia.
Qed.

Lemma seq_equal_spec (eq : T → T → bool) l1 l2 :
  seq_equal eq l1 l2 = true ↔
  length l1 = length l2 ∧ Forall2 (λ x y, eq x y = true) l1 l2.
Proof.
  revert l2. induction l1 as [|x l1 IH]; intros [|y l2]; simpl.
  - split; [|done]. intros _. split; [done|constructor].
  - split; [done|]. by intros [? _].
  - split; [done|]. by intros [? _].
  - destruct (eq x y) eqn:Hxy; simpl.
    + rewrite IH. split.
      * intros [Hlen HF]. split; [by f_equal|]. by constructor.
      * intros [Hlen HF]. apply Forall2_cons_1 in HF as [_ HF]. split; [congruence|done].
    + split; [done|]. intros [_ HF]. apply Forall2_cons_1 in HF as [HF _]. congruence.
Qed.

Section TotalOrder.

Variable eq lt : T → T → bool.
Hypothesis eq_spec : ∀ x y, eq x y = true ↔ x = y.
Hypothesis lt_irrefl : ∀ x, lt x x = false.
Hypothesis lt_trans : ∀ x y z, lt x y = true → lt y z = true → lt x z = true.
Hypothesis lt_total : ∀ x y, lt x y = true ∨ x = y ∨ lt y x = true.

Lemma lt_asym x y : lt x y = true → lt y x = false.
Proof.
  intros Hxy. destruct (lt y x) eqn:Hyx; [|done].
  by rewrite <- (lt_irrefl x), <- (lt_trans x y x Hxy Hyx).
Qed.

Lemma seq_less_spec l1 l2 :
  seq_less lt l1 l2 = true ↔ lexicographic_less lt l1 l2.
Proof.
  revert l2. induction l1 as [|x l1 IH]; intros [|y l2]; simpl.
  - split; [done|]. intros [(y & s & Hs)|(p & x & y & s1 & s2 & H1 & _)].
    + done.
    + by destruct p.
  - split; [|done]. intros _. left. by exists y, l2.
  - split; [done|]. intros [(y & s & Hs)|(p & x' & y & s1 & s2 & _ & H2 & _)].
    + done.
    + by destruct p.
  - destruct (lt x y) eqn:Hxy.
    + split; [|done]. intros _. right. by exists [], x, y, l1, l2.
    + destruct (lt y x) eqn:Hyx.
      * split; [done|]. intros [(y' & s & Hs)|(p & x' & y' & s1 & s2 & H1 & H2 & Hlt)].
        -- injection Hs as -> _. by rewrite lt_irrefl in Hyx.
        -- destruct p as [|z p]; simpl in *.
           ++ injection H1 as -> ->. injection H2 as -> ->. congruence.
           ++ injection H1 as -> ->. injection H2 as -> ->. by rewrite lt_irrefl in Hyx.
      * assert (x = y) as <-.
        { destruct (lt_total x y) as [H|[H|H]]; congruence. }
        rewrite IH. split.
        -- intros [(y' & s & ->)|(p & x' & y' & s1 & s2 & -> & -> & Hlt)].
           ++ left. by exists y', s.
           ++ right. by exists (x :: p), x', y', s1, s2.
        -- intros [(y' & s & Hs)|(p & x' & y' & s1 & s2 & H1 & H2 & Hlt)].
           ++ injection Hs as ->. left. by exists y', s.
           ++ destruct p as [|z p]; simpl in *.
              ** injection H1 as -> ->. injection H2 as -> ->. congruence.
              ** injection H1 as -> ->. injection H2 as ->.
                 right. by exists p, x', y', s1, s2.
Qed.

Lemma seq_trichotomy l1 l2 :
  (seq_less lt l1 l2 = true ∧ seq_equal eq l1 l2 = false ∧ seq_less lt l2 l1 = false)
  ∨ (seq_less lt l1 l2 = false ∧ seq_equal eq l1 l2 = true ∧ seq_less lt l2 l1 = false)
  ∨ (seq_less lt l1 l2 = false ∧ seq_equal eq l1 l2 = false ∧ seq_less lt l2 l1 = true).
Proof.
  revert l2. induction l1 as [|x l1 IH]; intros [|y l2]; simpl.
  - right. by left.
  - by left.
  - right. by right.
  - destruct (lt x y) eqn:Hxy.
    + rewrite (lt_asym x y Hxy). left. split; [done|]. split; [|done].
      destruct (eq x y) eqn:He; [|done]. apply eq_spec in He as ->.
      by rewrite lt_irrefl in Hxy.
    + destruct (lt y x) eqn:Hyx.
      * right. right. split; [done|]. split; [|done].
        destruct (eq x y) eqn:He; [|done]. apply eq_spec in He as ->.
        by rewrite lt_irrefl in Hyx.
      * assert (x = y) as <-.
        { destruct (lt_total x y) as [H|[H|H]]; congruence. }
        rewrite (proj2 (eq_spec x x) eq_refl). simpl. apply IH.
Qed.

End TotalOrder.

End Comparison.

(** ** Assignment *)

Section Assignment.

Context {T : Type}.
Variable Type_default : T.

Implicit Types (h : gmap positive (@Node T)) (p q r : ptr).
Implicit Types (cells : list (positive * T)) (st : @state T).

Lemma owns_release st l l' cells :
  l' ≠ l →
  owns (mkState (delete l (objects st)) (heap st) (free_pool st)) l' cells
  ↔ owns st l' cells.
Proof.
  intros Hne. unfold owns. simpl. by rewrite lookup_delete_ne.
Qed.

Lemma release_inv st l :
  state_inv st →
  state_inv (mkState (delete l (objects st)) (heap st) (free_pool st)).
Proof.
  intros [Hok Hall Hsep]. constructor.
  - by eapply alloc_ok_same.
  - intros l' Hl'. simpl in Hl'. destruct (decide (l' = l)) as [->|Hne].
    + rewrite lookup_delete_eq in Hl'. by destruct Hl'.
    + rewrite lookup_delete_ne in Hl' by done. destruct (Hall l' Hl') as (c & Hc).
      exists c. by apply owns_release.
  - intros l1 l2 c1 c2 Hne H1 H2.
    assert (l1 ≠ l).
    { intros ->. destruct H1 as (? & H1 & _). simpl in H1. by rewrite lookup_delete_eq in H1. }
    assert (l2 ≠ l).
    { intros ->. destruct H2 as (? & H2 & _). simpl in H2. by rewrite lookup_delete_eq in H2. }
    apply owns_release in H1; [|done]. apply owns_release in H2; [|done].
    by eapply (Hsep l1 l2).
Qed.

Lemma copy_inv st this other cells :
  state_inv st → objects st !! this = None → owns st other cells →
  (length cells ≤ length (free_pool st))%nat →
  ∃ st' cells', SingleLinkedList_copy Type_default this other st = Ret tt st'
         ∧ state_inv st'
         ∧ owns st' this cells' ∧ cells'.*2 = cells.*2
         ∧ frame_step st st' this [] cells'.
Proof.
  intros Hinv Hnone Hown Hlen.
  destruct (SingleLinkedList_copy_owns Type_default st this other cells
              (inv_alloc _ Hinv) Hnone Hown Hlen) as (st' & Hrun & Hp & Hstep).
  exists st', (zip (take (length cells) (free_pool st)) cells.*2).
  split; [done|]. split; [|split; [|split]].
  - eapply frame_step_inv; [done| |done]. by right.
  - by destruct Hstep as (_ & ? & _).
  - apply snd_zip. rewrite length_fmap, length_take. lia.
  - done.
Qed.

Lemma assign_inv st this rhs ct cr :
  state_inv st → owns st this ct → owns st rhs cr →
  (length cr ≤ length (free_pool st))%nat →
  ∃ st' cells', assign Type_default this rhs st = Ret tt st'
         ∧ state_inv st'
         ∧ owns st' this cells' ∧ cells'.*2 = cr.*2
         ∧ owns st' rhs (if decide (this = rhs) then cells' else cr)
         ∧ (∀ l c, l ≠ this → owns st l c → owns st' l c).
Proof.
  intros Hinv Ht Hr Hlen. unfold assign.
  destruct (decide (this = rhs)) as [<-|Hne].
  - rewrite bool_decide_eq_false_2 by (intros H; by apply H).
    exists st, ct. split; [done|]. split; [done|].
    rewrite (owns_det _ _ _ _ Hr Ht). done.
  - rewrite bool_decide_eq_true_2 by done.
    set (temp := fresh (dom (objects st))).
    assert (Htemp : objects st !! temp = None) by apply fresh_object_unused.
    assert (Htt : temp ≠ this).
    { intros Heq. destruct Ht as (? & Ho & _). rewrite <- Heq in Ho. by rewrite Htemp in Ho. }
    assert (Htr : temp ≠ rhs).
    { intros Heq. destruct Hr as (? & Ho & _). rewrite <- Heq in Ho. by rewrite Htemp in Ho. }
    destruct (copy_inv st temp rhs cr Hinv Htemp Hr Hlen)
      as (st1 & cn & Hrun1 & Hinv1 & Hown1 & Hvals & Hstep1).
    assert (Hkeep1 : ∀ l c, owns st l c → owns st1 l c).
    { intros l c Hl. eapply frame_step_other; [done| |done|].
      - intros ->. destruct Hl as (? & Ho & _). by rewrite Htemp in Ho.
      - intros a _. simpl. apply not_elem_of_nil. }
    destruct (Swap_inv st1 this temp ct cn Hinv1 (Hkeep1 _ _ Ht) Hown1)
      as (st2 & Hrun2 & Hinv2 & Hthis2 & Htemp2 & Hheap2 & Hpool2 & Hobj2).
    assert (Hkeep2 : ∀ l c, l ≠ this → owns st l c → owns st2 l c).
    { intros l c Hl Hc. eapply owns_frame; [by apply Hkeep1| |by rewrite Hheap2].
      apply Hobj2; [done|]. intros ->. destruct Hc as (? & Ho & _). by rewrite Htemp in Ho. }
    destruct (Clear_frame st2 temp ct (inv_alloc _ Hinv2) Htemp2) as (st3 & Hrun3 & Hstep3).
    pose proof (frame_step_inv _ _ _ _ _ Hinv2 (or_introl Htemp2) Hstep3) as Hinv3.
    assert (Hkeep3 : ∀ l c, l ≠ temp → owns st2 l c → owns st3 l c).
    { intros l c Hl Hc. eapply frame_step_other; [done|done|done|].
      by eapply (inv_sep _ Hinv2 l temp). }
    destruct Hstep3 as (_ & (hd3 & Ho3 & _) & _).
    exists (mkState (delete temp (objects st3)) (heap st3) (free_pool st3)), cn.
    split; [|split; [|split; [|split; [|split]]]].
    + eapply with_local_Ret; fold temp.
      * exact Hrun1.
      * exact Hrun2.
      * unfold SingleLinkedList_destroy. eapply bind_Ret_eq; [exact Hrun3|].
        by eapply release_members_run.
    + by apply release_inv.
    + apply owns_release; [done|]. by apply Hkeep3.
    + done.
    + apply owns_release; [done|]. apply Hkeep3; [done|]. by apply Hkeep2.
    + intros l c Hl Hc. apply owns_release.
      * intros ->. destruct Hc as (? & Ho & _). by rewrite Htemp in Ho.
      * apply Hkeep3; [|by apply Hkeep2].
        intros ->. destruct Hc as (? & Ho & _). by rewrite Htemp in Ho.
Qed.

End Assignment.

(** ** Every outcome of a mutator *)

Section MutationOutcomes.

Context {T : Type}.

Implicit Types (h : gmap positive (@Node T)) (p q r : ptr).
Implicit Types (cells : list (positive * T)) (st : @state T).

Lemma pos_ptr_end this cells : pos_ptr this cells (S (length cells)) = nullptr.
Proof. simpl. by rewrite lookup_ge_None_2. Qed.

Lemma load_pos st this cells k :
  owns st this cells → (k ≤ length cells)%nat →
  ∃ n, load (pos_ptr this cells k) st = Ret n st
       ∧ next_node n = pos_ptr this cells (S k)
       ∧ pos_ptr this cells k ≠ nullptr.
Proof.
  intros (hd & Ho & Hc) Hk. destruct k as [|k].
  - exists hd. split; [exact (load_head_run st this _ Ho)|]. split; [|done].
    destruct cells as [|c cells]; simpl in *; [done|]. by destruct Hc.
  - destruct (lookup_lt_is_Some_2 cells k) as [[b vb] Hb]; [lia|].
    pose proof (chain_lookup _ _ _ _ _ _ Hc Hb) as Hh.
    eexists. cbn [pos_ptr]. rewrite Hb. simpl. rewrite Hh. split; [done|]. split; [|done].
    simpl. by rewrite (first_ptr_drop cells (S k)).
Qed.

Lemma advance_beyond st this cells : ∀ k j,
  owns st this cells → (j ≤ S (length cells))%nat → (S (length cells) < j + k)%nat →
  advance k (Iter (pos_ptr this cells j)) st = Undefined.
Proof.
  induction k as [|k IH]; intros j Hown Hj Hjk; [lia|].
  cbn [advance]. destruct (decide (j = S (length cells))) as [->|Hne].
  - rewrite pos_ptr_end. reflexivity.
  - eapply bind_Ret_eq; [apply iter_incr_pos; [done|lia]|].
    apply IH; [done|lia|lia].
Qed.

Lemma advance_from_before_begin st this cells k :
  owns st this cells → (k ≤ S (length cells))%nat →
  advance k (before_begin this) st = Ret (Iter (pos_ptr this cells k)) st.
Proof. intros Hown Hk. by apply (advance_pos st this cells 0 k). Qed.

Lemma advance_beyond_end st this cells k :
  owns st this cells → (S (length cells) < k)%nat →
  advance k (before_begin this) st = Undefined.
Proof. intros Hown Hk. apply (advance_beyond st this cells k 0); [done|lia|lia]. Qed.

Lemma InsertAfter_throw st this cells k v :
  owns st this cells → (k ≤ length cells)%nat → free_pool st = [] →
  InsertAfter this (Iter (pos_ptr this cells k)) v st = Throw st.
Proof.
  intros Hown Hk Hp. destruct (load_pos st this cells k Hown Hk) as (n & Hload & _ & Hnn).
  unfold InsertAfter. unfold_monad. cbn [node_].
  rewrite bool_decide_eq_false_2 by done. simpl. rewrite Hload.
  unfold new_Node. by rewrite Hp.
Qed.

Lemma EraseAfter_last st this cells :
  owns st this cells →
  EraseAfter this (Iter (pos_ptr this cells (length cells))) st = Undefined.
Proof.
  intros Hown. destruct (load_pos st this cells (length cells) Hown) as (n & Hload & Hnext & Hnn);
    [done|].
  unfold EraseAfter. unfold_monad. cbn [node_].
  rewrite bool_decide_eq_false_2 by done. simpl. rewrite Hload.
  by rewrite Hnext, pos_ptr_end.
Qed.

Lemma store_value_owns st this cells k a old v :
  alloc_ok st → owns st this cells → cells !! k = Some (a, old) →
  ∃ st', store_value (node_at a) v st = Ret tt st'
         ∧ frame_step st st' this cells (<[k := (a, v)]> cells).
Proof.
  intros Hok (hd & Ho & Hc) Hk.
  pose proof (chain_lookup _ _ _ _ _ _ Hc Hk) as Ha.
  pose proof (chain_NoDup _ _ _ Hc) as Hnd.
  pose proof (lookup_lt_Some _ _ _ Hk) as Hlt.
  rewrite (insert_take_drop cells k (a, v)) by done.
  pose proof (take_drop_middle cells k (a, old) Hk) as Hsplit.
  set (c1 := take k cells) in *. set (c2 := drop (S k) cells) in *.
  rewrite <- Hsplit in Hc, Hnd.
  rewrite fmap_app, fmap_cons in Hnd. simpl in Hnd.
  apply NoDup_app in Hnd as (_ & Hsep & Hnd2). apply NoDup_cons in Hnd2 as (Ha2 & _).
  apply seg_app in Hc as (r & Hs1 & (-> & r' & Ha' & Hs2)). simpl in Ha'.
  rewrite Ha in Ha'. injection Ha' as <-.
  eexists. split; [unfold store_value; by rewrite Ha|]. simpl.
  split; [|split; [|split; [|split]]].
  - eapply alloc_ok_same; [done|done|]. intros x. simpl. rewrite lookup_insert_is_Some.
    destruct (decide (a = x)) as [->|]; [|naive_solver]. split; [by eexists|]. by left.
  - exists hd. simpl. split.
    + rewrite Ho. do 3 f_equal. rewrite <- Hsplit. rewrite !length_app. done.
    + apply seg_app. exists (node_at a). split.
      * eapply seg_frame; [done|]. intros x Hx. rewrite lookup_insert_ne; [done|].
        intros ->. apply (Hsep _ Hx). apply list_elem_of_here.
      * split; [done|]. eexists. simpl. rewrite lookup_insert_eq. split; [done|].
        eapply seg_frame; [done|]. intros x Hx. rewrite lookup_insert_ne; [done|].
        by intros ->.
  - done.
  - intros x Hx Hs. simpl. rewrite lookup_insert_ne; [done|]. intros ->. apply Hx.
    rewrite <- Hsplit, fmap_app, fmap_cons. apply elem_of_app. right. apply list_elem_of_here.
  - intros x Hx. left. rewrite <- Hsplit. by rewrite !fmap_app, !fmap_cons in *.
Qed.

(** What a single mutation can do: it completes and changes only the list
    it is applied to, or it throws and changes nothing, or its
    precondition was violated.  It never loops. *)
Lemma run_mutation_outcome st this m :
  state_inv st →
  match run_mutation this m st with
  | Ret _ st' => ∃ cells cells', owns st this cells ∧ frame_step st st' this cells cells'
  | Throw st' => st' = st
  | Undefined => True
  | OutOfFuel => False
  end.
Proof.
  intros Hinv. pose proof (inv_alloc _ Hinv) as Hok.
  destruct (objects st !! this) as [o|] eqn:Hlive.
  2:{ destruct m as [v| |k v|k| |k v]; cbn [run_mutation].
      - unfold PushFront, load. unfold_monad. by rewrite Hlive.
      - unfold PopFront, IsEmpty, get_size. unfold_monad. by rewrite Hlive.
      - destruct k; cbn [advance]; unfold InsertAfter, iter_incr, load; unfold_monad;
          simpl; by rewrite Hlive.
      - destruct k; cbn [advance]; unfold EraseAfter, iter_incr, load; unfold_monad;
          simpl; by rewrite Hlive.
      - unfold Clear, loop_fuel. unfold_monad. cbn [Clear_loop]. unfold load. unfold_monad.
        by rewrite Hlive.
      - unfold begin, cbegin, load. unfold_monad. by rewrite Hlive. }
  destruct (inv_owns _ Hinv this) as (cells & Hown); [by eexists|].
  destruct m as [v| |k v|k| |k v]; cbn [run_mutation].
  - destruct (free_pool st) as [|a pool] eqn:Hp.
    + unfold PushFront, load, new_Node. unfold_monad. by rewrite Hlive, Hp.
    + destruct (InsertAfter_head_owns st this cells a pool v Hok Hown Hp)
        as (st' & _ & -> & _ & Hstep). by exists cells, ((a, v) :: cells).
  - destruct cells as [|[a va] cells].
    + destruct Hown as (hd & Ho & _). unfold PopFront, IsEmpty, get_size.
      unfold_monad. rewrite Ho. done.
    + destruct (PopFront_owns st this a va cells Hok Hown) as (st' & -> & _ & _ & Hstep).
      by exists ((a, va) :: cells), cells.
  - destruct (decide (k ≤ length cells)%nat) as [Hk|Hk].
    + unfold_monad.
      rewrite (advance_from_before_begin st this cells k Hown) by lia. simpl.
      destruct (free_pool st) as [|a pool] eqn:Hp.
      * by rewrite (InsertAfter_throw st this cells k v Hown Hk Hp).
      * destruct (InsertAfter_at st this cells k a pool v Hok Hown Hk Hp)
          as (st' & -> & _ & Hstep). by eexists _, _.
    + unfold_monad. destruct (decide (k = S (length cells))) as [->|Hk'].
      * rewrite (advance_from_before_begin st this cells _ Hown) by lia. simpl.
        by rewrite lookup_ge_None_2.
      * rewrite (advance_beyond_end st this cells k Hown) by lia. done.
  - destruct (decide (k < length cells)%nat) as [Hk|Hk].
    + unfold_monad.
      rewrite (advance_from_before_begin st this cells k Hown) by lia. simpl.
      destruct (EraseAfter_at st this cells k Hok Hown Hk) as (st' & a & -> & _ & Hstep).
      by eexists _, _.
    + unfold_monad. destruct (decide (k ≤ S (length cells))%nat) as [Hk'|Hk'].
      * rewrite (advance_from_before_begin st this cells k Hown) by lia. simpl.
        destruct (decide (k = length cells)) as [->|Hk''].
        -- by rewrite (EraseAfter_last st this cells Hown).
        -- assert (k = S (length cells)) as -> by lia. simpl. by rewrite lookup_ge_None_2.
      * rewrite (advance_beyond_end st this cells k Hown) by lia. done.
  - destruct (Clear_frame st this cells Hok Hown) as (st' & -> & Hstep). by eexists _, _.
  - unfold_monad. rewrite (begin_owns st this cells Hown).
    change (Iter (first_ptr cells)) with (Iter (first_ptr (drop 0 cells))).
    rewrite (first_ptr_drop cells 0), (pos_ptr_S 1%positive this).
    destruct (decide (k ≤ length cells)%nat) as [Hk|Hk].
    + rewrite (advance_pos st this cells 1 k Hown) by lia. simpl.
      destruct (cells !! k) as [[a old]|] eqn:Hlk; simpl.
      * destruct (store_value_owns st this cells k a old v Hok Hown Hlk) as (st' & Hrun & Hstep).
        unfold iter_assign. unfold_monad. cbn [node_].
        rewrite bool_decide_eq_false_2 by done. cbn [negb]. unfold_monad.
        rewrite Hrun. by eexists _, _.
      * done.
    + rewrite (advance_beyond st this cells k 1 Hown) by lia. done.
Qed.

(** A sequence of mutations of one list leaves every other list as it was. *)
Lemma run_mutations_other this ms : ∀ st st' l c,
  state_inv st → l ≠ this → owns st l c →
  (run_mutations this ms st = Ret tt st' ∨ run_mutations this ms st = Throw st') →
  state_inv st' ∧ owns st' l c.
Proof.
  induction ms as [|m ms IH]; intros st st' l c Hinv Hne Hown Hrun.
  - simpl in Hrun. destruct Hrun as [[= <-]|?]; [done|done].
  - cbn [run_mutations] in Hrun. unfold mbind, M_bind in Hrun.
    pose proof (run_mutation_outcome st this m Hinv) as Hout.
    destruct (run_mutation this m st) as [[] st1|st1| |].
    + destruct Hout as (cells & cells' & Hthis & Hstep).
      eapply (IH st1); [|done| |done].
      * eapply frame_step_inv; [done|by left|done].
      * eapply frame_step_other; [done|done|done|]. by eapply (inv_sep _ Hinv l this).
    + subst st1. destruct Hrun as [?|[= <-]]; done.
    + by destruct Hrun.
    + done.
Qed.

End MutationOutcomes.

(** ** Constructors that run out of memory do not complete *)

Section Completion.

Context {T : Type}.
Variable Type_default : T.

Implicit Types (h : gmap positive (@Node T)) (p q r : ptr).
Implicit Types (cells : list (positive * T)) (st : @state T).

Lemma returns_Ret {A} (a : A) st : returns (Ret a st).
Proof. by exists a, st. Qed.

Lemma not_returns_Throw {A} st : ¬ returns (@Throw T A st).
Proof. by intros (a & s & ?). Qed.

Lemma not_returns_Undefined {A} : ¬ returns (@Undefined T A).
Proof. by intros (a & s & ?). Qed.

Lemma not_returns_bind {A B} (m : M A) (k : A → M B) st a st1 :
  m st = Ret a st1 → ¬ returns (k a st1) → ¬ returns ((m ≫= k) st).
Proof. intros Hm Hk. unfold_monad. by rewrite Hm. Qed.

Lemma not_returns_bind_fail {A B} (m : M A) (k : A → M B) st :
  ¬ returns (m st) → ¬ returns ((m ≫= k) st).
Proof.
  intros Hm. unfold_monad. destruct (m st) as [a s|s| |]; [|apply not_returns_Throw|..].
  - destruct Hm. apply returns_Ret.
  - apply not_returns_Undefined.
  - by intros (a & s & ?).
Qed.

Lemma not_returns_ctor_body {A} this (body : M A) st :
  ¬ returns (body st) → ¬ returns (ctor_body this body st).
Proof.
  intros Hb. unfold ctor_body. destruct (body st) as [a s|s| |]; [done| |done|done].
  destruct (release_members this s) as [? ?|?| |]; by intros (? & ? & ?).
Qed.

Lemma not_returns_with_local {A} (ctor : positive → M unit) (body : positive → M A)
    st st1 :
  ctor (fresh (dom (objects st))) st = Ret tt st1 →
  ¬ returns (body (fresh (dom (objects st))) st1) →
  ¬ returns (with_local ctor body st).
Proof.
  intros Hc Hb. unfold with_local. rewrite Hc.
  destruct (body _ st1) as [a s|s| |].
  - destruct Hb. apply returns_Ret.
  - destruct (SingleLinkedList_destroy _ s) as [? ?|?| |]; by intros (? & ? & ?).
  - apply not_returns_Undefined.
  - by intros (? & ? & ?).
Qed.

Lemma PushFront_each_short this vs : ∀ st cells,
  alloc_ok st → owns st this cells →
  (length (free_pool st) < length vs)%nat →
  ¬ returns (PushFront_each this vs st).
Proof.
  induction vs as [|v vs IH]; intros st cells Hok Hown Hlen; [simpl in Hlen; lia|].
  cbn [PushFront_each]. destruct (free_pool st) as [|a pool] eqn:Hp.
  - apply not_returns_bind_fail. destruct Hown as (hd & Ho & _).
    unfold PushFront, load, new_Node. unfold_monad. rewrite Ho. simpl. rewrite Hp.
    apply not_returns_Throw.
  - destruct (InsertAfter_head_owns st this cells a pool v Hok Hown Hp)
      as (st1 & _ & Hrun & Hp1 & (Hok1 & Hown1 & _)).
    eapply not_returns_bind; [exact Hrun|]. eapply IH; [done|done|].
    rewrite Hp1. simpl in Hlen. lia.
Qed.

Lemma copy_loop_node_short this todo : ∀ fuel st p b vb o,
  alloc_ok st → chain (heap st) p todo →
  heap st !! b = Some (mkNode vb nullptr) → b ∉ todo.*1 →
  objects st !! this = Some o →
  (length (free_pool st) < length todo)%nat →
  ¬ returns (copy_loop fuel this (Iter p) (Iter nullptr) (Iter (node_at b)) st).
Proof.
  induction todo as [|[a0 v0] todo IH];
    intros fuel st p b vb o Hok Hc Hb Hbnot Ho Hlen; [simpl in Hlen; lia|].
  destruct fuel as [|fuel]; [by intros (? & ? & ?)|].
  destruct Hc as (-> & r & Ha0 & Hs). simpl in Ha0.
  assert (Ha0b : a0 ≠ b) by (intros ->; apply Hbnot; apply list_elem_of_here).
  cbn [copy_loop]. unfold iter_ne. simpl.
  eapply not_returns_bind.
  { unfold iter_deref, load. unfold_monad. simpl. rewrite Ha0. reflexivity. }
  simpl. destruct (free_pool st) as [|a news] eqn:Hp.
  - apply not_returns_bind_fail.
    unfold InsertAfter, load, new_Node. unfold_monad. simpl. rewrite Hb. simpl. rewrite Hp.
    apply not_returns_Throw.
  - pose proof (pool_head_unused _ _ _ Hok Hp) as Hfresh.
    assert (Hab : a ≠ b) by (intros ->; by rewrite Hfresh in Hb).
    assert (Ha0a : a0 ≠ a) by (intros ->; by rewrite Hfresh in Ha0).
    set (st1 := mkState
      (<[this := mkList (head_ o) (size_t_wrap (size_ o + 1))]> (objects st))
      (<[b := mkNode vb (node_at a)]> (<[a := mkNode v0 nullptr]> (heap st))) news).
    assert (Hok1 : alloc_ok st1).
    { eapply alloc_ok_alloc; [done|done|done|]. intros x. simpl.
      rewrite !lookup_insert_is_Some.
      destruct (decide (a = x)), (decide (b = x)); subst; naive_solver. }
    eapply not_returns_bind.
    { by apply (InsertAfter_node_run st this o b (mkNode vb nullptr) a news v0). }
    simpl. fold st1. eapply not_returns_bind.
    { unfold iter_incr, load. unfold_monad. simpl.
      rewrite !lookup_insert_ne by done. rewrite Ha0. reflexivity. }
    simpl. eapply (IH fuel st1 r a v0).
    + done.
    + simpl. eapply seg_frame; [done|]. intros x Hx. rewrite !lookup_insert_ne; [done| |].
      * intros ->. eapply unused_not_in_chain in Hs; done.
      * intros ->. apply Hbnot. by apply list_elem_of_further.
    + simpl. rewrite lookup_insert_ne by done. by rewrite lookup_insert_eq.
    + by eapply unused_not_in_chain.
    + simpl. by rewrite lookup_insert_eq.
    + simpl. simpl in Hlen. lia.
Qed.

Lemma copy_loop_head_short this temp todo fuel st p ot o :
  this ≠ temp → alloc_ok st → chain (heap st) p todo →
  objects st !! temp = Some ot → next_node (head_ ot) = nullptr →
  objects st !! this = Some o →
  (length (free_pool st) < length todo)%nat →
  ¬ returns (copy_loop fuel this (Iter p) (Iter nullptr) (Iter (head_of temp)) st).
Proof.
  intros Hne Hok Hc Hot Hnull Ho Hlen.
  destruct todo as [|[a0 v0] todo]; [simpl in Hlen; lia|].
  destruct fuel as [|fuel]; [by intros (? & ? & ?)|].
  pose proof Hc as Hc0. destruct Hc as (-> & r & Ha0 & Hs). simpl in Ha0.
  cbn [copy_loop]. unfold iter_ne. simpl.
  eapply not_returns_bind.
  { unfold iter_deref, load. unfold_monad. simpl. rewrite Ha0. reflexivity. }
  simpl. destruct (free_pool st) as [|a news] eqn:Hp.
  - apply not_returns_bind_fail.
    unfold InsertAfter, load, new_Node. unfold_monad. simpl. rewrite Hot. simpl. rewrite Hp.
    apply not_returns_Throw.
  - pose proof (pool_head_unused _ _ _ Hok Hp) as Hfresh.
    pose proof (unused_not_in_chain _ _ _ _ _ Hc0 Hfresh) as Hanot.
    assert (Ha0a : a0 ≠ a) by (intros ->; by rewrite Hfresh in Ha0).
    set (st1 := mkState
      (<[this := mkList (head_ o) (size_t_wrap (size_ o + 1))]>
         (<[temp := mkList (mkNode (value (head_ ot)) (node_at a)) (size_ ot)]>
            (objects st)))
      (<[a := mkNode v0 nullptr]> (heap st)) news).
    assert (Hok1 : alloc_ok st1).
    { eapply alloc_ok_alloc; [done|done|done|]. intros x. simpl.
      rewrite !lookup_insert_is_Some. destruct (decide (a = x)); subst; naive_solver. }
    eapply not_returns_bind.
    { rewrite (InsertAfter_other_head_run st this temp o ot a news v0) by done.
      rewrite Hnull. reflexivity. }
    simpl. fold st1. eapply not_returns_bind.
    { unfold iter_incr, load. unfold_monad. simpl.
      rewrite !lookup_insert_ne by done. rewrite Ha0. reflexivity. }
    simpl. eapply (copy_loop_node_short this todo fuel st1 r a v0).
    + done.
    + simpl. eapply seg_frame; [done|]. intros x Hx. rewrite lookup_insert_ne; [done|].
      intros ->. apply Hanot. simpl. by apply list_elem_of_further.
    + simpl. by rewrite lookup_insert_eq.
    + intros Hin. apply Hanot. simpl. by apply list_elem_of_further.
    + simpl. by rewrite lookup_insert_eq.
    + simpl. simpl in Hlen. lia.
Qed.

End Completion.

(** ** Every completed public operation *)

Section OperationOutcomes.

Context {T : Type}.
Variable Type_default : T.

Implicit Types (h : gmap positive (@Node T)) (p q r : ptr).
Implicit Types (cells : list (positive * T)) (st : @state T).

Lemma Ret_returns {A} (o : @outcome T A) a st : o = Ret a st → returns o.
Proof. intros ->. apply returns_Ret. Qed.

Lemma default_outcome st this st' :
  state_inv st → SingleLinkedList_default Type_default this st = Ret tt st' →
  objects st !! this = None ∧ frame_step st st' this [] [].
Proof.
  intros Hinv Hrun. destruct (objects st !! this) as [o|] eqn:Hlive.
  - unfold SingleLinkedList_default, init_members in Hrun. by rewrite Hlive in Hrun.
  - split; [done|].
    destruct (init_members_frame Type_default st this (inv_alloc _ Hinv) Hlive)
      as (st0 & Hrun0 & _ & _ & _ & Hstep).
    unfold SingleLinkedList_default in Hrun. rewrite Hrun0 in Hrun. by injection Hrun as <-.
Qed.

Lemma init_outcome st this vs st' :
  state_inv st → SingleLinkedList_init Type_default this vs st = Ret tt st' →
  objects st !! this = None
  ∧ ∃ cells', frame_step st st' this [] cells' ∧ cells'.*2 = vs.
Proof.
  intros Hinv Hrun. pose proof (inv_alloc _ Hinv) as Hok.
  destruct (objects st !! this) as [o|] eqn:Hlive.
  { unfold SingleLinkedList_init, init_members in Hrun. unfold_monad in Hrun.
    by rewrite Hlive in Hrun. }
  split; [done|].
  destruct (decide (length vs ≤ length (free_pool st))%nat) as [Hlen|Hlen].
  - destruct (SingleLinkedList_init_owns Type_default st this vs Hok Hlive Hlen)
      as (st1 & Hrun1 & _ & Hstep).
    rewrite Hrun1 in Hrun. injection Hrun as <-. eexists. split; [done|].
    apply snd_zip. rewrite length_rev, length_take. lia.
  - exfalso. apply Ret_returns in Hrun. revert Hrun.
    destruct (init_members_frame Type_default st this Hok Hlive)
      as (st0 & Hrun0 & _ & _ & Hp0 & (Hok0 & Hown0 & _)).
    unfold SingleLinkedList_init. eapply not_returns_bind; [exact Hrun0|].
    apply not_returns_ctor_body. eapply PushFront_each_short; [done|done|].
    rewrite Hp0, length_rev. lia.
Qed.

(** Copying from storage that holds no list yet: the object under
    construction itself, or the cell the local [temp] is about to take.
    Both are empty lists by the time the body reads them. *)
Lemma copy_unborn_run st this other :
  objects st !! this = None → objects st !! other = None →
  (other = this
   ∨ other = fresh (dom (<[this := mkList (mkNode Type_default nullptr) 0]> (objects st)))) →
  SingleLinkedList_copy Type_default this other st =
    Ret tt (mkState (<[this := mkList (mkNode Type_default nullptr) 0]> (objects st))
              (heap st) (free_pool st)).
Proof.
  intros Hnone Hnone' Hwhich.
  set (L0 := mkList (mkNode Type_default nullptr) 0) in *.
  set (st0 := mkState (<[this := L0]> (objects st)) (heap st) (free_pool st)).
  set (temp := fresh (dom (objects st0))).
  assert (Htemp0 : objects st0 !! temp = None) by apply fresh_object_unused.
  assert (Hne : this ≠ temp).
  { intros Heq. rewrite <- Heq in Htemp0. simpl in Htemp0.
    by rewrite lookup_insert_eq in Htemp0. }
  set (st1 := mkState (<[temp := L0]> (objects st0)) (heap st) (free_pool st)).
  assert (Hother1 : objects st1 !! other = Some L0).
  { simpl. destruct Hwhich as [->| ->].
    - rewrite lookup_insert_ne by done. apply lookup_insert_eq.
    - apply lookup_insert_eq. }
  unfold SingleLinkedList_copy.
  eapply bind_Ret_eq.
  { unfold init_members. rewrite Hnone. fold L0. fold st0. reflexivity. }
  apply ctor_body_Ret.
  eapply bind_Ret_eq; [apply (get_size_run st0 this L0); apply lookup_insert_eq|].
  eapply bind_Ret_eq; [apply (load_head_run st0 this L0); apply lookup_insert_eq|].
  eapply bind_Ret_eq; [reflexivity|].
  eapply with_local_Ret.
  - unfold SingleLinkedList_default, init_members. fold temp. rewrite Htemp0.
    fold L0. fold st1. reflexivity.
  - fold temp.
    eapply bind_Ret_eq; [by apply (begin_run st1 other L0)|].
    eapply bind_Ret_eq; [reflexivity|].
    eapply bind_Ret_eq; [reflexivity|].
    eapply bind_Ret_eq; [by apply (get_size_run st1 other L0)|].
    eapply bind_Ret_eq; [apply (set_size_run st1 temp L0); apply lookup_insert_eq|].
    eapply Swap_run; [done| |].
    + simpl. rewrite !lookup_insert_ne by done. apply lookup_insert_eq.
    + simpl. apply lookup_insert_eq.
  - fold temp. unfold SingleLinkedList_destroy.
    eapply bind_Ret_eq.
    { eapply Clear_empty_run;
        [simpl; rewrite lookup_insert_ne by done; apply lookup_insert_eq|done]. }
    erewrite release_members_run; [|simpl; apply lookup_insert_eq].
    f_equal. simpl. f_equal. apply map_eq. intros i.
    destruct (decide (i = temp)) as [->|Hi].
    + rewrite lookup_delete_eq. rewrite lookup_insert_ne by done.
      simpl in Htemp0. rewrite lookup_insert_ne in Htemp0 by done. done.
    + rewrite lookup_delete_ne by done. rewrite lookup_insert_ne by done.
      destruct (decide (i = this)) as [->|Hj].
      * by rewrite !lookup_insert_eq.
      * by rewrite !lookup_insert_ne.
Qed.

Lemma copy_outcome st this other st' :
  state_inv st → SingleLinkedList_copy Type_default this other st = Ret tt st' →
  objects st !! this = None ∧ ∃ cells', frame_step st st' this [] cells'.
Proof.
  intros Hinv Hrun. pose proof (inv_alloc _ Hinv) as Hok.
  destruct (objects st !! this) as [o|] eqn:Hlive.
  { unfold SingleLinkedList_copy, init_members in Hrun. unfold_monad in Hrun.
    by rewrite Hlive in Hrun. }
  split; [done|].
  set (L0 := mkList (mkNode Type_default nullptr) 0).
  set (st0 := mkState (<[this := L0]> (objects st)) (heap st) (free_pool st)).
  set (temp := fresh (dom (objects st0))).
  assert (Htemp0 : objects st0 !! temp = None) by apply fresh_object_unused.
  assert (Htt : this ≠ temp).
  { intros Heq. rewrite <- Heq in Htemp0. simpl in Htemp0.
    by rewrite lookup_insert_eq in Htemp0. }
  set (st1 := mkState (<[temp := L0]> (objects st0)) (heap st) (free_pool st)).
  assert (Hprefix : ∀ k : positive → M unit,
    ¬ returns (k temp st1) →
    ¬ returns ((init_members Type_default this;;
       ctor_body this (
         n ← get_size this;
         hd ← load (head_of this);
         assert (bool_decide (n = 0) && bool_decide (next_node hd = nullptr));;
         with_local (SingleLinkedList_default Type_default) k)) st)).
  { intros k Hk. eapply not_returns_bind.
    { unfold init_members. rewrite Hlive. fold L0. fold st0. reflexivity. }
    apply not_returns_ctor_body.
    eapply not_returns_bind; [apply (get_size_run st0 this L0); apply lookup_insert_eq|].
    eapply not_returns_bind; [apply (load_head_run st0 this L0); apply lookup_insert_eq|].
    eapply not_returns_bind; [reflexivity|].
    eapply not_returns_with_local; [|exact Hk].
    unfold SingleLinkedList_default, init_members. fold temp. rewrite Htemp0.
    fold L0. fold st1. reflexivity. }
  destruct (objects st !! other) as [oo|] eqn:Hother.
  2:{ destruct (decide (other = this ∨ other = temp)) as [Hwhich|Hwhich].
      - rewrite copy_unborn_run in Hrun by done. injection Hrun as <-.
        exists [].
        destruct (init_members_frame Type_default st this Hok Hlive)
          as (st2 & Hrun2 & _ & _ & _ & Hstep).
        unfold init_members in Hrun2. rewrite Hlive in Hrun2. by injection Hrun2 as <-.
      - exfalso. apply Ret_returns in Hrun. revert Hrun. apply Hprefix.
        apply not_returns_bind_fail. unfold begin, cbegin, load. unfold_monad. simpl.
        rewrite !lookup_insert_ne by (intros ->; apply Hwhich; (by left) || (by right)).
        rewrite Hother. apply not_returns_Undefined. }
  destruct (inv_owns _ Hinv other) as (cells & Hown); [by eexists|].
  destruct (decide (length cells ≤ length (free_pool st))%nat) as [Hlen|Hlen].
  - destruct (SingleLinkedList_copy_owns Type_default st this other cells Hok Hlive Hown Hlen)
      as (st2 & Hrun2 & _ & Hstep).
    rewrite Hrun2 in Hrun. injection Hrun as <-. by eexists.
  - exfalso. apply Ret_returns in Hrun. revert Hrun. apply Hprefix.
    destruct Hown as (hdo & Ho & Hc).
    assert (Hot : other ≠ temp).
    { intros ->. simpl in Htemp0. rewrite lookup_insert_ne in Htemp0 by done.
      by rewrite Htemp0 in Ho. }
    assert (Hothis : other ≠ this).
    { intros ->. by rewrite Hlive in Ho. }
    eapply not_returns_bind.
    { apply (begin_run st1 other (mkList hdo (Z.of_nat (length cells)))).
      simpl. by rewrite !lookup_insert_ne. }
    eapply not_returns_bind; [reflexivity|].
    apply not_returns_bind_fail.
    eapply (copy_loop_head_short this temp cells _ st1 _ L0 L0).
    + done.
    + by eapply alloc_ok_same.
    + done.
    + apply lookup_insert_eq.
    + done.
    + simpl. rewrite lookup_insert_ne by done. apply lookup_insert_eq.
    + simpl. lia.
Qed.

Lemma Swap_outcome st this other st' :
  state_inv st → Swap this other st = Ret tt st' →
  state_inv st' ∧ ∃ ct co, owns st this ct ∧ owns st other co
                           ∧ owns st' this co ∧ owns st' other ct.
Proof.
  intros Hinv Hrun.
  destruct (objects st !! other) as [oo|] eqn:Ho.
  2:{ unfold Swap, load in Hrun. unfold_monad in Hrun. by rewrite Ho in Hrun. }
  destruct (objects st !! this) as [ot|] eqn:Ht.
  2:{ unfold Swap, load in Hrun. unfold_monad in Hrun. rewrite Ho in Hrun. simpl in Hrun.
      by rewrite Ht in Hrun. }
  destruct (inv_owns _ Hinv this) as (ct & Hct); [by eexists|].
  destruct (inv_owns _ Hinv other) as (co & Hco); [by eexists|].
  destruct (Swap_inv st this other ct co Hinv Hct Hco) as (st2 & Hrun2 & Hinv2 & H1 & H2 & _).
  rewrite Hrun2 in Hrun. injection Hrun as <-. split; [done|]. by exists ct, co.
Qed.

Lemma destroy_inv st this cells :
  state_inv st → owns st this cells →
  ∃ st', SingleLinkedList_destroy this st = Ret tt st' ∧ state_inv st'
         ∧ (∀ l c, l ≠ this → owns st l c → owns st' l c).
Proof.
  intros Hinv Hown.
  destruct (Clear_frame st this cells (inv_alloc _ Hinv) Hown) as (st1 & Hrun1 & Hstep).
  pose proof (frame_step_inv _ _ _ _ _ Hinv (or_introl Hown) Hstep) as Hinv1.
  pose proof Hstep as (_ & (hd & Ho & _) & _).
  eexists. split; [|split].
  - unfold SingleLinkedList_destroy. eapply bind_Ret_eq; [exact Hrun1|].
    by eapply release_members_run.
  - by apply release_inv.
  - intros l c Hl Hc. apply owns_release; [done|].
    eapply frame_step_other; [done|done|done|]. by eapply (inv_sep _ Hinv l this).
Qed.

Lemma assign_outcome st this rhs st' :
  state_inv st → assign Type_default this rhs st = Ret tt st' → state_inv st'.
Proof.
  intros Hinv Hrun. unfold assign in Hrun.
  destruct (decide (this = rhs)) as [<-|Hne].
  - rewrite bool_decide_eq_false_2 in Hrun by (intros H; by apply H).
    by injection Hrun as <-.
  - rewrite bool_decide_eq_true_2 in Hrun by done.
    set (temp := fresh (dom (objects st))) in *.
    assert (Htemp : objects st !! temp = None) by apply fresh_object_unused.
    unfold with_local in Hrun. fold temp in Hrun.
    destruct (SingleLinkedList_copy Type_default temp rhs st) as [[] st1|?| |] eqn:Hcopy;
      [|done..].
    destruct (copy_outcome st temp rhs st1 Hinv Hcopy) as (_ & cn & Hstep1).
    pose proof (frame_step_inv _ _ _ _ _ Hinv (or_intror (conj Htemp eq_refl)) Hstep1) as Hinv1.
    destruct (Swap this temp st1) as [[] st2|s| |] eqn:Hswap; [| |done|done].
    2:{ by destruct (SingleLinkedList_destroy temp s). }
    destruct (Swap_outcome st1 this temp st2 Hinv1 Hswap)
      as (Hinv2 & ct & co & _ & _ & _ & Htemp2).
    destruct (destroy_inv st2 temp ct Hinv2 Htemp2) as (st3 & Hrun3 & Hinv3 & _).
    rewrite Hrun3 in Hrun. by injection Hrun as <-.
Qed.

(** The invariant of the state survives every public operation that
    completes. *)
Lemma run_op_inv st this op st' :
  state_inv st → run_op Type_default this op st = Ret tt st' → state_inv st'.
Proof.
  intros Hinv Hrun. destruct op as [|vs|other|m|other|rhs]; cbn [run_op] in Hrun.
  - destruct (default_outcome st this st' Hinv Hrun) as (Hnone & Hstep).
    eapply frame_step_inv; [done|by right|done].
  - destruct (init_outcome st this vs st' Hinv Hrun) as (Hnone & c & Hstep & _).
    eapply frame_step_inv; [done|by right|done].
  - destruct (copy_outcome st this other st' Hinv Hrun) as (Hnone & c & Hstep).
    eapply frame_step_inv; [done|by right|done].
  - pose proof (run_mutation_outcome st this m Hinv) as Hout. rewrite Hrun in Hout.
    destruct Hout as (c & c' & Hown & Hstep).
    eapply frame_step_inv; [done|by left|done].
  - by destruct (Swap_outcome st this other st' Hinv Hrun).
  - by eapply assign_outcome.
Qed.

End OperationOutcomes.

(** ** The concrete states are well formed *)

Lemma state_inv_fresh {T : Type} (pool : list positive) :
  NoDup pool → Forall (λ a, Z.pos a < size_t_modulus) pool →
  state_inv (@mkState T ∅ ∅ pool).
Proof.
  intros Hnd Hb. constructor.
  - constructor; simpl.
    + done.
    + intros a _. apply lookup_empty.
    + intros a Ha. by eapply Forall_forall in Hb.
    + intros a [n Hn]. by rewrite lookup_empty in Hn.
  - intros l [o Ho]. simpl in Ho. by rewrite lookup_empty in Ho.
  - intros l1 l2 c1 c2 _ (hd & Ho & _). simpl in Ho. by rewrite lookup_empty in Ho.
Qed.

Lemma ex_empty_inv : state_inv ex_empty.
Proof.
  apply state_inv_fresh.
  - compute_done.
  - compute_done.
Qed.

Lemma ex_one_inv : state_inv ex_one.
Proof.
  apply (run_op_inv 0 ex_empty 1%positive (OpInit [1; 2; 3]) ex_one ex_empty_inv).
  by vm_compute.
Qed.

Lemma ex_one_owns : owns ex_one 1%positive ex_cells_A.
Proof.
  eexists. split; [reflexivity|]. unfold chain. simpl. repeat (split || eexists).
Qed.

Lemma ex_full_inv : state_inv ex_full.
Proof.
  apply (run_op_inv 0 (mkState ∅ ∅ [10; 11; 12]%positive) 1%positive (OpInit [1; 2; 3])).
  - apply state_inv_fresh; compute_done.
  - by vm_compute.
Qed.

Lemma ex_full_owns : owns ex_full 1%positive ex_cells_A.
Proof.
  eexists. split; [reflexivity|]. unfold chain. simpl. repeat (split || eexists).
Qed.

Lemma ex_two_inv : state_inv ex_two.
Proof.
  apply (run_op_inv 0 ex_one 2%positive (OpInit [1; 2; 3; 4]) ex_two ex_one_inv).
  by vm_compute.
Qed.

Lemma ex_two_owns_A : owns ex_two 1%positive ex_cells_A.
Proof.
  eexists. split; [reflexivity|]. unfold chain. simpl. repeat (split || eexists).
Qed.

Lemma ex_two_owns_B : owns ex_two 2%positive ex_cells_B.
Proof.
  eexists. split; [reflexivity|]. unfold chain. simpl. repeat (split || eexists).
Qed.

(** * The claims *)

Lemma seq_equal_refl {T : Type} (eq : T → T → bool) (l : list T) :
  (∀ x, eq x x = true) → seq_equal eq l l = true.
Proof. intros Hrefl. induction l as [|x l IH]; simpl; [done|]. by rewrite Hrefl. Qed.

Lemma owns_nil_observers {T : Type} (st : @state T) this hd :
  objects st !! this = Some (mkList hd 0) → next_node hd = nullptr → owns st this [].
Proof. intros Ho Hnull. by exists hd. Qed.

(** Every node of the chain [Clear] runs over is deleted, and no node
    comes into being. *)
Lemma Clear_loop_frees {T : Type} this n (cs : list (positive * T)) :
  ∀ fuel (s : @state T) hd0 s1,
    objects s !! this = Some (mkList hd0 n) → chain (heap s) (next_node hd0) cs →
    Clear_loop fuel this s = Ret tt s1 →
    (∀ a, a ∈ cs.*1 → heap s1 !! a = None)
    ∧ ∀ a, heap s !! a = None → heap s1 !! a = None.
Proof.
  induction cs as [|[a0 v0] cs IH]; intros fuel s hd0 s1 Hs Hcs Hrun.
  - destruct fuel as [|fuel]; [done|]. unfold chain in Hcs. simpl in Hcs.
    revert Hrun. cbn [Clear_loop]. unfold load. unfold_monad. rewrite Hs. simpl.
    rewrite Hcs. simpl. intros [= <-]. split; [|done].
    intros a Ha. simpl in Ha. by apply elem_of_nil in Ha.
  - destruct fuel as [|fuel]; [done|].
    pose proof (chain_NoDup _ _ _ Hcs) as Hnd0. simpl in Hnd0.
    apply NoDup_cons in Hnd0 as (Hnotin & _).
    destruct Hcs as (Hnext & r & Ha0 & Hrest). simpl in Hnext, Ha0.
    revert Hrun. cbn [Clear_loop]. unfold load, delete_Node, store_next.
    unfold_monad. simpl.
    repeat (first [rewrite Hs | rewrite Ha0 | rewrite Hnext]; simpl). intros Hrun.
    eapply IH in Hrun as (Hgone & Hkeep).
    + split.
      * intros a Ha. simpl in Ha. apply elem_of_cons in Ha as [->|Ha]; [|by apply Hgone].
        apply Hkeep. simpl. apply lookup_delete_eq.
      * intros a Ha. apply Hkeep. simpl. destruct (decide (a = a0)) as [->|Hne].
        -- apply lookup_delete_eq.
        -- by rewrite lookup_delete_ne.
    + simpl. apply lookup_insert_eq.
    + simpl. eapply seg_frame; [done|]. intros x Hx. rewrite lookup_delete_ne; [done|].
      by intros ->.
Qed.

(** C9: a default-constructed iterator holds no node.  It is equal to
    [end()] and [cend()] of every list and different from every
    before-begin iterator; when the list is not empty it is also different
    from [begin()] and [cbegin()]. *)
Theorem C9_default_iterator {T : Type} (st : @state T) this cells :
  owns st this cells → cells ≠ [] →
  node_ BasicIterator_default = nullptr
  ∧ (∀ l, iter_eq BasicIterator_default (end_ l) = true
          ∧ iter_ne BasicIterator_default (end_ l) = false
          ∧ iter_eq BasicIterator_default (cend l) = true
          ∧ iter_eq (end_ l) BasicIterator_default = true
          ∧ iter_eq BasicIterator_default (before_begin l) = false
          ∧ iter_ne BasicIterator_default (before_begin l) = true
          ∧ iter_eq BasicIterator_default (cbefore_begin l) = false
          ∧ iter_eq (before_begin l) BasicIterator_default = false)
  ∧ IsEmpty this st = Ret false st
  ∧ ∃ b, begin this st = Ret b st
         ∧ cbegin this st = Ret b st
         ∧ iter_eq BasicIterator_default b = false
         ∧ iter_ne BasicIterator_default b = true
         ∧ iter_eq b BasicIterator_default = false.
Proof.
  intros Hown Hne. split; [done|]. split; [done|].
  split; [by rewrite (IsEmpty_owns _ _ _ Hown), bool_decide_eq_false_2|].
  exists (Iter (first_ptr cells)). pose proof (begin_owns st this cells Hown) as Hb.
  split; [done|]. split; [done|]. destruct cells as [|c cells]; done.
Qed.

Lemma C9_default_iterator_witness :
  owns ex_one 1%positive ex_cells_A
  ∧ begin 1%positive ex_one = Ret (Iter (node_at 12)) ex_one
  ∧ iter_eq BasicIterator_default (Iter (node_at 12)) = false
  ∧ iter_eq BasicIterator_default (end_ 1%positive) = true.
Proof.
  split; [exact ex_one_owns|].
  destruct (C9_default_iterator ex_one 1%positive ex_cells_A ex_one_owns ltac:(discriminate))
    as (_ & Hall & _ & b & Hb & _ & Hneq & _).
  split; [reflexivity|]. split; [reflexivity|]. exact (proj1 (Hall 1%positive)).
Defined.

(** C6: [InsertAfter(before_begin(), v)] and [PushFront(v)] have the same
    outcome in every state, whether they return, throw or are applied to
    no list at all.  On a well-formed list with memory available both
    return the state in which [v] is the first element, the old elements
    follow and the size is one more. *)
Theorem C6_insert_after_before_begin_is_push_front {T : Type} (st : @state T) this v :
  (InsertAfter this (before_begin this) v;; mret tt) st = PushFront this v st
  ∧ ∀ cells, alloc_ok st → owns st this cells → free_pool st ≠ [] →
    ∃ st' a, free_pool st = a :: free_pool st'
      ∧ PushFront this v st = Ret tt st'
      ∧ InsertAfter this (before_begin this) v st = Ret (Iter (node_at a)) st'
      ∧ contents this st' = Ret (v :: cells.*2) st'
      ∧ GetSize this st' = Ret (Z.of_nat (length cells) + 1) st'
      ∧ begin this st' = Ret (Iter (node_at a)) st'.
Proof.
  split.
  - unfold before_begin. destruct (objects st !! this) as [o|] eqn:Ho.
    + destruct (free_pool st) as [|a pool] eqn:Hp.
      * unfold InsertAfter, PushFront, load, new_Node. unfold_monad. simpl.
        by rewrite Ho, Hp.
      * unfold_monad. rewrite (InsertAfter_head_run st this o a pool v Ho Hp).
        by rewrite (PushFront_run st this o a pool v Ho Hp).
    + unfold InsertAfter, PushFront, load. unfold_monad. simpl. by rewrite Ho.
  - intros cells Hok Hown Hpool. destruct (free_pool st) as [|a pool] eqn:Hp; [done|].
    destruct (InsertAfter_head_owns st this cells a pool v Hok Hown Hp)
      as (st' & Hins & Hpush & Hp' & (_ & Hown' & _)).
    exists st', a. split; [by rewrite Hp'|]. split; [done|]. split; [done|].
    split; [by rewrite (contents_owns _ _ _ Hown')|].
    split.
    + rewrite (GetSize_owns _ _ _ Hown'). do 2 f_equal. simpl length. lia.
    + by rewrite (begin_owns _ _ _ Hown').
Qed.

Lemma C6_insert_after_before_begin_is_push_front_witness :
  alloc_ok ex_one ∧ owns ex_one 1%positive ex_cells_A ∧ free_pool ex_one ≠ []
  ∧ (InsertAfter 1%positive (before_begin 1%positive) 9;; mret tt) ex_one
    = PushFront 1%positive 9 ex_one
  ∧ ∃ st', PushFront 1%positive 9 ex_one = Ret tt st'
           ∧ contents 1%positive st' = Ret [9; 1; 2; 3] st'.
Proof.
  split; [exact (inv_alloc _ ex_one_inv)|]. split; [exact ex_one_owns|].
  split; [discriminate|].
  destruct (C6_insert_after_before_begin_is_push_front ex_one 1%positive 9) as (Heq & Hwf).
  destruct (Hwf ex_cells_A (inv_alloc _ ex_one_inv) ex_one_owns ltac:(discriminate))
    as (st' & a & _ & Hpush & _ & Hcont & _).
  split; [exact Heq|]. exists st'. split; [exact Hpush|exact Hcont].
Defined.

(** C7: when the one allocation of [PushFront] or [InsertAfter] fails, the
    exception propagates and the state is the one before the call; when
    it succeeds the value is inserted (at the front, or right after the
    position) and the size grows by one. *)
Theorem C7_allocation_failure_leaves_list_unchanged {T : Type} (st : @state T) this cells k v :
  alloc_ok st → owns st this cells → (k ≤ length cells)%nat →
  advance k (before_begin this) st = Ret (Iter (pos_ptr this cells k)) st
  ∧ (free_pool st = [] →
       PushFront this v st = Throw st
       ∧ InsertAfter this (Iter (pos_ptr this cells k)) v st = Throw st)
  ∧ (∀ a pool, free_pool st = a :: pool →
       ∃ st1 st2,
         PushFront this v st = Ret tt st1
         ∧ contents this st1 = Ret (v :: cells.*2) st1
         ∧ GetSize this st1 = Ret (Z.of_nat (length cells) + 1) st1
         ∧ InsertAfter this (Iter (pos_ptr this cells k)) v st = Ret (Iter (node_at a)) st2
         ∧ contents this st2 = Ret (take k cells.*2 ++ v :: drop k cells.*2) st2
         ∧ GetSize this st2 = Ret (Z.of_nat (length cells) + 1) st2).
Proof.
  intros Hok Hown Hk. split; [|split].
  - apply advance_from_before_begin; [done|lia].
  - intros Hp. split.
    + destruct Hown as (hd & Ho & _).
      unfold PushFront, load, new_Node. unfold_monad. rewrite Ho. simpl. by rewrite Hp.
    + by apply (InsertAfter_throw st this cells k v).
  - intros a pool Hp.
    destruct (InsertAfter_head_owns st this cells a pool v Hok Hown Hp)
      as (st1 & _ & Hpush & _ & (_ & Hown1 & _)).
    destruct (InsertAfter_at st this cells k a pool v Hok Hown Hk Hp)
      as (st2 & Hins & _ & (_ & Hown2 & _)).
    exists st1, st2. split; [done|].
    split; [by rewrite (contents_owns _ _ _ Hown1)|].
    split; [rewrite (GetSize_owns _ _ _ Hown1); do 2 f_equal; simpl length; lia|].
    split; [done|]. split.
    + rewrite (contents_owns _ _ _ Hown2). by rewrite fmap_app, fmap_cons, fmap_take, fmap_drop.
    + rewrite (GetSize_owns _ _ _ Hown2). do 2 f_equal.
      rewrite length_app, length_take. simpl length. rewrite length_drop. lia.
Qed.

Lemma C7_allocation_failure_leaves_list_unchanged_witness :
  alloc_ok ex_full ∧ owns ex_full 1%positive ex_cells_A
  ∧ free_pool ex_full = []
  ∧ PushFront 1%positive 9 ex_full = Throw ex_full
  ∧ InsertAfter 1%positive (Iter (node_at 11)) 9 ex_full = Throw ex_full
  ∧ ∃ st2, InsertAfter 1%positive (Iter (node_at 11)) 9 ex_one = Ret (Iter (node_at 13)) st2
           ∧ contents 1%positive st2 = Ret [1; 2; 9; 3] st2.
Proof.
  split; [exact (inv_alloc _ ex_full_inv)|]. split; [exact ex_full_owns|].
  split; [reflexivity|].
  destruct (C7_allocation_failure_leaves_list_unchanged ex_full 1%positive ex_cells_A 2 9
              (inv_alloc _ ex_full_inv) ex_full_owns ltac:(simpl; lia))
    as (_ & Hfail & _).
  destruct (Hfail eq_refl) as (Hpush & Hins).
  split; [exact Hpush|]. split; [exact Hins|].
  destruct (C7_allocation_failure_leaves_list_unchanged ex_one 1%positive ex_cells_A 2 9
              (inv_alloc _ ex_one_inv) ex_one_owns ltac:(simpl; lia))
    as (_ & _ & Hsucc).
  destruct (Hsucc _ _ eq_refl) as (st1 & st2 & _ & _ & _ & Hins2 & Hcont2 & _).
  exists st2. split; [exact Hins2|exact Hcont2].
Defined.

(** C10: on a non-empty list [EraseAfter(before_begin())] and [PopFront()]
    have the same outcome: the first element is removed, the size is one
    less, and the iterator [EraseAfter] returns is [begin()] of the
    result, which is [end()] when the list had one element. *)
Theorem C10_erase_after_before_begin_is_pop_front {T : Type} (st : @state T) this c cells :
  alloc_ok st → owns st this (c :: cells) →
  (EraseAfter this (before_begin this);; mret tt) st = PopFront this st
  ∧ ∃ st' it,
      PopFront this st = Ret tt st'
      ∧ EraseAfter this (before_begin this) st = Ret it st'
      ∧ contents this st' = Ret cells.*2 st'
      ∧ GetSize this st' = Ret (Z.of_nat (length (c :: cells)) - 1) st'
      ∧ begin this st' = Ret it st'
      ∧ (cells = [] → iter_eq it (end_ this) = true)
      ∧ (∀ c' rest, cells = c' :: rest → it = Iter (node_at c'.1)).
Proof.
  intros Hok Hown. destruct c as [a va].
  destruct (PopFront_owns st this a va cells Hok Hown)
    as (st' & Hpop & Herase & _ & (_ & Hown' & _)).
  split.
  - unfold before_begin. unfold_monad. by rewrite Herase, Hpop.
  - exists st', (Iter (first_ptr cells)). split; [done|]. split; [done|].
    split; [by rewrite (contents_owns _ _ _ Hown')|].
    split; [rewrite (GetSize_owns _ _ _ Hown'); do 2 f_equal; simpl length; lia|].
    split; [by rewrite (begin_owns _ _ _ Hown')|].
    split; [by intros ->|]. by intros c' rest ->.
Qed.

Lemma C10_erase_after_before_begin_is_pop_front_witness :
  alloc_ok ex_one ∧ owns ex_one 1%positive ex_cells_A
  ∧ ∃ st', PopFront 1%positive ex_one = Ret tt st'
           ∧ EraseAfter 1%positive (before_begin 1%positive) ex_one = Ret (Iter (node_at 11)) st'
           ∧ contents 1%positive st' = Ret [2; 3] st'
           ∧ GetSize 1%positive st' = Ret 2 st'.
Proof.
  split; [exact (inv_alloc _ ex_one_inv)|]. split; [exact ex_one_owns|].
  destruct (C10_erase_after_before_begin_is_pop_front ex_one 1%positive
              (12%positive, 1) [(11%positive, 2); (10%positive, 3)]
              (inv_alloc _ ex_one_inv) ex_one_owns)
    as (_ & st' & it & Hpop & Herase & Hcont & Hsize & _ & _ & Hit).
  exists st'. rewrite (Hit _ _ eq_refl) in Herase.
  split; [exact Hpop|]. split; [exact Herase|]. split; [exact Hcont|exact Hsize].
Defined.

(** C8: [Clear] on a list in any state (any chain that ends, any stored
    size) returns; afterwards the list is empty: [IsEmpty()] is true,
    [GetSize()] is 0, no node is reachable from the sentinel and
    [begin()] is [end()]. *)
Theorem C8_clear_empties_list {T : Type} (st : @state T) this hd n cells :
  objects st !! this = Some (mkList hd n) →
  chain (heap st) (next_node hd) cells →
  ∃ st', Clear this st = Ret tt st'
         ∧ IsEmpty this st' = Ret true st'
         ∧ GetSize this st' = Ret 0 st'
         ∧ reachable_nodes st' this = Some []
         ∧ contents this st' = Ret [] st'
         ∧ begin this st' = Ret (end_ this) st'
         ∧ (∀ a, a ∈ cells.*1 → heap st' !! a = None).
Proof.
  intros Ho Hc.
  pose proof (chain_NoDup _ _ _ Hc) as Hnd.
  destruct (Clear_chain st this hd n cells Ho Hc) as (st' & Hrun & Hobj & Hheap & _).
  assert (Hown' : owns st' this []).
  { eapply owns_nil_observers; [by rewrite Hobj, lookup_insert_eq|done]. }
  exists st'. split; [done|].
  split; [by rewrite (IsEmpty_owns _ _ _ Hown')|].
  split; [by rewrite (GetSize_owns _ _ _ Hown')|].
  split.
  { destruct (size_invariant_owns _ _ _ Hown') as (o & c & Ho' & Hr & Hlen).
    rewrite Hr. f_equal. destruct Hown' as (hd' & Ho'' & _). rewrite Ho' in Ho''.
    injection Ho'' as ->. simpl in Hlen. by destruct c. }
  split; [by rewrite (contents_owns _ _ _ Hown')|].
  split; [by rewrite (begin_owns _ _ _ Hown')|].
  revert Hrun. unfold Clear, loop_fuel. unfold_monad.
  destruct (Clear_loop (S (size (heap st))) this st) as [[] s1|?| |] eqn:Hl; try done.
  unfold set_size. destruct (objects s1 !! this); [|done]. intros [= <-]. simpl.
  by apply (Clear_loop_frees this n cells _ st hd s1 Ho Hc Hl).
Qed.

Lemma C8_clear_empties_list_witness :
  ∃ st', Clear 1%positive ex_one = Ret tt st'
         ∧ IsEmpty 1%positive st' = Ret true st'
         ∧ GetSize 1%positive st' = Ret 0 st'
         ∧ reachable_nodes st' 1%positive = Some [].
Proof.
  destruct (C8_clear_empties_list ex_one 1%positive (mkNode 0 (node_at 12)) 3 ex_cells_A
              eq_refl)
    as (st' & Hrun & Hempty & Hsize & Hreach & _).
  { unfold chain. simpl. repeat (split || eexists). }
  exists st'. split; [exact Hrun|]. split; [exact Hempty|]. split; [exact Hsize|exact Hreach].
Defined.


(** C4: constructing a list from the sequence [v1, ..., vn] (with memory
    for [n] nodes) returns a list whose traversal yields [v1, ..., vn] in
    that order and whose size is [n].  The values are front-inserted from
    the last toward the first: the nodes, front to back, hold the first
    [n] addresses of the allocator in reverse order of allocation. *)
Theorem C4_initializer_list_preserves_order {T : Type} (Type_default : T)
    (st : @state T) this (values : list T) :
  alloc_ok st → objects st !! this = None →
  (length values ≤ length (free_pool st))%nat →
  ∃ st', SingleLinkedList_init Type_default this values st = Ret tt st'
      ∧ contents this st' = Ret values st'
      ∧ GetSize this st' = Ret (Z.of_nat (length values)) st'
      ∧ owns st' this (zip (rev (take (length values) (free_pool st))) values)
      ∧ free_pool st' = drop (length values) (free_pool st).
Proof.
  intros Hok Hnone Hlen.
  destruct (SingleLinkedList_init_owns Type_default st this values Hok Hnone Hlen)
    as (st' & Hrun & Hp & (_ & Hown & _)).
  assert (Hl : length (rev (take (length values) (free_pool st))) = length values).
  { rewrite length_rev, length_take. lia. }
  exists st'. split; [done|]. split; [|split; [|done]].
  - rewrite (contents_owns _ _ _ Hown). f_equal. apply snd_zip. lia.
  - rewrite (GetSize_owns _ _ _ Hown). do 2 f_equal. rewrite length_zip_with. lia.
Qed.

Lemma C4_initializer_list_preserves_order_witness :
  alloc_ok ex_empty ∧ objects ex_empty !! 1%positive = None
  ∧ SingleLinkedList_init 0 1%positive [1; 2; 3] ex_empty = Ret tt ex_one
  ∧ contents 1%positive ex_one = Ret [1; 2; 3] ex_one
  ∧ GetSize 1%positive ex_one = Ret 3 ex_one.
Proof.
  split; [exact (inv_alloc _ ex_empty_inv)|]. split; [reflexivity|].
  destruct (C4_initializer_list_preserves_order 0 ex_empty 1%positive [1; 2; 3]
              (inv_alloc _ ex_empty_inv) eq_refl ltac:(simpl; lia))
    as (st' & Hrun & Hcont & Hsize & _).
  assert (Hst : st' = ex_one).
  { assert (Hc : SingleLinkedList_init 0 1%positive [1; 2; 3] ex_empty = Ret tt ex_one)
      by (vm_compute; reflexivity).
    rewrite Hc in Hrun. by injection Hrun. }
  subst st'. split; [exact Hrun|]. split; [exact Hcont|exact Hsize].
Defined.

(** C2: [operator==] on two lists returns true exactly when they have the
    same size and their elements, taken in traversal order, are pairwise
    equal under the element type's [==]; [operator!=] returns the
    negation. *)
Theorem C2_equality_operator {T : Type} (eq : T → T → bool)
    (st : @state T) lhs rhs c1 c2 :
  owns st lhs c1 → owns st rhs c2 →
  ∃ b n1 n2 l1 l2,
    op_eq eq lhs rhs st = Ret b st
    ∧ op_ne eq lhs rhs st = Ret (negb b) st
    ∧ GetSize lhs st = Ret n1 st ∧ GetSize rhs st = Ret n2 st
    ∧ contents lhs st = Ret l1 st ∧ contents rhs st = Ret l2 st
    ∧ (b = true ↔ n1 = n2 ∧ Forall2 (λ x y, eq x y = true) l1 l2).
Proof.
  intros H1 H2.
  exists (seq_equal eq c1.*2 c2.*2), (Z.of_nat (length c1)), (Z.of_nat (length c2)),
    c1.*2, c2.*2.
  pose proof (op_eq_owns eq st lhs rhs c1 c2 H1 H2) as Heq.
  split; [done|]. split; [unfold op_ne; unfold_monad; by rewrite Heq|].
  split; [by apply GetSize_owns|]. split; [by apply GetSize_owns|].
  split; [by apply contents_owns|]. split; [by apply contents_owns|].
  rewrite seq_equal_spec, !length_fmap. split; intros [Hlen HF]; (split; [lia|done]).
Qed.

Lemma C2_equality_operator_witness :
  owns ex_two 1%positive ex_cells_A ∧ owns ex_two 2%positive ex_cells_B
  ∧ op_eq Z.eqb 1%positive 2%positive ex_two = Ret false ex_two
  ∧ op_ne Z.eqb 1%positive 2%positive ex_two = Ret true ex_two
  ∧ op_eq Z.eqb 1%positive 1%positive ex_two = Ret true ex_two.
Proof.
  split; [exact ex_two_owns_A|]. split; [exact ex_two_owns_B|].
  destruct (C2_equality_operator Z.eqb ex_two 1%positive 2%positive ex_cells_A ex_cells_B
              ex_two_owns_A ex_two_owns_B)
    as (b & n1 & n2 & l1 & l2 & Heq & Hne & Hn1 & Hn2 & _ & _ & Hiff).
  assert (Hb : b = false).
  { destruct b; [|done]. destruct (proj1 Hiff eq_refl) as [Hn _].
    assert (Hg1 : GetSize 1%positive ex_two = Ret 3 ex_two) by reflexivity.
    assert (Hg2 : GetSize 2%positive ex_two = Ret 4 ex_two) by reflexivity.
    rewrite Hg1 in Hn1. rewrite Hg2 in Hn2.
    injection Hn1 as <-. injection Hn2 as <-. discriminate Hn. }
  subst b. split; [exact Heq|]. split; [exact Hne|].
  destruct (C2_equality_operator Z.eqb ex_two 1%positive 1%positive ex_cells_A ex_cells_A
              ex_two_owns_A ex_two_owns_A)
    as (b & n1' & n2' & l1' & l2' & Heq' & _ & Hn1' & Hn2' & Hl1' & Hl2' & Hiff').
  assert (Hb : b = true).
  { apply Hiff'. rewrite Hn1' in Hn2'. injection Hn2' as ->. split; [done|].
    rewrite Hl1' in Hl2'. injection Hl2' as <-.
    assert (Hc : contents 1%positive ex_two = Ret [1; 2; 3] ex_two) by reflexivity.
    rewrite Hc in Hl1'. injection Hl1' as <-.
    repeat constructor. }
  by subst b.
Defined.

(** C3: over a totally ordered element type, [operator<] on two lists is
    the lexicographic comparison of their element sequences, so a strict
    prefix is less; exactly one of [A < B], [A == B], [B < A] is true; and
    [A > B] is [B < A], [A <= B] is the negation of [B < A], [A >= B] is
    the negation of [A < B]. *)
Theorem C3_lexicographic_ordering {T : Type} (eq lt : T → T → bool)
    (st : @state T) lhs rhs c1 c2 :
  (∀ x y, eq x y = true ↔ x = y) →
  (∀ x, lt x x = false) →
  (∀ x y z, lt x y = true → lt y z = true → lt x z = true) →
  (∀ x y, lt x y = true ∨ x = y ∨ lt y x = true) →
  owns st lhs c1 → owns st rhs c2 →
  ∃ less equal greater,
    op_lt lt lhs rhs st = Ret less st
    ∧ op_eq eq lhs rhs st = Ret equal st
    ∧ op_lt lt rhs lhs st = Ret greater st
    ∧ (less = true ↔ lexicographic_less lt c1.*2 c2.*2)
    ∧ ((∃ y s, c2.*2 = c1.*2 ++ y :: s) → less = true)
    ∧ ((less = true ∧ equal = false ∧ greater = false)
       ∨ (less = false ∧ equal = true ∧ greater = false)
       ∨ (less = false ∧ equal = false ∧ greater = true))
    ∧ op_gt lt lhs rhs st = Ret greater st
    ∧ op_le lt lhs rhs st = Ret (negb greater) st
    ∧ op_ge lt lhs rhs st = Ret (negb less) st.
Proof.
  intros Heq Hirr Htrans Htotal H1 H2.
  exists (seq_less lt c1.*2 c2.*2), (seq_equal eq c1.*2 c2.*2), (seq_less lt c2.*2 c1.*2).
  pose proof (op_lt_owns lt st lhs rhs c1 c2 H1 H2) as Hlt.
  pose proof (op_lt_owns lt st rhs lhs c2 c1 H2 H1) as Hgt.
  pose proof (seq_less_spec lt Hirr Htotal c1.*2 c2.*2) as Hspec.
  split; [done|]. split; [by apply op_eq_owns|]. split; [done|].
  split; [done|]. split; [intros Hpre; apply Hspec; by left|].
  split; [by apply seq_trichotomy|].
  split; [done|].
  split; [unfold op_le, op_gt; unfold_monad; by rewrite Hgt|].
  unfold op_ge. unfold_monad. by rewrite Hlt.
Qed.

Lemma C3_lexicographic_ordering_witness :
  owns ex_two 1%positive ex_cells_A ∧ owns ex_two 2%positive ex_cells_B
  ∧ op_lt Z.ltb 1%positive 2%positive ex_two = Ret true ex_two
  ∧ op_eq Z.eqb 1%positive 2%positive ex_two = Ret false ex_two
  ∧ op_lt Z.ltb 2%positive 1%positive ex_two = Ret false ex_two.
Proof.
  split; [exact ex_two_owns_A|]. split; [exact ex_two_owns_B|].
  destruct (C3_lexicographic_ordering Z.eqb Z.ltb ex_two 1%positive 2%positive
              ex_cells_A ex_cells_B)
    as (less & equal & greater & Hlt & Heq & Hgt & _ & Hprefix & Htri & _).
  - intros x y. apply Z.eqb_eq.
  - intros x. apply Z.ltb_irrefl.
  - intros x y z Hxy Hyz. apply Z.ltb_lt in Hxy, Hyz. apply Z.ltb_lt. lia.
  - intros x y. rewrite !Z.ltb_lt. lia.
  - exact ex_two_owns_A.
  - exact ex_two_owns_B.
  - assert (Hless : less = true).
    { apply Hprefix. exists 4, []. reflexivity. }
    subst less.
    destruct Htri as [(_ & -> & ->)|[(Hf & _)|(Hf & _)]]; [|discriminate Hf..].
    split; [exact Hlt|]. split; [exact Heq|exact Hgt].
Defined.

(** C5: the invariant of the state (every live list owns a chain of nodes
    whose number is its stored size, chains of different lists are
    disjoint) is kept by every public operation that completes:
    the three constructors, [PushFront], [PopFront], [InsertAfter],
    [EraseAfter], [Clear], assignment through an iterator, [Swap] and
    [operator=].  So after each of them the stored size of every list is
    the number of nodes reachable from its sentinel. *)
Theorem C5_size_invariant_after_every_operation {T : Type} (Type_default : T)
    (st : @state T) this (op : public_op) st' :
  state_inv st →
  run_op Type_default this op st = Ret tt st' →
  state_inv st'
  ∧ ∀ l, is_Some (objects st' !! l) → size_invariant st' l.
Proof.
  intros Hinv Hrun.
  pose proof (run_op_inv Type_default st this op st' Hinv Hrun) as Hinv'.
  split; [done|]. intros l Hl. destruct (inv_owns _ Hinv' l Hl) as (cells & Hown).
  by eapply size_invariant_owns.
Qed.

Lemma C5_size_invariant_after_every_operation_witness :
  state_inv ex_two
  ∧ ∃ st1 st2 st3,
      run_op 0 1%positive (OpMutate (MutInsertAfter 2 9)) ex_two = Ret tt st1
      ∧ run_op 0 1%positive (OpAssign 2%positive) st1 = Ret tt st2
      ∧ run_op 0 3%positive (OpCopy 1%positive) st2 = Ret tt st3
      ∧ size_invariant st1 1%positive
      ∧ size_invariant st2 1%positive
      ∧ size_invariant st3 3%positive
      ∧ GetSize 1%positive st1 = Ret 4 st1
      ∧ GetSize 3%positive st3 = Ret 4 st3.
Proof.
  split; [exact ex_two_inv|].
  eexists. eexists. eexists.
  split; [vm_compute; reflexivity|].
  split; [vm_compute; reflexivity|].
  split; [vm_compute; reflexivity|].
  match goal with
  | |- size_invariant ?s1 _ ∧ size_invariant ?s2 _ ∧ size_invariant ?s3 _ ∧ _ =>
      assert (H1 : run_op 0 1%positive (OpMutate (MutInsertAfter 2 9)) ex_two = Ret tt s1)
        by (vm_compute; reflexivity);
      assert (H2 : run_op 0 1%positive (OpAssign 2%positive) s1 = Ret tt s2)
        by (vm_compute; reflexivity);
      assert (H3 : run_op 0 3%positive (OpCopy 1%positive) s2 = Ret tt s3)
        by (vm_compute; reflexivity)
  end.
  destruct (C5_size_invariant_after_every_operation 0 _ _ _ _ ex_two_inv H1) as (Hinv1 & Hs1).
  destruct (C5_size_invariant_after_every_operation 0 _ _ _ _ Hinv1 H2) as (Hinv2 & Hs2).
  destruct (C5_size_invariant_after_every_operation 0 _ _ _ _ Hinv2 H3) as (Hinv3 & Hs3).
  split; [apply Hs1; by eexists|].
  split; [apply Hs2; by eexists|].
  split; [apply Hs3; by eexists|].
  split; reflexivity.
Defined.

(** C1: copy-constructing [B] from a list [A] (with memory for its
    elements) returns; [B] then has the values of [A] in the same order
    and the same size, [B == A] holds when [==] on elements is reflexive,
    and [A] is as before.  The nodes of [B] are not nodes of [A], and
    whatever sequence of mutations is then applied to [B] (insertions,
    removals, clearing, assignment to elements), whether it completes or
    stops at an allocation failure, [A] keeps its contents and its size. *)
Theorem C1_copy_is_equal_and_independent {T : Type} (Type_default : T)
    (eq : T → T → bool) (st : @state T) A B cells :
  state_inv st → owns st A cells → objects st !! B = None →
  (length cells ≤ length (free_pool st))%nat →
  ∃ st' cells_B,
    SingleLinkedList_copy Type_default B A st = Ret tt st'
    ∧ contents B st' = Ret cells.*2 st'
    ∧ GetSize B st' = Ret (Z.of_nat (length cells)) st'
    ∧ contents A st' = Ret cells.*2 st'
    ∧ GetSize A st' = Ret (Z.of_nat (length cells)) st'
    ∧ ((∀ x, eq x x = true) → op_eq eq B A st' = Ret true st')
    ∧ owns st' B cells_B ∧ owns st' A cells
    ∧ (∀ a, a ∈ cells_B.*1 → a ∉ cells.*1)
    ∧ ∀ ms st'',
        (run_mutations B ms st' = Ret tt st'' ∨ run_mutations B ms st' = Throw st'') →
        contents A st'' = Ret cells.*2 st''
        ∧ GetSize A st'' = Ret (Z.of_nat (length cells)) st''.
Proof.
  intros Hinv HA HB Hlen.
  destruct (copy_inv Type_default st B A cells Hinv HB HA Hlen)
    as (st' & cb & Hrun & Hinv' & HownB & Hvals & Hstep).
  assert (Hne : A ≠ B).
  { intros ->. destruct HA as (? & Ho & _). by rewrite HB in Ho. }
  assert (HA' : owns st' A cells).
  { eapply frame_step_other; [done|done|done|]. intros a _. simpl. apply not_elem_of_nil. }
  exists st', cb. split; [done|].
  split; [by rewrite (contents_owns _ _ _ HownB), Hvals|].
  split.
  { rewrite (GetSize_owns _ _ _ HownB). do 2 f_equal.
    rewrite <- (length_fmap snd cb), Hvals. by rewrite length_fmap. }
  split; [by apply contents_owns|]. split; [by apply GetSize_owns|].
  split.
  { intros Hrefl. rewrite (op_eq_owns eq st' B A cb cells HownB HA'), Hvals.
    by rewrite seq_equal_refl. }
  split; [done|]. split; [done|].
  split; [by apply (inv_sep _ Hinv' B A)|].
  intros ms st'' Hms.
  destruct (run_mutations_other B ms st' st'' A cells Hinv' Hne HA' Hms) as (_ & HA'').
  split; [by apply contents_owns|by apply GetSize_owns].
Qed.

Lemma C1_copy_is_equal_and_independent_witness :
  state_inv ex_one ∧ owns ex_one 1%positive ex_cells_A
  ∧ objects ex_one !! 2%positive = None
  ∧ ∃ st' st'',
      SingleLinkedList_copy 0 2%positive 1%positive ex_one = Ret tt st'
      ∧ contents 2%positive st' = Ret [1; 2; 3] st'
      ∧ op_eq Z.eqb 2%positive 1%positive st' = Ret true st'
      ∧ run_mutations 2%positive
          [MutPushFront 7; MutAssignValue 0 8; MutEraseAfter 1; MutInsertAfter 3 5] st'
        = Ret tt st''
      ∧ contents 2%positive st'' = Ret [8; 2; 3; 5] st''
      ∧ contents 1%positive st'' = Ret [1; 2; 3] st''
      ∧ GetSize 1%positive st'' = Ret 3 st''.
Proof.
  split; [exact ex_one_inv|]. split; [exact ex_one_owns|]. split; [reflexivity|].
  destruct (C1_copy_is_equal_and_independent 0 Z.eqb ex_one 1%positive 2%positive ex_cells_A
              ex_one_inv ex_one_owns eq_refl ltac:(simpl; lia))
    as (st' & cb & Hrun & HcB & _ & _ & _ & Heq & _ & _ & _ & Hindep).
  assert (Hrun' : ∃ s, SingleLinkedList_copy 0 2%positive 1%positive ex_one = Ret tt s
    ∧ ∃ s2, run_mutations 2%positive
              [MutPushFront 7; MutAssignValue 0 8; MutEraseAfter 1; MutInsertAfter 3 5] s
            = Ret tt s2
          ∧ contents 2%positive s2 = Ret [8; 2; 3; 5] s2).
  { eexists. split; [vm_compute; reflexivity|].
    eexists. split; [vm_compute; reflexivity|]. vm_compute. reflexivity. }
  destruct Hrun' as (s & Hs & s2 & Hms & Hc2).
  rewrite Hrun in Hs. injection Hs as <-.
  destruct (Hindep _ s2 (or_introl Hms)) as (HcA & HsA).
  exists st', s2. split; [exact Hrun|]. split; [exact HcB|].
  split; [apply Heq; intros x; apply Z.eqb_refl|].
  split; [exact Hms|]. split; [exact Hc2|]. split; [exact HcA|exact HsA].
Defined.

(** * Further properties of the code *)

(** ** Round trips *)

Lemma size_t_wrap_succ_pred n :
  0 ≤ n < size_t_modulus → size_t_wrap (size_t_wrap (n + 1) - 1) = n.
Proof.
  intros Hn. unfold size_t_wrap. rewrite Zminus_mod_idemp_l.
  replace (n + 1 - 1) with n by lia. by apply Z.mod_small.
Qed.

Lemma ex_short_inv : state_inv ex_short.
Proof.
  apply (run_op_inv 0 (mkState ∅ ∅ [10; 11; 12; 13; 14]%positive) 1%positive
           (OpInit [1; 2; 3])).
  - apply state_inv_fresh; compute_done.
  - by vm_compute.
Qed.

Lemma ex_short_owns : owns ex_short 1%positive ex_cells_A.
Proof.
  eexists. split; [reflexivity|]. unfold chain. simpl. repeat (split || eexists).
Qed.

Lemma ex_tiny_inv : state_inv ex_tiny.
Proof. apply state_inv_fresh; compute_done. Qed.

(** [InsertAfter] at a position followed by [EraseAfter] at the same
    position gives back the state exactly as it was. *)
Lemma insert_erase_restores {T : Type} (st : @state T) this cells k v :
  alloc_ok st → owns st this cells → (k ≤ length cells)%nat → free_pool st ≠ [] →
  ∃ st1 a, InsertAfter this (Iter (pos_ptr this cells k)) v st = Ret (Iter (node_at a)) st1
    ∧ EraseAfter this (Iter (pos_ptr this cells k)) st1
        = Ret (Iter (pos_ptr this cells (S k))) st.
Proof.
  intros Hok Hown Hk Hpool. destruct (free_pool st) as [|a pool] eqn:Hp; [done|].
  pose proof (pool_head_unused _ _ _ Hok Hp) as Hfresh.
  pose proof (owns_size_bound _ _ _ Hok Hown) as Hbd.
  destruct (InsertAfter_at st this cells k a pool v Hok Hown Hk Hp)
    as (st1 & Hins & _ & (Hok1 & Hown1 & _)).
  pose proof (owns_size_bound _ _ _ Hok1 Hown1) as Hbd1.
  rewrite length_app, length_take in Hbd1. simpl length in Hbd1. rewrite length_drop in Hbd1.
  destruct (load_pos st this cells k Hown Hk) as (n & Hload & Hnext & Hnn).
  exists st1, a. split; [done|].
  destruct Hown as (hd & Ho & Hc).
  destruct k as [|k].
  - cbn [pos_ptr] in Hins, Hload |- *.
    rewrite (InsertAfter_head_run st this _ a pool v Ho Hp) in Hins.
    injection Hins as <-.
    rewrite (load_head_run st this _ Ho) in Hload. injection Hload as <-.
    eapply eq_trans.
    { eapply EraseAfter_head_run;
        [simpl; apply lookup_insert_eq|reflexivity|simpl; apply lookup_insert_eq]. }
    cbn [head_ value next_node size_ objects heap free_pool]. f_equal; [by rewrite Hnext|].
    destruct st as [objs hp pl]. simpl in *. subst pl. f_equal.
    + rewrite insert_insert_eq. apply insert_id. rewrite Ho. f_equal.
      destruct hd as [vh nh]. simpl. f_equal. rewrite size_t_wrap_succ_pred; [done|lia].
    + by apply delete_insert_id.
  - destruct (lookup_lt_is_Some_2 cells k) as [[b vb] Hb]; [lia|].
    cbn [pos_ptr] in Hins, Hload, Hnn |- *. rewrite Hb in Hins, Hload, Hnn |- *.
    cbn [fst] in Hins, Hload, Hnn |- *.
    unfold load in Hload.
    destruct (heap st !! b) as [nb|] eqn:Hhb; [|done]. injection Hload as <-.
    assert (Hab : a ≠ b) by (intros ->; by rewrite Hfresh in Hhb).
    rewrite (InsertAfter_node_run st this _ b nb a pool v Ho Hhb Hp Hab) in Hins.
    injection Hins as <-.
    eapply eq_trans.
    { eapply (EraseAfter_node_run _ this _ b _ a);
        [simpl; apply lookup_insert_eq|simpl; apply lookup_insert_eq|reflexivity
        |simpl; rewrite lookup_insert_ne by done; apply lookup_insert_eq|done]. }
    cbn [head_ value next_node size_ objects heap free_pool]. f_equal; [by rewrite Hnext|].
    destruct st as [objs hp pl]. simpl in *. subst pl. f_equal.
    + rewrite insert_insert_eq. apply insert_id. rewrite Ho. f_equal.
      rewrite size_t_wrap_succ_pred; [done|lia].
    + apply map_eq. intros i. destruct (decide (i = b)) as [->|Hib].
      * rewrite lookup_insert_eq, Hhb. by destruct nb.
      * rewrite lookup_insert_ne by done. destruct (decide (i = a)) as [->|Hia].
        -- by rewrite lookup_delete_eq.
        -- rewrite lookup_delete_ne by done. by rewrite !lookup_insert_ne.
Qed.

(** X1: [PushFront(v)] followed by [PopFront()] on a well-formed list with
    memory available returns the state exactly as it was before: the same
    list objects, the same heap and the same allocator pool. *)
Theorem X1_push_front_pop_front_restores {T : Type} (st : @state T) this cells v :
  alloc_ok st → owns st this cells → free_pool st ≠ [] →
  (PushFront this v;; PopFront this) st = Ret tt st.
Proof.
  intros Hok Hown Hpool. destruct (free_pool st) as [|a pool] eqn:Hp; [done|].
  pose proof (pool_head_unused _ _ _ Hok Hp) as Hfresh.
  pose proof (owns_size_bound _ _ _ Hok Hown) as Hbd.
  destruct (InsertAfter_head_owns st this cells a pool v Hok Hown Hp)
    as (st1 & _ & Hpush & _ & (Hok1 & Hown1 & _)).
  pose proof (owns_size_bound _ _ _ Hok1 Hown1) as Hbd1. simpl length in Hbd1.
  destruct Hown as (hd & Ho & Hc).
  eapply bind_Ret_eq; [by eapply PushFront_run|].
  eapply eq_trans.
  { eapply PopFront_run;
      [simpl; apply lookup_insert_eq|simpl; rewrite size_t_wrap_small; lia
      |reflexivity|simpl; apply lookup_insert_eq]. }
  cbn [head_ value next_node size_ objects heap free_pool].
  destruct st as [objs hp pl]. simpl in *. subst pl. do 2 f_equal.
  - rewrite insert_insert_eq. apply insert_id. rewrite Ho. f_equal.
    destruct hd as [vh nh]. simpl. f_equal. rewrite size_t_wrap_succ_pred; [done|lia].
  - by apply delete_insert_id.
Qed.

Lemma X1_push_front_pop_front_restores_witness :
  alloc_ok ex_one ∧ owns ex_one 1%positive ex_cells_A ∧ free_pool ex_one ≠ []
  ∧ (PushFront 1%positive 9;; PopFront 1%positive) ex_one = Ret tt ex_one.
Proof.
  split; [exact (inv_alloc _ ex_one_inv)|]. split; [exact ex_one_owns|].
  split; [discriminate|].
  exact (X1_push_front_pop_front_restores ex_one 1%positive ex_cells_A 9
           (inv_alloc _ ex_one_inv) ex_one_owns ltac:(discriminate)).
Defined.

(** X2: for every valid position of a well-formed list (the sentinel or
    an element), [InsertAfter(pos, v)] followed by [EraseAfter(pos)]
    returns the state exactly as it was, and the iterator [EraseAfter]
    returns is the one that followed [pos] before the insertion. *)
Theorem X2_insert_after_erase_after_restores {T : Type} (st : @state T) this cells k v :
  alloc_ok st → owns st this cells → (k ≤ length cells)%nat → free_pool st ≠ [] →
  (pos ← advance k (before_begin this);
   InsertAfter this pos v;;
   EraseAfter this pos) st
  = Ret (Iter (pos_ptr this cells (S k))) st
  ∧ iter_incr (Iter (pos_ptr this cells k)) st = Ret (Iter (pos_ptr this cells (S k))) st.
Proof.
  intros Hok Hown Hk Hpool. split; [|by apply iter_incr_pos].
  destruct (insert_erase_restores st this cells k v Hok Hown Hk Hpool)
    as (st1 & a & Hins & Herase).
  eapply bind_Ret_eq; [apply (advance_from_before_begin st this cells k Hown); lia|].
  eapply bind_Ret_eq; [exact Hins|]. exact Herase.
Qed.

Lemma X2_insert_after_erase_after_restores_witness :
  alloc_ok ex_one ∧ owns ex_one 1%positive ex_cells_A
  ∧ (pos ← advance 2 (before_begin 1%positive);
     InsertAfter 1%positive pos 9;;
     EraseAfter 1%positive pos) ex_one
    = Ret (Iter (node_at 10)) ex_one.
Proof.
  split; [exact (inv_alloc _ ex_one_inv)|]. split; [exact ex_one_owns|].
  exact (proj1 (X2_insert_after_erase_after_restores ex_one 1%positive ex_cells_A 2 9
           (inv_alloc _ ex_one_inv) ex_one_owns ltac:(simpl; lia) ltac:(discriminate))).
Defined.

(** ** Swap *)

(** X3: [Swap] exchanges the element sequences and the sizes of two
    well-formed lists and does nothing else: no node is allocated, freed
    or written, and every other list object is left as it is.  The free
    function [Swap(lhs, rhs)] does the same. *)
Theorem X3_swap_exchanges_contents {T : Type} (st : @state T) this other ct co :
  owns st this ct → owns st other co →
  ∃ st', Swap this other st = Ret tt st'
    ∧ Swap_free this other st = Ret tt st'
    ∧ contents this st' = Ret co.*2 st'
    ∧ contents other st' = Ret ct.*2 st'
    ∧ GetSize this st' = Ret (Z.of_nat (length co)) st'
    ∧ GetSize other st' = Ret (Z.of_nat (length ct)) st'
    ∧ heap st' = heap st
    ∧ free_pool st' = free_pool st
    ∧ (∀ l, l ≠ this → l ≠ other → objects st' !! l = objects st !! l).
Proof.
  intros Ht Ho. destruct (decide (this = other)) as [<-|Hne].
  - exists st. pose proof (owns_det _ _ _ _ Ht Ho) as <-.
    assert (Hrun : Swap this this st = Ret tt st).
    { destruct Ht as (hd & Ht & _). by eapply Swap_self_run. }
    split; [done|]. split; [done|].
    split; [by apply contents_owns|]. split; [by apply contents_owns|].
    split; [by apply GetSize_owns|]. split; [by apply GetSize_owns|]. done.
  - destruct (Swap_owns st this other ct co Hne Ht Ho)
      as (st' & Hrun & Ht' & Ho' & Hheap & Hpool & Hobj).
    exists st'. split; [done|]. split; [done|].
    split; [by apply contents_owns|]. split; [by apply contents_owns|].
    split; [by apply GetSize_owns|]. split; [by apply GetSize_owns|]. done.
Qed.

Lemma X3_swap_exchanges_contents_witness :
  owns ex_two 1%positive ex_cells_A ∧ owns ex_two 2%positive ex_cells_B
  ∧ ∃ st', Swap 1%positive 2%positive ex_two = Ret tt st'
           ∧ contents 1%positive st' = Ret [1; 2; 3; 4] st'
           ∧ contents 2%positive st' = Ret [1; 2; 3] st'
           ∧ GetSize 1%positive st' = Ret 4 st'.
Proof.
  split; [exact ex_two_owns_A|]. split; [exact ex_two_owns_B|].
  destruct (X3_swap_exchanges_contents ex_two 1%positive 2%positive ex_cells_A ex_cells_B
              ex_two_owns_A ex_two_owns_B)
    as (st' & Hrun & _ & H1 & H2 & Hs & _).
  exists st'. split; [exact Hrun|]. split; [exact H1|]. split; [exact H2|exact Hs].
Defined.

(** X4: [Swap] is its own inverse and does not depend on which of the two
    lists it is called on: for any two live list objects, swapping twice
    returns the state exactly as it was, and [a.Swap(b)] and [b.Swap(a)]
    return the same state. *)
Theorem X4_swap_is_an_involution {T : Type} (st : @state T) this other :
  is_Some (objects st !! this) → is_Some (objects st !! other) →
  (Swap this other;; Swap this other) st = Ret tt st
  ∧ Swap this other st = Swap other this st.
Proof.
  intros [ot Ht] [oo Ho]. destruct (decide (this = other)) as [<-|Hne].
  - split; [|done]. eapply bind_Ret_eq; by eapply Swap_self_run.
  - split.
    + eapply bind_Ret_eq; [by eapply Swap_run|].
      eapply eq_trans.
      { eapply Swap_run; [done| |].
        - simpl. apply lookup_insert_eq.
        - simpl. rewrite lookup_insert_ne by done. apply lookup_insert_eq. }
      cbn [head_ value next_node size_ objects heap free_pool].
      destruct st as [objs hp pl]. simpl in *. do 2 f_equal.
      apply map_eq. intros i. destruct (decide (i = this)) as [->|Hi].
      * rewrite lookup_insert_eq, Ht. by destruct ot as [[? ?] ?].
      * rewrite lookup_insert_ne by done. destruct (decide (i = other)) as [->|Hj].
        -- rewrite lookup_insert_eq, Ho. by destruct oo as [[? ?] ?].
        -- by rewrite !lookup_insert_ne.
    + rewrite (Swap_run st this other ot oo Hne Ht Ho).
      rewrite (Swap_run st other this oo ot (not_eq_sym Hne) Ho Ht).
      do 2 f_equal. by apply insert_insert_ne.
Qed.

Lemma X4_swap_is_an_involution_witness :
  (Swap 1%positive 2%positive;; Swap 1%positive 2%positive) ex_two = Ret tt ex_two.
Proof.
  exact (proj1 (X4_swap_is_an_involution ex_two 1%positive 2%positive
                  ltac:(eexists; reflexivity) ltac:(eexists; reflexivity))).
Defined.

(** ** Iterators and positions *)

Lemma begin_advance {T : Type} (st : @state T) this cells k :
  owns st this cells → (k ≤ length cells)%nat →
  (b ← begin this; advance k b) st = Ret (Iter (pos_ptr this cells (S k))) st.
Proof.
  intros Hown Hk. eapply bind_Ret_eq; [by apply begin_owns|].
  change (first_ptr cells) with (first_ptr (drop 0 cells)).
  rewrite (first_ptr_drop cells 0), (pos_ptr_S 1%positive this).
  rewrite (advance_pos st this cells 1 k Hown) by lia. done.
Qed.

Lemma begin_advance_beyond {T : Type} (st : @state T) this cells k :
  owns st this cells → (length cells < k)%nat →
  (b ← begin this; advance k b) st = Undefined.
Proof.
  intros Hown Hk. eapply bind_Ret_eq; [by apply begin_owns|].
  change (first_ptr cells) with (first_ptr (drop 0 cells)).
  rewrite (first_ptr_drop cells 0), (pos_ptr_S 1%positive this).
  apply (advance_beyond st this cells k 1 Hown); lia.
Qed.

Lemma iter_deref_node {T : Type} (st : @state T) this cells j b x :
  owns st this cells → cells !! j = Some (b, x) →
  iter_deref (Iter (node_at b)) st = Ret x st.
Proof.
  intros (hd & Ho & Hc) Hj. pose proof (chain_lookup _ _ _ _ _ _ Hc Hj) as Hb.
  unfold iter_deref, load. unfold_monad. simpl. by rewrite Hb.
Qed.

Lemma pos_ptr_lookup {T : Type} this (cells : list (positive * T)) j b x :
  cells !! j = Some (b, x) → pos_ptr this cells (S j) = node_at b.
Proof. intros Hj. simpl. by rewrite Hj. Qed.

(** X5: the iterator protocol enumerates the list.  On a well-formed list
    [++before_begin()] is [begin()]; [begin()] advanced [k] times refers
    to the [k]-th element and dereferences to its value; advanced by the
    size it is [end()], and one increment more fails the assertion.
    Postfix increment returns the iterator it was applied to and leaves
    the one prefix increment gives.  [begin() == end()] exactly when the
    list is empty, which is also when [IsEmpty()] is true. *)
Theorem X5_iteration_enumerates_elements {T : Type} (st : @state T) this cells :
  owns st this cells →
  advance 1 (before_begin this) st = begin this st
  ∧ (∀ k x, cells.*2 !! k = Some x →
       (b ← begin this; it ← advance k b; iter_deref it) st = Ret x st)
  ∧ (b ← begin this; advance (length cells) b) st = Ret (end_ this) st
  ∧ (∀ k, (length cells < k)%nat → (b ← begin this; advance k b) st = Undefined)
  ∧ (∀ k, (k < length cells)%nat →
       ∃ it it', (b ← begin this; advance k b) st = Ret it st
                 ∧ (b ← begin this; advance (S k) b) st = Ret it' st
                 ∧ iter_incr it st = Ret it' st
                 ∧ iter_post_incr it st = Ret (it, it') st)
  ∧ (∃ b, begin this st = Ret b st
          ∧ (iter_eq b (end_ this) = true ↔ cells = [])
          ∧ IsEmpty this st = Ret (iter_eq b (end_ this)) st).
Proof.
  intros Hown. split; [|split; [|split; [|split; [|split]]]].
  - rewrite (advance_from_before_begin st this cells 1 Hown) by lia.
    rewrite (begin_owns st this cells Hown).
    change (first_ptr cells) with (first_ptr (drop 0 cells)).
    by rewrite (first_ptr_drop cells 0).
  - intros k x Hx. rewrite list_lookup_fmap in Hx.
    destruct (cells !! k) as [[b y]|] eqn:Hk; [|done]. injection Hx as ->.
    pose proof (lookup_lt_Some _ _ _ Hk) as Hlt.
    pose proof (begin_advance st this cells k Hown ltac:(lia)) as Hadv.
    unfold mbind, M_bind in Hadv |- *.
    destruct (begin this st) as [b0 s0|?| |]; try done.
    rewrite Hadv. rewrite (pos_ptr_lookup this cells k b x Hk).
    by eapply iter_deref_node.
  - rewrite (begin_advance st this cells _ Hown) by lia. by rewrite pos_ptr_end.
  - intros k Hk. by apply (begin_advance_beyond st this cells).
  - intros k Hk. exists (Iter (pos_ptr this cells (S k))), (Iter (pos_ptr this cells (S (S k)))).
    split; [apply (begin_advance st this cells); [done|lia]|].
    split; [apply (begin_advance st this cells); [done|lia]|].
    pose proof (iter_incr_pos st this cells (S k) Hown ltac:(lia)) as Hincr.
    split; [done|]. revert Hincr. unfold iter_incr, iter_post_incr, assert. unfold_monad.
    destruct (negb (bool_decide (node_ (Iter (pos_ptr this cells (S k))) = nullptr)));
      [|done].
    destruct (load (node_ (Iter (pos_ptr this cells (S k)))) st) as [n s|?| |]; try done.
    intros [= Hn ->]. cbn [pos_ptr]. by rewrite Hn.
  - exists (Iter (first_ptr cells)). split; [by apply begin_owns|]. split.
    + destruct cells as [|c cells]; simpl; [done|]. split; [done|done].
    + rewrite (IsEmpty_owns st this cells Hown). f_equal. by destruct cells.
Qed.

Lemma X5_iteration_enumerates_elements_witness :
  owns ex_one 1%positive ex_cells_A
  ∧ (b ← begin 1%positive; it ← advance 2 b; iter_deref it) ex_one = Ret 3 ex_one
  ∧ (b ← begin 1%positive; advance 3 b) ex_one = Ret (end_ 1%positive) ex_one
  ∧ (b ← begin 1%positive; advance 4 b) ex_one = Undefined.
Proof.
  split; [exact ex_one_owns|].
  destruct (X5_iteration_enumerates_elements ex_one 1%positive ex_cells_A ex_one_owns)
    as (_ & Hderef & Hend & Hbeyond & _).
  split; [exact (Hderef 2%nat 3 eq_refl)|]. split; [exact Hend|].
  exact (Hbeyond 4%nat ltac:(simpl; lia)).
Defined.

Lemma iter_deref_elem {T : Type} (st : @state T) this cells b x :
  owns st this cells → (b, x) ∈ cells → iter_deref (Iter (node_at b)) st = Ret x st.
Proof.
  intros Hown Hin. apply list_elem_of_lookup in Hin as (j & Hj). by eapply iter_deref_node.
Qed.

Lemma EraseAfter_at_named {T : Type} (st : @state T) this cells k a x :
  alloc_ok st → owns st this cells → cells !! k = Some (a, x) →
  ∃ st', EraseAfter this (Iter (pos_ptr this cells k)) st
           = Ret (Iter (first_ptr (drop (S k) cells))) st'
         ∧ free_pool st' = a :: free_pool st
         ∧ frame_step st st' this cells (delete k cells).
Proof.
  intros Hok Hown Hk. rewrite delete_take_drop. destruct k as [|k].
  - destruct cells as [|[a' va] cells]; [done|]. injection Hk as -> ->.
    destruct (PopFront_owns st this a x cells Hok Hown) as (st' & _ & H1 & H2 & H3).
    exists st'. simpl. rewrite drop_0. done.
  - pose proof (lookup_lt_Some _ _ _ Hk) as Hlt.
    destruct (lookup_lt_is_Some_2 cells k) as [[b vb] Hb]; [lia|].
    cbn [pos_ptr]. rewrite Hb. simpl fst.
    pose proof (take_drop_middle cells (S k) (a, x) Hk) as Hsplit2.
    rewrite (take_S_r cells k (b, vb)) in Hsplit2 by done.
    rewrite <- app_assoc in Hsplit2. simpl in Hsplit2.
    rewrite <- Hsplit2 in Hown.
    destruct (EraseAfter_node_owns st this _ b vb a x _ Hok Hown) as (st' & H1 & H2 & H3).
    exists st'. split; [done|]. split; [done|].
    rewrite Hsplit2 in H3. rewrite (take_S_r cells k (b, vb)) by done.
    by rewrite <- app_assoc.
Qed.

(** X6: [EraseAfter] at any position that has an element after it removes
    exactly that element: the other elements keep their order and the
    size is one less.  The iterator returned refers to the element that
    followed the erased one, or is [end()] when the last element was
    erased.  The node is deleted and its address goes back to the
    allocator; an iterator that referred to it dangles, while iterators
    to all other elements still dereference to the same values. *)
Theorem X6_erase_after_removes_one_element {T : Type} (st : @state T) this cells k a x :
  alloc_ok st → owns st this cells → cells !! k = Some (a, x) →
  ∃ st' it,
    (pos ← advance k (before_begin this); EraseAfter this pos) st = Ret it st'
    ∧ contents this st' = Ret (delete k cells.*2) st'
    ∧ GetSize this st' = Ret (Z.of_nat (length cells) - 1) st'
    ∧ (b ← begin this; advance k b) st' = Ret it st'
    ∧ (S k = length cells → it = end_ this)
    ∧ free_pool st' = a :: free_pool st
    ∧ heap st' !! a = None
    ∧ iter_deref (Iter (node_at a)) st' = Undefined
    ∧ (∀ j b y, cells !! j = Some (b, y) → j ≠ k →
         iter_deref (Iter (node_at b)) st' = Ret y st').
Proof.
  intros Hok Hown Hk. pose proof (lookup_lt_Some _ _ _ Hk) as Hlt.
  destruct (EraseAfter_at_named st this cells k a x Hok Hown Hk)
    as (st' & Hrun & Hp & (Hok' & Hown' & _)).
  assert (Hlen : length (delete k cells) = (length cells - 1)%nat).
  { rewrite length_delete; [done|by eexists]. }
  assert (Hfree : heap st' !! a = None).
  { apply (pool_unused _ Hok'). rewrite Hp. apply list_elem_of_here. }
  exists st', (Iter (first_ptr (drop (S k) cells))).
  split.
  { eapply bind_Ret_eq; [apply (advance_from_before_begin st this cells k Hown); lia|done]. }
  split.
  { rewrite (contents_owns _ _ _ Hown'). f_equal.
    rewrite !delete_take_drop. by rewrite fmap_app, fmap_take, fmap_drop. }
  split; [rewrite (GetSize_owns _ _ _ Hown'); do 2 f_equal; lia|].
  split.
  { rewrite (begin_advance st' this (delete k cells) k Hown') by lia.
    do 2 f_equal. rewrite (pos_ptr_S this 1%positive).
    rewrite <- (first_ptr_drop (delete k cells) k).
    f_equal. rewrite delete_take_drop. apply drop_app_length'.
    rewrite length_take. lia. }
  split.
  { intros Heq. by rewrite drop_ge by lia. }
  split; [done|]. split; [done|].
  split; [unfold iter_deref, load; unfold_monad; simpl; by rewrite Hfree|].
  intros j b y Hj Hne. eapply iter_deref_elem; [done|].
  apply list_elem_of_lookup. destruct (decide (j < k)%nat) as [Hjk|Hjk].
  - exists j. by rewrite list_lookup_delete_lt.
  - exists (pred j). rewrite list_lookup_delete_ge by lia.
    replace (S (pred j)) with j by lia. done.
Qed.

Lemma X6_erase_after_removes_one_element_witness :
  alloc_ok ex_one ∧ owns ex_one 1%positive ex_cells_A
  ∧ ∃ st', (pos ← advance 1 (before_begin 1%positive); EraseAfter 1%positive pos) ex_one
             = Ret (Iter (node_at 10)) st'
           ∧ contents 1%positive st' = Ret [1; 3] st'
           ∧ iter_deref (Iter (node_at 11)) st' = Undefined
           ∧ iter_deref (Iter (node_at 10)) st' = Ret 3 st'.
Proof.
  split; [exact (inv_alloc _ ex_one_inv)|]. split; [exact ex_one_owns|].
  destruct (X6_erase_after_removes_one_element ex_one 1%positive ex_cells_A 1 11%positive 2
              (inv_alloc _ ex_one_inv) ex_one_owns eq_refl)
    as (st' & it & Hrun & Hcont & _ & Hit & _ & _ & _ & Hdangle & Hkeep).
  exists st'.
  assert (Hc : ∃ s, (pos ← advance 1 (before_begin 1%positive); EraseAfter 1%positive pos) ex_one
                    = Ret (Iter (node_at 10)) s) by (eexists; vm_compute; reflexivity).
  destruct Hc as (s & Hs). rewrite Hrun in Hs. injection Hs as -> <-.
  split; [exact Hrun|]. split; [exact Hcont|]. split; [exact Hdangle|].
  exact (Hkeep 2%nat 10%positive 3 eq_refl ltac:(lia)).
Defined.

(** X7: [InsertAfter] at any valid position returns an iterator to the new
    element: it dereferences to the inserted value, it is [begin()]
    advanced by the number of elements before the position, and
    incrementing it gives the iterator that followed the position before
    the call.  No iterator is invalidated: an iterator to any element of
    the list still dereferences to that element's value, and it is found
    at the same index when the element was before the position and one
    further otherwise. *)
Theorem X7_insert_after_keeps_iterators {T : Type} (st : @state T) this cells k v :
  alloc_ok st → owns st this cells → (k ≤ length cells)%nat → free_pool st ≠ [] →
  ∃ st' it,
    (pos ← advance k (before_begin this); InsertAfter this pos v) st = Ret it st'
    ∧ iter_deref it st' = Ret v st'
    ∧ iter_incr it st' = Ret (Iter (pos_ptr this cells (S k))) st'
    ∧ (b ← begin this; advance k b) st' = Ret it st'
    ∧ (∀ j b y, cells !! j = Some (b, y) →
         iter_deref (Iter (node_at b)) st' = Ret y st'
         ∧ (b0 ← begin this; advance (if decide (j < k)%nat then j else S j) b0) st'
           = Ret (Iter (node_at b)) st').
Proof.
  intros Hok Hown Hk Hpool. destruct (free_pool st) as [|a pool] eqn:Hp; [done|].
  destruct (InsertAfter_at st this cells k a pool v Hok Hown Hk Hp)
    as (st' & Hrun & _ & (Hok' & Hown' & _)).
  set (cells' := take k cells ++ (a, v) :: drop k cells) in *.
  assert (Hnew : cells' !! k = Some (a, v)).
  { unfold cells'. rewrite lookup_app_r by (rewrite length_take; lia).
    rewrite length_take. by replace (k - k `min` length cells)%nat with 0%nat by lia. }
  assert (Hlen' : length cells' = S (length cells)).
  { unfold cells'. rewrite length_app, length_take. simpl length. rewrite length_drop. lia. }
  assert (Hold : ∀ j c, cells !! j = Some c →
            cells' !! (if decide (j < k)%nat then j else S j) = Some c).
  { intros j c Hj. pose proof (lookup_lt_Some _ _ _ Hj) as Hlt. unfold cells'.
    destruct (decide (j < k)%nat) as [Hjk|Hjk].
    - rewrite lookup_app_l by (rewrite length_take; lia). by rewrite lookup_take_lt.
    - rewrite lookup_app_r by (rewrite length_take; lia). rewrite length_take.
      replace (S j - k `min` length cells)%nat with (S (j - k)) by lia. simpl.
      rewrite lookup_drop. by replace (k + (j - k))%nat with j by lia. }
  exists st', (Iter (node_at a)).
  split.
  { eapply bind_Ret_eq; [apply (advance_from_before_begin st this cells k Hown); lia|done]. }
  split; [by eapply iter_deref_node|].
  split.
  { rewrite <- (pos_ptr_lookup this cells' k a v Hnew).
    rewrite (iter_incr_pos st' this cells' (S k) Hown') by lia.
    do 2 f_equal. cbn [pos_ptr]. unfold cells'.
    rewrite lookup_app_r by (rewrite length_take; lia). rewrite length_take.
    replace (S k - k `min` length cells)%nat with 1%nat by lia. simpl.
    rewrite lookup_drop. by rewrite Nat.add_0_r. }
  split.
  { rewrite (begin_advance st' this cells' k Hown') by lia.
    by rewrite (pos_ptr_lookup this cells' k a v Hnew). }
  intros j b y Hj. pose proof (Hold j _ Hj) as Hj'.
  pose proof (lookup_lt_Some _ _ _ Hj') as Hlt'. split.
  - by eapply iter_deref_node.
  - rewrite (begin_advance st' this cells' _ Hown') by lia.
    by rewrite (pos_ptr_lookup this cells' _ b y Hj').
Qed.

Lemma X7_insert_after_keeps_iterators_witness :
  alloc_ok ex_one ∧ owns ex_one 1%positive ex_cells_A
  ∧ ∃ st' it, (pos ← advance 1 (before_begin 1%positive); InsertAfter 1%positive pos 9) ex_one
                = Ret it st'
              ∧ iter_deref it st' = Ret 9 st'
              ∧ iter_deref (Iter (node_at 10)) st' = Ret 3 st'
              ∧ (b ← begin 1%positive; advance 3 b) st' = Ret (Iter (node_at 10)) st'.
Proof.
  split; [exact (inv_alloc _ ex_one_inv)|]. split; [exact ex_one_owns|].
  destruct (X7_insert_after_keeps_iterators ex_one 1%positive ex_cells_A 1 9
              (inv_alloc _ ex_one_inv) ex_one_owns ltac:(simpl; lia) ltac:(discriminate))
    as (st' & it & Hrun & Hnew & _ & _ & Hkeep).
  exists st', it. split; [exact Hrun|]. split; [exact Hnew|].
  destruct (Hkeep 2%nat 10%positive 3 eq_refl) as (Hd & Hpos).
  split; [exact Hd|exact Hpos].
Defined.

(** X8: what the assertions and the null links catch.  On a well-formed
    list, [PopFront] on an empty list fails its assertion; [EraseAfter] at
    the last position (the sentinel of an empty list, or the last element)
    passes the assertion and then reads through a null link; and
    [InsertAfter], [EraseAfter], increment and dereference applied to
    [end()] all fail their assertion.  None of these calls returns. *)
Theorem X8_contract_violations_do_not_return {T : Type} (st : @state T) this cells v :
  owns st this cells →
  (cells = [] → PopFront this st = Undefined)
  ∧ (pos ← advance (length cells) (before_begin this); EraseAfter this pos) st = Undefined
  ∧ InsertAfter this (end_ this) v st = Undefined
  ∧ EraseAfter this (end_ this) st = Undefined
  ∧ iter_incr (end_ this) st = Undefined
  ∧ iter_post_incr (end_ this) st = Undefined
  ∧ iter_deref (end_ this) st = Undefined
  ∧ (it ← (b ← begin this; advance (length cells) b); iter_incr it) st = Undefined.
Proof.
  intros Hown. split; [|split; [|split; [|split; [|split; [|split; [|split]]]]]]; try done.
  - intros ->. destruct Hown as (hd & Ho & _).
    unfold PopFront, IsEmpty, get_size. unfold_monad. by rewrite Ho.
  - eapply bind_Ret_eq; [apply (advance_from_before_begin st this cells _ Hown); lia|].
    by apply EraseAfter_last.
  - eapply bind_Ret_eq; [by apply (begin_advance st this cells (length cells) Hown)|].
    by rewrite pos_ptr_end.
Qed.

Lemma X8_contract_violations_do_not_return_witness :
  owns ex_one 1%positive ex_cells_A
  ∧ (pos ← advance 3 (before_begin 1%positive); EraseAfter 1%positive pos) ex_one = Undefined
  ∧ InsertAfter 1%positive (end_ 1%positive) 9 ex_one = Undefined.
Proof.
  split; [exact ex_one_owns|].
  destruct (X8_contract_violations_do_not_return ex_one 1%positive ex_cells_A 9 ex_one_owns)
    as (_ & Hlast & Hins & _).
  split; [exact Hlast|exact Hins].
Defined.

(** ** Clear and the destructor: where the nodes go *)

Lemma Clear_loop_pool {T : Type} this n (cs : list (positive * T)) :
  ∀ fuel (s : @state T) hd0 s1,
    objects s !! this = Some (mkList hd0 n) → chain (heap s) (next_node hd0) cs →
    Clear_loop fuel this s = Ret tt s1 →
    free_pool s1 = rev cs.*1 ++ free_pool s.
Proof.
  induction cs as [|[a0 v0] cs IH]; intros fuel s hd0 s1 Hs Hcs Hrun.
  - destruct fuel as [|fuel]; [done|]. unfold chain in Hcs. simpl in Hcs.
    revert Hrun. cbn [Clear_loop]. unfold load. unfold_monad. rewrite Hs. simpl.
    rewrite Hcs. simpl. by intros [= <-].
  - destruct fuel as [|fuel]; [done|].
    pose proof (chain_NoDup _ _ _ Hcs) as Hnd0. simpl in Hnd0.
    apply NoDup_cons in Hnd0 as (Hnotin & _).
    destruct Hcs as (Hnext & r & Ha0 & Hrest). simpl in Hnext, Ha0.
    revert Hrun. cbn [Clear_loop]. unfold load, delete_Node, store_next.
    unfold_monad. simpl.
    repeat (first [rewrite Hs | rewrite Ha0 | rewrite Hnext]; simpl). intros Hrun.
    eapply IH in Hrun.
    + rewrite Hrun. simpl. by rewrite <- app_assoc.
    + simpl. apply lookup_insert_eq.
    + simpl. eapply seg_frame; [done|]. intros x Hx. rewrite lookup_delete_ne; [done|].
      by intros ->.
Qed.

(** The whole effect of [Clear] on a list object with a chain that ends. *)
Lemma Clear_full {T : Type} (st : @state T) this hd n cells :
  objects st !! this = Some (mkList hd n) →
  chain (heap st) (next_node hd) cells →
  ∃ st', Clear this st = Ret tt st'
    ∧ objects st' = <[this := mkList (mkNode (value hd) nullptr) 0]> (objects st)
    ∧ (∀ x, heap st' !! x = if decide (x ∈ cells.*1) then None else heap st !! x)
    ∧ free_pool st' = rev cells.*1 ++ free_pool st.
Proof.
  intros Ho Hc.
  destruct (Clear_loop_chain this cells (S (size (heap st))) st hd _ Ho Hc)
    as (st1 & Hrun & Hobj & Hheap & _).
  { apply chain_length_le in Hc. lia. }
  pose proof (Clear_loop_frees this n cells _ st hd st1 Ho Hc Hrun) as Hfreed.
  pose proof (Clear_loop_pool this n cells _ st hd st1 Ho Hc Hrun) as Hpool.
  eexists. split; [|split; [|split]].
  - unfold Clear, loop_fuel, set_size. unfold_monad. rewrite Hrun. rewrite Hobj.
    rewrite lookup_insert_eq. done.
  - simpl. by rewrite insert_insert_eq.
  - cbn [heap]. intros x. destruct (decide (x ∈ cells.*1)) as [Hin|Hnotin].
    + by apply (proj1 Hfreed).
    + by apply Hheap.
  - done.
Qed.

(** X9: [Clear] deletes every node of the list and nothing else: each
    node's address goes back to the allocator, every other heap node is
    untouched, and every other list of a well-formed state keeps its
    elements and its size.  The state stays well formed, so the cleared
    list can be used again. *)
Theorem X9_clear_frees_exactly_its_nodes {T : Type} (st : @state T) this cells :
  state_inv st → owns st this cells →
  ∃ st', Clear this st = Ret tt st'
    ∧ (∀ x, heap st' !! x = if decide (x ∈ cells.*1) then None else heap st !! x)
    ∧ free_pool st' = rev cells.*1 ++ free_pool st
    ∧ state_inv st'
    ∧ (∀ l c, l ≠ this → owns st l c →
         contents l st' = Ret c.*2 st' ∧ GetSize l st' = Ret (Z.of_nat (length c)) st').
Proof.
  intros Hinv Hown.
  destruct (Clear_frame st this cells (inv_alloc _ Hinv) Hown) as (st' & Hrun & Hstep).
  destruct Hown as (hd & Ho & Hc).
  destruct (Clear_full st this hd _ cells Ho Hc) as (st2 & Hrun2 & _ & Hheap & Hpool).
  rewrite Hrun in Hrun2. injection Hrun2 as <-.
  exists st'. split; [done|]. split; [done|]. split; [done|].
  split; [eapply frame_step_inv; [done|left; by exists hd|done]|].
  intros l c Hne Hl.
  assert (Hl' : owns st' l c).
  { eapply frame_step_other; [done|done|done|].
    eapply (inv_sep _ Hinv l this); [done|done|by exists hd]. }
  split; [by apply contents_owns|by apply GetSize_owns].
Qed.

Lemma X9_clear_frees_exactly_its_nodes_witness :
  state_inv ex_two ∧ owns ex_two 2%positive ex_cells_B
  ∧ ∃ st', Clear 2%positive ex_two = Ret tt st'
           ∧ free_pool st' = [13; 14; 15; 16; 17; 18; 19; 20; 21; 22; 23; 24; 25]%positive
           ∧ contents 1%positive st' = Ret [1; 2; 3] st'.
Proof.
  split; [exact ex_two_inv|]. split; [exact ex_two_owns_B|].
  destruct (X9_clear_frees_exactly_its_nodes ex_two 2%positive ex_cells_B
              ex_two_inv ex_two_owns_B)
    as (st' & Hrun & _ & Hpool & _ & Hother).
  exists st'. split; [exact Hrun|]. split; [exact Hpool|].
  exact (proj1 (Hother 1%positive ex_cells_A ltac:(discriminate) ex_two_owns_A)).
Defined.

Lemma destroy_effect {T : Type} (st : @state T) this cells :
  state_inv st → owns st this cells →
  ∃ st', SingleLinkedList_destroy this st = Ret tt st'
    ∧ objects st' = delete this (objects st)
    ∧ (∀ x, heap st' !! x = if decide (x ∈ cells.*1) then None else heap st !! x)
    ∧ free_pool st' = rev cells.*1 ++ free_pool st
    ∧ state_inv st'
    ∧ (∀ l c, l ≠ this → owns st l c → owns st' l c).
Proof.
  intros Hinv Hown.
  destruct (destroy_inv st this cells Hinv Hown) as (st' & Hrun & Hinv' & Hkeep).
  pose proof Hown as (hd & Ho & Hc).
  destruct (Clear_full st this hd _ cells Ho Hc) as (st1 & Hrun1 & Hobj1 & Hheap & Hpool).
  assert (Hst' : st' = mkState (delete this (objects st1)) (heap st1) (free_pool st1)).
  { revert Hrun. unfold SingleLinkedList_destroy. unfold_monad. rewrite Hrun1.
    unfold release_members. rewrite Hobj1, lookup_insert_eq. by intros [= <-]. }
  subst st'. simpl in *.
  eexists. split; [done|]. simpl.
  split; [by rewrite Hobj1, delete_insert_eq|]. done.
Qed.

(** X10: the destructor of a well-formed list deletes all its nodes, hands
    their addresses back to the allocator and gives up the list object;
    no other heap node and no other list is touched, and the state stays
    well formed. *)
Theorem X10_destructor_releases_everything {T : Type} (st : @state T) this cells :
  state_inv st → owns st this cells →
  ∃ st', SingleLinkedList_destroy this st = Ret tt st'
    ∧ objects st' = delete this (objects st)
    ∧ (∀ x, heap st' !! x = if decide (x ∈ cells.*1) then None else heap st !! x)
    ∧ free_pool st' = rev cells.*1 ++ free_pool st
    ∧ state_inv st'
    ∧ (∀ l c, l ≠ this → owns st l c →
         contents l st' = Ret c.*2 st' ∧ GetSize l st' = Ret (Z.of_nat (length c)) st').
Proof.
  intros Hinv Hown.
  destruct (destroy_effect st this cells Hinv Hown)
    as (st' & Hrun & Hobj & Hheap & Hpool & Hinv' & Hkeep).
  exists st'. do 5 (split; [done|]).
  intros l c Hne Hl. pose proof (Hkeep l c Hne Hl) as Hl'.
  split; [by apply contents_owns|by apply GetSize_owns].
Qed.

Lemma X10_destructor_releases_everything_witness :
  state_inv ex_two ∧ owns ex_two 2%positive ex_cells_B
  ∧ SingleLinkedList_destroy 2%positive ex_two = Ret tt ex_one.
Proof.
  split; [exact ex_two_inv|]. split; [exact ex_two_owns_B|].
  destruct (X10_destructor_releases_everything ex_two 2%positive ex_cells_B
              ex_two_inv ex_two_owns_B)
    as (st' & Hrun & _).
  rewrite Hrun. f_equal.
  assert (Hc : SingleLinkedList_destroy 2%positive ex_two = Ret tt ex_one)
    by (vm_compute; reflexivity).
  rewrite Hrun in Hc. by injection Hc.
Defined.

(** ** Copy assignment *)

(** X11: copy assignment of a well-formed list from a well-formed list,
    with enough free memory for a copy of the right-hand side, returns;
    afterwards the target holds the right-hand side's elements in order and
    its size, compares equal to it, every other list (the right-hand side
    too) is as before, the temporary is gone, and the target's old nodes
    are back with the allocator.  Assigning a list to itself changes
    nothing at all. *)
Theorem X11_assignment_replaces_contents {T : Type} (d : T) (st : @state T)
    this rhs ct cr :
  state_inv st → owns st this ct → owns st rhs cr →
  (length cr ≤ length (free_pool st))%nat →
  ∃ st', assign d this rhs st = Ret tt st'
    ∧ state_inv st'
    ∧ contents this st' = Ret cr.*2 st'
    ∧ GetSize this st' = Ret (Z.of_nat (length cr)) st'
    ∧ (∀ eq, (∀ x, eq x x = true) → op_eq eq this rhs st' = Ret true st')
    ∧ (∀ l c, l ≠ this → owns st l c →
         contents l st' = Ret c.*2 st' ∧ GetSize l st' = Ret (Z.of_nat (length c)) st')
    ∧ dom (objects st') = dom (objects st)
    ∧ free_pool st' =
        (if decide (this = rhs) then free_pool st
         else rev ct.*1 ++ drop (length cr) (free_pool st))
    ∧ (this = rhs → st' = st).
Proof.
  intros Hinv Ht Hr Hlen.
  assert (Heq_refl : ∀ (eq : T → T → bool) s cs1 cs2,
             (∀ x, eq x x = true) → cs1.*2 = cs2.*2 →
             owns s this cs1 → owns s rhs cs2 →
             op_eq eq this rhs s = Ret true s).
  { intros eq s cs1 cs2 Hrefl Hv H1 H2.
    rewrite (op_eq_owns eq s this rhs cs1 cs2 H1 H2), Hv.
    by rewrite seq_equal_refl. }
  unfold assign.
  destruct (decide (this = rhs)) as [<-|Hne].
  - rewrite bool_decide_eq_false_2 by (intros H; by apply H).
    rewrite (owns_det _ _ _ _ Hr Ht).
    exists st. split; [done|]. split; [done|].
    split; [by apply contents_owns|]. split; [by apply GetSize_owns|].
    split; [intros eq Hrefl; by eapply Heq_refl|].
    split; [|done].
    intros l c _ Hl. split; [by apply contents_owns|by apply GetSize_owns].
  - rewrite bool_decide_eq_true_2 by done.
    set (temp := fresh (dom (objects st))).
    assert (Htemp : objects st !! temp = None) by apply fresh_object_unused.
    assert (Htt : temp ≠ this).
    { intros Heq. destruct Ht as (? & Ho & _). rewrite <- Heq in Ho. by rewrite Htemp in Ho. }
    assert (Htr : temp ≠ rhs).
    { intros Heq. destruct Hr as (? & Ho & _). rewrite <- Heq in Ho. by rewrite Htemp in Ho. }
    destruct (SingleLinkedList_copy_owns d st temp rhs cr (inv_alloc _ Hinv) Htemp Hr Hlen)
      as (st1 & Hrun1 & Hpool1 & Hstep1).
    set (cn := zip (take (length cr) (free_pool st)) cr.*2) in *.
    assert (Hvals : cn.*2 = cr.*2).
    { apply snd_zip. rewrite length_fmap, length_take. lia. }
    pose proof (frame_step_inv _ _ _ _ _ Hinv (or_intror (conj Htemp eq_refl)) Hstep1) as Hinv1.
    assert (Hown1 : owns st1 temp cn) by (by destruct Hstep1 as (_ & ? & _)).
    assert (Hkeep1 : ∀ l c, owns st l c → owns st1 l c).
    { intros l c Hl. eapply frame_step_other; [done| |done|].
      - intros ->. destruct Hl as (? & Ho & _). by rewrite Htemp in Ho.
      - intros a _. simpl. apply not_elem_of_nil. }
    destruct (Swap_inv st1 this temp ct cn Hinv1 (Hkeep1 _ _ Ht) Hown1)
      as (st2 & Hrun2 & Hinv2 & Hthis2 & Htemp2 & Hheap2 & Hpool2 & Hobj2).
    assert (Hkeep2 : ∀ l c, l ≠ this → owns st l c → owns st2 l c).
    { intros l c Hl Hc. eapply owns_frame; [by apply Hkeep1| |by rewrite Hheap2].
      apply Hobj2; [done|]. intros ->. destruct Hc as (? & Ho & _). by rewrite Htemp in Ho. }
    destruct (destroy_effect st2 temp ct Hinv2 Htemp2)
      as (st3 & Hrun3 & Hobj3 & _ & Hpool3 & Hinv3 & Hkeep3).
    assert (Hnt : ∀ l c, owns st l c → l ≠ temp).
    { intros l c Hc ->. destruct Hc as (? & Ho & _). by rewrite Htemp in Ho. }
    exists st3.
    split; [by eapply with_local_Ret; fold temp|].
    split; [done|].
    assert (Hthis3 : owns st3 this cn) by (apply Hkeep3; done).
    assert (Hrhs3 : owns st3 rhs cr).
    { apply Hkeep3; [done|]. by apply Hkeep2. }
    split; [rewrite <- Hvals; by apply contents_owns|].
    split.
    { rewrite (GetSize_owns _ _ _ Hthis3). do 2 f_equal.
      by rewrite <- (length_fmap snd cn), Hvals, length_fmap. }
    split; [intros eq Hrefl; by eapply Heq_refl|].
    split.
    { intros l c Hl Hc.
      assert (Hc3 : owns st3 l c).
      { apply Hkeep3; [by eapply Hnt|]. by apply Hkeep2. }
      split; [by apply contents_owns|by apply GetSize_owns]. }
    split.
    { rewrite Hobj3. apply set_eq. intros l.
      rewrite dom_delete, elem_of_difference, !elem_of_dom, elem_of_singleton.
      destruct (decide (l = temp)) as [->|Hlt].
      - rewrite Htemp. split; [by intros [_ ?]|by intros [? ?]].
      - destruct (decide (l = this)) as [->|Hl].
        + destruct Hthis2 as (? & -> & _). destruct Ht as (? & -> & _).
          split; [by eauto|by eauto].
        + rewrite Hobj2 by done.
          destruct Hstep1 as (_ & _ & Hobj1 & _). rewrite Hobj1 by done.
          split; [by intros [? _]|by intros ?]. }
    split; [|done].
    by rewrite Hpool3, Hpool2, Hpool1.
Qed.

Lemma X11_assignment_replaces_contents_witness :
  state_inv ex_two ∧ owns ex_two 1%positive ex_cells_A ∧ owns ex_two 2%positive ex_cells_B
  ∧ (length ex_cells_B ≤ length (free_pool ex_two))%nat
  ∧ ∃ st', assign 0 1%positive 2%positive ex_two = Ret tt st'
           ∧ contents 1%positive st' = Ret [1; 2; 3; 4] st'
           ∧ contents 2%positive st' = Ret [1; 2; 3; 4] st'
           ∧ free_pool st' = [10; 11; 12; 21; 22; 23; 24; 25]%positive.
Proof.
  split; [exact ex_two_inv|]. split; [exact ex_two_owns_A|].
  split; [exact ex_two_owns_B|]. split; [vm_compute; lia|].
  destruct (X11_assignment_replaces_contents 0 ex_two 1%positive 2%positive
              ex_cells_A ex_cells_B ex_two_inv ex_two_owns_A ex_two_owns_B
              ltac:(vm_compute; lia))
    as (st' & Hrun & _ & Hc & _ & _ & Hother & _ & Hpool & _).
  exists st'. split; [exact Hrun|]. split; [exact Hc|].
  split; [exact (proj1 (Hother 2%positive ex_cells_B ltac:(discriminate) ex_two_owns_B))|].
  exact Hpool.
Defined.

(** ** When the allocator runs out during a constructor or an assignment *)

Section Failure.

Context {T : Type}.
Variable Type_default : T.

Implicit Types (h : gmap positive (@Node T)) (p q r : ptr).
Implicit Types (cells : list (positive * T)) (st : @state T).

Lemma bind_Throw_eq {A B} (m : M A) (k : A → M B) st st1 :
  m st = Throw st1 → (m ≫= k) st = Throw st1.
Proof. intros H. unfold mbind, M_bind. by rewrite H. Qed.

Lemma ctor_body_Throw {A} this (body : M A) st st1 o :
  body st = Throw st1 → objects st1 !! this = Some o →
  ctor_body this body st =
    Throw (mkState (delete this (objects st1)) (heap st1) (free_pool st1)).
Proof.
  intros H Ho. unfold ctor_body. rewrite H.
  by rewrite (release_members_run st1 this o Ho).
Qed.

Lemma with_local_Throw {A} (ctor : positive → M unit) (body : positive → M A)
    st st1 st2 st3 :
  ctor (fresh (dom (objects st))) st = Ret tt st1 →
  body (fresh (dom (objects st))) st1 = Throw st2 →
  SingleLinkedList_destroy (fresh (dom (objects st))) st2 = Ret tt st3 →
  with_local ctor body st = Throw st3.
Proof. intros H1 H2 H3. unfold with_local. by rewrite H1, H2, H3. Qed.

Lemma with_local_ctor_Throw {A} (ctor : positive → M unit) (body : positive → M A)
    st st1 :
  ctor (fresh (dom (objects st))) st = Throw st1 →
  with_local ctor body st = Throw st1.
Proof. intros H1. unfold with_local. by rewrite H1. Qed.

(** [PushFront] for each value with too few addresses left: every address
    is used up, the list has grown by as many nodes, and then the
    allocation throws. *)
Lemma PushFront_each_throw this vs : ∀ st cells,
  alloc_ok st → owns st this cells →
  (length (free_pool st) < length vs)%nat →
  ∃ st', PushFront_each this vs st = Throw st'
         ∧ free_pool st' = []
         ∧ frame_step st st' this cells (rev (zip (free_pool st) vs) ++ cells)
         ∧ (∀ x, x ∉ free_pool st → heap st' !! x = heap st !! x).
Proof.
  induction vs as [|v vs IH]; intros st cells Hok Hown Hlen; [simpl in Hlen; lia|].
  destruct (free_pool st) as [|a pool] eqn:Hp.
  - exists st. split; [|split; [done|split; [|done]]].
    + cbn [PushFront_each]. apply bind_Throw_eq. destruct Hown as (hd & Ho & _).
      unfold PushFront, load, new_Node. unfold_monad. rewrite Ho. simpl. by rewrite Hp.
    + simpl. split; [done|]. split; [done|]. split; [done|]. split; [done|]. by left.
  - destruct (InsertAfter_head_owns st this cells a pool v Hok Hown Hp)
      as (st1 & _ & Hrun1 & Hp1 & Hstep1).
    pose proof Hstep1 as (Hok1 & Hown1 & _).
    assert (Hheap1 : ∀ x, x ≠ a → heap st1 !! x = heap st !! x).
    { intros x Hx. destruct Hown as (hd & Ho & _).
      rewrite (PushFront_run st this _ a pool v Ho Hp) in Hrun1.
      injection Hrun1 as <-. simpl. by rewrite lookup_insert_ne. }
    destruct (IH st1 ((a, v) :: cells) Hok1 Hown1) as (st' & Hrun & Hp' & Hstep & Hheap).
    { rewrite Hp1. simpl in Hlen. lia. }
    exists st'. split; [|split; [done|split]].
    + cbn [PushFront_each]. eapply bind_Ret_eq; [exact Hrun1|exact Hrun].
    + rewrite Hp1 in Hstep. simpl. rewrite <- app_assoc. simpl.
      by eapply frame_step_trans.
    + intros x Hx. apply not_elem_of_cons in Hx as [Hxa Hx].
      rewrite Hheap by (by rewrite Hp1). by apply Hheap1.
Qed.

(** The copy loop behind a node [b] with too few addresses left. *)
Lemma copy_loop_node_throw this todo : ∀ fuel st p b vb o,
  alloc_ok st → chain (heap st) p todo →
  heap st !! b = Some (mkNode vb nullptr) → b ∉ todo.*1 →
  objects st !! this = Some o →
  (length (free_pool st) < length todo)%nat →
  (length (free_pool st) < fuel)%nat →
  ∃ st' z,
    copy_loop fuel this (Iter p) (Iter nullptr) (Iter (node_at b)) st = Throw st'
    ∧ objects st' = <[this := mkList (head_ o) z]> (objects st)
    ∧ free_pool st' = [] ∧ alloc_ok st'
    ∧ chain (heap st') (node_at b) ((b, vb) :: zip (free_pool st) todo.*2)
    ∧ (∀ x, x ≠ b → x ∉ free_pool st → heap st' !! x = heap st !! x).
Proof.
  induction todo as [|[a0 v0] todo IH];
    intros fuel st p b vb o Hok Hc Hb Hbnot Ho Hlen Hfuel; [simpl in Hlen; lia|].
  destruct fuel as [|fuel]; [lia|].
  destruct Hc as (-> & r & Ha0 & Hs). simpl in Ha0.
  assert (Ha0b : a0 ≠ b) by (intros ->; apply Hbnot; apply list_elem_of_here).
  destruct (free_pool st) as [|a news] eqn:Hp.
  - exists st, (size_ o). split; [|split; [|split; [done|split; [done|split; [|done]]]]].
    + cbn [copy_loop]. unfold iter_ne. simpl.
      eapply bind_Ret_eq.
      { unfold iter_deref, load. unfold_monad. simpl. rewrite Ha0. reflexivity. }
      apply bind_Throw_eq.
      unfold InsertAfter, load, new_Node. unfold_monad. simpl. rewrite Hb. simpl.
      by rewrite Hp.
    + symmetry. apply insert_id. rewrite Ho. by destruct o.
    + simpl. split; [done|]. by exists nullptr.
  - pose proof (pool_head_unused _ _ _ Hok Hp) as Hfresh.
    assert (Hab : a ≠ b) by (intros ->; by rewrite Hfresh in Hb).
    assert (Ha0a : a0 ≠ a) by (intros ->; by rewrite Hfresh in Ha0).
    set (st1 := mkState
      (<[this := mkList (head_ o) (size_t_wrap (size_ o + 1))]> (objects st))
      (<[b := mkNode vb (node_at a)]> (<[a := mkNode v0 nullptr]> (heap st))) news).
    assert (Hok1 : alloc_ok st1).
    { eapply alloc_ok_alloc; [done|done|done|]. intros x. simpl.
      rewrite !lookup_insert_is_Some.
      destruct (decide (a = x)), (decide (b = x)); subst; naive_solver. }
    destruct (IH fuel st1 r a v0 (mkList (head_ o) (size_t_wrap (size_ o + 1))))
      as (st' & z & Hrun & Hobj & Hp' & Hok' & Hc' & Hframe).
    { done. }
    { simpl. eapply seg_frame; [done|]. intros x Hx. rewrite !lookup_insert_ne; [done| |].
      - intros ->. eapply unused_not_in_chain in Hs; done.
      - intros ->. apply Hbnot. by apply list_elem_of_further. }
    { simpl. rewrite lookup_insert_ne by done. by rewrite lookup_insert_eq. }
    { by eapply unused_not_in_chain. }
    { simpl. by rewrite lookup_insert_eq. }
    { simpl. simpl in Hlen. lia. }
    { simpl. simpl in Hfuel. lia. }
    simpl in Hc', Hframe, Hobj.
    exists st', z. split; [|split; [|split; [done|split; [done|split]]]].
    + cbn [copy_loop]. unfold iter_ne. simpl.
      eapply bind_Ret_eq.
      { unfold iter_deref, load. unfold_monad. simpl. rewrite Ha0. reflexivity. }
      eapply bind_Ret_eq.
      { by apply (InsertAfter_node_run st this o b (mkNode vb nullptr) a news v0). }
      simpl. fold st1. eapply bind_Ret_eq.
      { unfold iter_incr, load. unfold_monad. simpl.
        rewrite !lookup_insert_ne by done. rewrite Ha0. reflexivity. }
      exact Hrun.
    + rewrite Hobj. by rewrite insert_insert_eq.
    + assert (Hbnews : b ∉ news).
      { intros Hin. rewrite (pool_unused _ Hok) in Hb; [done|].
        rewrite Hp. by apply list_elem_of_further. }
      simpl. split; [done|]. exists (node_at a). split; [|done].
      rewrite Hframe by done. by rewrite lookup_insert_eq.
    + intros x Hxb Hx. apply not_elem_of_cons in Hx as [Hxa Hx].
      rewrite Hframe by done. by rewrite !lookup_insert_ne.
Qed.

(** The copy loop from the sentinel of the temporary with too few
    addresses left. *)
Lemma copy_loop_head_throw this temp todo fuel st p ot o :
  this ≠ temp → alloc_ok st → chain (heap st) p todo →
  objects st !! temp = Some ot → next_node (head_ ot) = nullptr →
  objects st !! this = Some o →
  (length (free_pool st) < length todo)%nat →
  (length (free_pool st) < fuel)%nat →
  ∃ st' z,
    copy_loop fuel this (Iter p) (Iter nullptr) (Iter (head_of temp)) st = Throw st'
    ∧ objects st' =
        <[this := mkList (head_ o) z]>
          (<[temp := mkList (mkNode (value (head_ ot))
                               (first_ptr (zip (free_pool st) todo.*2)))
                       (size_ ot)]> (objects st))
    ∧ free_pool st' = []
    ∧ chain (heap st') (first_ptr (zip (free_pool st) todo.*2))
        (zip (free_pool st) todo.*2)
    ∧ (∀ x, x ∉ free_pool st → heap st' !! x = heap st !! x).
Proof.
  intros Hne Hok Hc Hot Hnull Ho Hlen Hfuel.
  destruct todo as [|[a0 v0] todo]; [simpl in Hlen; lia|].
  destruct fuel as [|fuel]; [lia|].
  pose proof Hc as Hc0. destruct Hc as (-> & r & Ha0 & Hs). simpl in Ha0.
  destruct (free_pool st) as [|a news] eqn:Hp.
  - exists st, (size_ o). split; [|split; [|done]].
    + cbn [copy_loop]. unfold iter_ne. simpl.
      eapply bind_Ret_eq.
      { unfold iter_deref, load. unfold_monad. simpl. rewrite Ha0. reflexivity. }
      apply bind_Throw_eq.
      unfold InsertAfter, load, new_Node. unfold_monad. simpl. rewrite Hot. simpl.
      by rewrite Hp.
    + simpl. rewrite <- Hnull. symmetry.
      rewrite (insert_id (objects st) temp); [|rewrite Hot; by destruct ot as [[? ?] ?]].
      apply insert_id. rewrite Ho. by destruct o.
  - pose proof (pool_head_unused _ _ _ Hok Hp) as Hfresh.
    pose proof (unused_not_in_chain _ _ _ _ _ Hc0 Hfresh) as Hanot.
    assert (Ha0a : a0 ≠ a) by (intros ->; by rewrite Hfresh in Ha0).
    set (st1 := mkState
      (<[this := mkList (head_ o) (size_t_wrap (size_ o + 1))]>
         (<[temp := mkList (mkNode (value (head_ ot)) (node_at a)) (size_ ot)]>
            (objects st)))
      (<[a := mkNode v0 nullptr]> (heap st)) news).
    assert (Hok1 : alloc_ok st1).
    { eapply alloc_ok_alloc; [done|done|done|]. intros x. simpl.
      rewrite !lookup_insert_is_Some. destruct (decide (a = x)); subst; naive_solver. }
    destruct (copy_loop_node_throw this todo fuel st1 r a v0
                (mkList (head_ o) (size_t_wrap (size_ o + 1))))
      as (st' & z & Hrun & Hobj & Hp' & Hok' & Hc' & Hframe).
    { done. }
    { simpl. eapply seg_frame; [done|]. intros x Hx. rewrite lookup_insert_ne; [done|].
      intros ->. apply Hanot. simpl. by apply list_elem_of_further. }
    { simpl. by rewrite lookup_insert_eq. }
    { intros Hin. apply Hanot. simpl. by apply list_elem_of_further. }
    { simpl. by rewrite lookup_insert_eq. }
    { simpl. simpl in Hlen. lia. }
    { simpl. simpl in Hfuel. lia. }
    simpl in Hc', Hframe, Hobj.
    exists st', z. split; [|split; [|split; [done|split]]].
    + cbn [copy_loop]. unfold iter_ne. simpl.
      eapply bind_Ret_eq.
      { unfold iter_deref, load. unfold_monad. simpl. rewrite Ha0. reflexivity. }
      eapply bind_Ret_eq.
      { simpl. rewrite (InsertAfter_other_head_run st this temp o ot a news v0) by done.
        rewrite Hnull. reflexivity. }
      simpl. fold st1. eapply bind_Ret_eq.
      { unfold iter_incr, load. unfold_monad. simpl.
        rewrite !lookup_insert_ne by done. rewrite Ha0. reflexivity. }
      exact Hrun.
    + rewrite Hobj. simpl. by rewrite insert_insert_eq.
    + done.
    + intros x Hx. apply not_elem_of_cons in Hx as [Hxa Hx].
      destruct (decide (x = a)) as [->|Hxa']; [done|].
      rewrite Hframe by done. by rewrite lookup_insert_ne.
Qed.

(** The copy constructor with too few addresses left: the exception leaves
    the objects and the heap exactly as they were, and every address that
    was taken is back with the allocator. *)
Lemma SingleLinkedList_copy_throws st this other cells :
  alloc_ok st → objects st !! this = None → owns st other cells →
  (length (free_pool st) < length cells)%nat →
  SingleLinkedList_copy Type_default this other st =
    Throw (mkState (objects st) (heap st) (rev (free_pool st))).
Proof.
  intros Hok Hnone Hown Hlen.
  set (new_cells := zip (free_pool st) cells.*2).
  set (L0 := mkList (mkNode Type_default nullptr) 0).
  set (st0 := mkState (<[this := L0]> (objects st)) (heap st) (free_pool st)).
  set (temp := fresh (dom (objects st0))).
  assert (Htemp0 : objects st0 !! temp = None) by apply fresh_object_unused.
  assert (Hne : this ≠ temp).
  { intros Heq. rewrite <- Heq in Htemp0. simpl in Htemp0.
    by rewrite lookup_insert_eq in Htemp0. }
  assert (Htemp : objects st !! temp = None).
  { simpl in Htemp0. by rewrite lookup_insert_ne in Htemp0. }
  destruct Hown as (hdo & Hother & Hc).
  assert (Hot : other ≠ this) by (intros ->; by rewrite Hnone in Hother).
  assert (Hott : other ≠ temp) by (intros ->; by rewrite Htemp in Hother).
  set (st1 := mkState (<[temp := L0]> (objects st0)) (heap st) (free_pool st)).
  assert (Hok1 : alloc_ok st1) by (by eapply alloc_ok_same).
  destruct (copy_loop_head_throw this temp cells (S (size (heap st))) st1 (next_node hdo)
              L0 L0) as (st2 & z & Hloop & Hobj2 & Hp2 & Hc2 & Hframe2).
  { done. }
  { done. }
  { done. }
  { simpl. by rewrite lookup_insert_eq. }
  { done. }
  { simpl. rewrite lookup_insert_ne by done. by rewrite lookup_insert_eq. }
  { done. }
  { simpl. apply chain_length_le in Hc. lia. }
  simpl in Hobj2, Hc2, Hframe2. fold new_cells in Hobj2, Hc2.
  assert (Htemp2 : objects st2 !! temp
            = Some (mkList (mkNode Type_default (first_ptr new_cells)) 0)).
  { rewrite Hobj2. rewrite lookup_insert_ne by done. by rewrite lookup_insert_eq. }
  destruct (Clear_full st2 temp _ _ new_cells Htemp2 Hc2)
    as (st3 & Hclear & Hobj3 & Hheap3 & Hp3).
  assert (Hfst : new_cells.*1 = free_pool st).
  { unfold new_cells. apply fst_zip. rewrite length_fmap. lia. }
  unfold SingleLinkedList_copy.
  eapply bind_Ret_eq.
  { unfold init_members. rewrite Hnone. fold L0. fold st0. reflexivity. }
  eapply eq_trans; [eapply ctor_body_Throw|].
  - eapply bind_Ret_eq; [apply (get_size_run st0 this L0); apply lookup_insert_eq|].
    eapply bind_Ret_eq; [apply (load_head_run st0 this L0); apply lookup_insert_eq|].
    eapply bind_Ret_eq; [reflexivity|].
    eapply with_local_Throw.
    + unfold SingleLinkedList_default, init_members. fold temp. rewrite Htemp0.
      fold L0. fold st1. reflexivity.
    + fold temp.
      eapply bind_Ret_eq.
      { apply (begin_run st1 other (mkList hdo (Z.of_nat (length cells)))).
        simpl. by rewrite !lookup_insert_ne. }
      eapply bind_Ret_eq; [reflexivity|].
      apply bind_Throw_eq. exact Hloop.
    + fold temp. unfold SingleLinkedList_destroy.
      eapply bind_Ret_eq; [exact Hclear|].
      eapply release_members_run. rewrite Hobj3. apply lookup_insert_eq.
  - simpl. rewrite lookup_delete_ne by done. rewrite Hobj3.
    rewrite lookup_insert_ne by done. rewrite Hobj2. apply lookup_insert_eq.
  - simpl. f_equal. f_equal.
    + rewrite Hobj3, Hobj2. apply map_eq. intros i.
      destruct (decide (i = this)) as [->|Hi]; [by rewrite lookup_delete_eq|].
      rewrite lookup_delete_ne by done.
      destruct (decide (i = temp)) as [->|Hj]; [by rewrite lookup_delete_eq|].
      rewrite lookup_delete_ne by done. by rewrite !lookup_insert_ne.
    + apply map_eq. intros x. rewrite Hheap3, Hfst.
      destruct (decide (x ∈ free_pool st)) as [Hin|Hnotin].
      * symmetry. by apply (pool_unused _ Hok).
      * by apply Hframe2.
    + by rewrite Hp3, Hp2, Hfst, app_nil_r.
Qed.

End Failure.

Lemma ex_two_short_inv : state_inv ex_two_short.
Proof.
  apply (run_op_inv 0
           (mkState (objects ex_one) (heap ex_one) [13; 14; 15; 16; 17; 18]%positive)
           2%positive (OpInit [1; 2; 3; 4])).
  - apply (run_op_inv 0 (mkState ∅ ∅ [10; 11; 12; 13; 14; 15; 16; 17; 18]%positive)
             1%positive (OpInit [1; 2; 3])).
    + apply state_inv_fresh; compute_done.
    + by vm_compute.
  - by vm_compute.
Qed.

Lemma ex_two_short_owns_A : owns ex_two_short 1%positive ex_cells_A.
Proof.
  eexists. split; [reflexivity|]. unfold chain. simpl. repeat (split || eexists).
Qed.

Lemma ex_two_short_owns_B : owns ex_two_short 2%positive ex_cells_B.
Proof.
  eexists. split; [reflexivity|]. unfold chain. simpl. repeat (split || eexists).
Qed.

(** X12: when the allocator has fewer free addresses than the source has
    elements, the copy constructor throws, and the exception leaves no
    trace but the order of the free addresses: the new object does not
    exist, the temporary is destroyed, every node allocated on the way is
    deleted again, and the list objects and the heap are exactly as before
    the call. *)
Theorem X12_copy_constructor_failure_restores_state {T : Type} (d : T)
    (st : @state T) this other cells :
  alloc_ok st → objects st !! this = None → owns st other cells →
  (length (free_pool st) < length cells)%nat →
  ∃ st', SingleLinkedList_copy d this other st = Throw st'
    ∧ objects st' = objects st
    ∧ heap st' = heap st
    ∧ free_pool st' = rev (free_pool st)
    ∧ contents other st' = Ret cells.*2 st'.
Proof.
  intros Hok Hnone Hown Hlen.
  eexists. split; [by apply SingleLinkedList_copy_throws with (cells := cells)|].
  do 3 (split; [done|]).
  apply contents_owns. by eapply owns_frame.
Qed.

Lemma X12_copy_constructor_failure_restores_state_witness :
  alloc_ok ex_short ∧ objects ex_short !! 2%positive = None
  ∧ owns ex_short 1%positive ex_cells_A
  ∧ (length (free_pool ex_short) < length ex_cells_A)%nat
  ∧ SingleLinkedList_copy 0 2%positive 1%positive ex_short
      = Throw (mkState (objects ex_short) (heap ex_short) [14; 13]%positive).
Proof.
  split; [exact (inv_alloc _ ex_short_inv)|]. split; [reflexivity|].
  split; [exact ex_short_owns|]. split; [vm_compute; lia|].
  destruct (X12_copy_constructor_failure_restores_state 0 ex_short 2%positive 1%positive
              ex_cells_A (inv_alloc _ ex_short_inv) eq_refl ex_short_owns
              ltac:(vm_compute; lia))
    as (st' & Hrun & Hobj & Hheap & Hpool & _).
  rewrite Hrun. destruct st' as [o h p]. simpl in Hobj, Hheap, Hpool.
  by rewrite Hobj, Hheap, Hpool.
Defined.

(** X13: copy assignment from another list that has more elements than
    the allocator has free addresses throws, and both lists, every other
    list object and the heap are exactly as before the call (the strong
    guarantee); nothing stays allocated, only the order of the free
    addresses is reversed. *)
Theorem X13_assignment_failure_restores_state {T : Type} (d : T)
    (st : @state T) this rhs ct cr :
  alloc_ok st → owns st this ct → owns st rhs cr → this ≠ rhs →
  (length (free_pool st) < length cr)%nat →
  ∃ st', assign d this rhs st = Throw st'
    ∧ objects st' = objects st
    ∧ heap st' = heap st
    ∧ free_pool st' = rev (free_pool st)
    ∧ contents this st' = Ret ct.*2 st'
    ∧ GetSize this st' = Ret (Z.of_nat (length ct)) st'
    ∧ contents rhs st' = Ret cr.*2 st'.
Proof.
  intros Hok Ht Hr Hne Hlen.
  eexists. split.
  - unfold assign. rewrite bool_decide_eq_true_2 by done.
    apply with_local_ctor_Throw.
    apply SingleLinkedList_copy_throws with (cells := cr); [done| |done|done].
    apply fresh_object_unused.
  - do 3 (split; [done|]).
    assert (Ht' : owns (mkState (objects st) (heap st) (rev (free_pool st))) this ct)
      by (by eapply owns_frame).
    assert (Hr' : owns (mkState (objects st) (heap st) (rev (free_pool st))) rhs cr)
      by (by eapply owns_frame).
    split; [by apply contents_owns|]. split; [by apply GetSize_owns|].
    by apply contents_owns.
Qed.

Lemma X13_assignment_failure_restores_state_witness :
  alloc_ok ex_two_short ∧ owns ex_two_short 1%positive ex_cells_A
  ∧ owns ex_two_short 2%positive ex_cells_B ∧ 1%positive ≠ 2%positive
  ∧ (length (free_pool ex_two_short) < length ex_cells_B)%nat
  ∧ assign 0 1%positive 2%positive ex_two_short
      = Throw (mkState (objects ex_two) (heap ex_two) [18; 17]%positive).
Proof.
  split; [exact (inv_alloc _ ex_two_short_inv)|]. split; [exact ex_two_short_owns_A|].
  split; [exact ex_two_short_owns_B|]. split; [discriminate|].
  split; [vm_compute; lia|].
  destruct (X13_assignment_failure_restores_state 0 ex_two_short 1%positive 2%positive
              ex_cells_A ex_cells_B (inv_alloc _ ex_two_short_inv)
              ex_two_short_owns_A ex_two_short_owns_B ltac:(discriminate)
              ltac:(vm_compute; lia))
    as (st' & Hrun & Hobj & Hheap & Hpool & _).
  rewrite Hrun. destruct st' as [o h p]. simpl in Hobj, Hheap, Hpool.
  by rewrite Hobj, Hheap, Hpool.
Defined.

(** The initializer-list constructor with too few addresses left. *)
Lemma SingleLinkedList_init_throws {T : Type} (d : T)
    (st : @state T) this vs :
  alloc_ok st → objects st !! this = None →
  (length (free_pool st) < length vs)%nat →
  let kept := rev (zip (free_pool st) (rev vs)) in
  ∃ st', SingleLinkedList_init d this vs st = Throw st'
    ∧ objects st' = objects st
    ∧ free_pool st' = []
    ∧ chain (heap st') (first_ptr kept) kept
    ∧ kept.*1 = rev (free_pool st)
    ∧ (∀ x, x ∉ free_pool st → heap st' !! x = heap st !! x)
    ∧ alloc_ok st'.
Proof.
  intros Hok Hnone Hlen kept.
  destruct (init_members_frame d st this Hok Hnone)
    as (st0 & Hrun0 & Hobj0 & Hheap0 & Hp0 & Hstep0).
  pose proof Hstep0 as (Hok0 & Hown0 & _).
  destruct (PushFront_each_throw this (rev vs) st0 [] Hok0 Hown0)
    as (st1 & Hrun1 & Hp1 & Hstep1 & Hframe1).
  { rewrite Hp0, length_rev. lia. }
  rewrite app_nil_r, Hp0 in Hstep1. fold kept in Hstep1.
  destruct Hstep1 as (Hok1 & (hd & Ho1 & Hc1) & Hobj1 & _).
  eexists. split.
  { unfold SingleLinkedList_init. eapply bind_Ret_eq; [exact Hrun0|].
    by eapply ctor_body_Throw. }
  simpl. split; [|split; [done|split; [|split; [|split]]]]; [| | | |by eapply alloc_ok_same].
  - apply map_eq. intros i. destruct (decide (i = this)) as [->|Hi].
    + by rewrite lookup_delete_eq.
    + rewrite lookup_delete_ne by done. rewrite Hobj1 by done.
      rewrite Hobj0. by rewrite lookup_insert_ne.
  - replace (first_ptr kept) with (next_node hd); [done|].
    destruct kept as [|[a v] kept']; [done|]. by destruct Hc1 as (-> & _).
  - unfold kept. rewrite <- (fst_zip (free_pool st) (rev vs)) at 2
      by (rewrite length_rev; lia).
    generalize (zip (free_pool st) (rev vs)). intros l.
    induction l as [|c l IH]; [done|]. simpl. by rewrite fmap_app, IH.
  - intros x Hx. rewrite Hframe1 by (by rewrite Hp0). by rewrite Hheap0.
Qed.

(** X14: when the allocator has fewer free addresses than the
    initializer list has values, the initializer-list constructor throws
    and the object does not come into being; the nodes that were allocated
    before the failure are not deleted: they stay in the heap as a chain
    holding the last values of the list, no list object refers to them, and
    the allocator is left with no free address.  Every other heap node and
    every list object is as before. *)
Theorem X14_initializer_list_failure_keeps_nodes {T : Type} (d : T)
    (st : @state T) this vs :
  alloc_ok st → objects st !! this = None →
  (length (free_pool st) < length vs)%nat →
  let kept := rev (zip (free_pool st) (rev vs)) in
  ∃ st', SingleLinkedList_init d this vs st = Throw st'
    ∧ objects st' = objects st
    ∧ free_pool st' = []
    ∧ chain (heap st') (first_ptr kept) kept
    ∧ kept.*1 = rev (free_pool st)
    ∧ (∀ x, x ∉ free_pool st → heap st' !! x = heap st !! x).
Proof.
  intros Hok Hnone Hlen kept.
  destruct (SingleLinkedList_init_throws d st this vs Hok Hnone Hlen)
    as (st' & H1 & H2 & H3 & H4 & H5 & H6 & _).
  by exists st'.
Qed.

Lemma X14_initializer_list_failure_keeps_nodes_witness :
  alloc_ok ex_tiny ∧ objects ex_tiny !! 1%positive = None
  ∧ (length (free_pool ex_tiny) < length [1; 2; 3])%nat
  ∧ ∃ st', SingleLinkedList_init 0 1%positive [1; 2; 3] ex_tiny = Throw st'
           ∧ objects st' = ∅ ∧ free_pool st' = []
           ∧ chain (heap st') (node_at 11) [(11%positive, 2); (10%positive, 3)].
Proof.
  split; [exact (inv_alloc _ ex_tiny_inv)|]. split; [reflexivity|].
  split; [vm_compute; lia|].
  destruct (X14_initializer_list_failure_keeps_nodes 0 ex_tiny 1%positive [1; 2; 3]
              (inv_alloc _ ex_tiny_inv) eq_refl ltac:(vm_compute; lia))
    as (st' & Hrun & Hobj & Hpool & Hchain & _).
  exists st'. split; [exact Hrun|]. split; [exact Hobj|]. split; [exact Hpool|].
  exact Hchain.
Defined.

(** ** No node is lost *)

Section LeakFreedom.

Context {T : Type}.
Variable Type_default : T.

Implicit Types (h : gmap positive (@Node T)) (p q r : ptr).
Implicit Types (cells : list (positive * T)) (st : @state T).

Lemma no_leak_step st st' this cells cells' :
  state_inv st → no_leak st →
  (owns st this cells ∨ (objects st !! this = None ∧ cells = [])) →
  frame_step st st' this cells cells' → heap_step st st' cells cells' →
  no_leak st'.
Proof.
  intros Hinv Hnl Hthis Hstep Hheap x Hx.
  destruct (decide (x ∈ cells'.*1)) as [Hin|Hnotin].
  { exists this, cells'. split; [|done]. by destruct Hstep as (_ & ? & _). }
  rewrite (Hheap x Hnotin) in Hx.
  destruct (decide (x ∈ cells.*1)) as [Hold|Hold]; [by destruct Hx|].
  destruct (Hnl x Hx) as (l & c & Hl & Hxc).
  assert (Hne : l ≠ this).
  { intros ->. destruct Hthis as [Hown|[Hnone _]].
    - by rewrite (owns_det _ _ _ _ Hl Hown) in Hxc.
    - destruct Hl as (? & Ho & _). by rewrite Hnone in Ho. }
  exists l, c. split; [|done].
  eapply frame_step_other; [done|done|done|].
  destruct Hthis as [Hown|[_ ->]].
  - by eapply (inv_sep _ Hinv l this).
  - intros a _. apply not_elem_of_nil.
Qed.

Lemma heap_step_trans st st1 st2 this c0 c1 c2 :
  frame_step st st1 this c0 c1 → heap_step st st1 c0 c1 → heap_step st1 st2 c1 c2 →
  heap_step st st2 c0 c2.
Proof.
  intros (_ & _ & _ & _ & Hnew) H1 H2 x Hx. rewrite (H2 x Hx).
  destruct (decide (x ∈ c1.*1)) as [Hin|Hnotin].
  - destruct (decide (x ∈ c0.*1)); [done|]. by destruct (Hnew x Hin).
  - by apply H1.
Qed.

Lemma InsertAfter_at_exact st this cells k a pool v :
  alloc_ok st → owns st this cells → (k ≤ length cells)%nat →
  free_pool st = a :: pool →
  ∃ st', InsertAfter this (Iter (pos_ptr this cells k)) v st = Ret (Iter (node_at a)) st'
         ∧ free_pool st' = pool
         ∧ frame_step st st' this cells (take k cells ++ (a, v) :: drop k cells)
         ∧ heap_step st st' cells (take k cells ++ (a, v) :: drop k cells).
Proof.
  intros Hok Hown Hk Hp.
  destruct (InsertAfter_at st this cells k a pool v Hok Hown Hk Hp)
    as (st' & Hrun & Hp' & Hstep).
  exists st'. do 3 (split; [done|]).
  intros x Hx.
  assert (Hxa : x ≠ a).
  { intros ->. apply Hx. rewrite fmap_app, fmap_cons. apply elem_of_app. right.
    apply list_elem_of_here. }
  assert (Hxc : x ∉ cells.*1).
  { intros Hin. apply Hx. rewrite <- (take_drop k cells) in Hin.
    rewrite fmap_app in Hin. rewrite fmap_app, fmap_cons.
    apply elem_of_app in Hin as [Hin|Hin]; apply elem_of_app; [by left|right].
    by apply list_elem_of_further. }
  rewrite decide_False by done.
  pose proof Hown as (hd & Ho & Hc).
  pose proof (pool_head_unused _ _ _ Hok Hp) as Hfresh.
  destruct k as [|k].
  - cbn [pos_ptr] in Hrun.
    rewrite (InsertAfter_head_run st this _ a pool v Ho Hp) in Hrun.
    injection Hrun as <-. simpl. by rewrite lookup_insert_ne.
  - destruct (lookup_lt_is_Some_2 cells k) as [[b vb] Hb]; [lia|].
    cbn [pos_ptr] in Hrun. rewrite Hb in Hrun. simpl in Hrun.
    pose proof (chain_lookup _ _ _ _ _ _ Hc Hb) as Hhb.
    assert (Hab : a ≠ b) by (intros ->; by rewrite Hfresh in Hhb).
    assert (Hxb : x ≠ b).
    { intros ->. apply Hxc. apply list_elem_of_fmap. exists (b, vb). split; [done|].
      by eapply list_elem_of_lookup_2. }
    rewrite (InsertAfter_node_run st this _ b _ a pool v Ho Hhb Hp Hab) in Hrun.
    injection Hrun as <-. simpl. by rewrite !lookup_insert_ne.
Qed.

Lemma delete_fst_elem cells k a x y :
  NoDup cells.*1 → cells !! k = Some (a, x) →
  y ∈ cells.*1 → y ∉ (delete k cells).*1 → y = a.
Proof.
  intros Hnd Hk Hin Hnot. apply list_elem_of_fmap in Hin as ([b vb] & -> & Hin).
  apply list_elem_of_lookup_1 in Hin as (i & Hi). simpl.
  destruct (decide (i = k)) as [->|Hne]; [by rewrite Hk in Hi; injection Hi as ->|].
  exfalso. apply Hnot. apply list_elem_of_fmap. exists (b, vb). split; [done|].
  destruct (decide (i < k)%nat).
  - apply (list_elem_of_lookup_2 _ i). by rewrite list_lookup_delete_lt.
  - apply (list_elem_of_lookup_2 _ (pred i)). rewrite list_lookup_delete_ge by lia.
    by replace (S (pred i)) with i by lia.
Qed.

Lemma EraseAfter_at_exact st this cells k a x :
  alloc_ok st → owns st this cells → cells !! k = Some (a, x) →
  ∃ st', EraseAfter this (Iter (pos_ptr this cells k)) st
           = Ret (Iter (first_ptr (drop (S k) cells))) st'
         ∧ free_pool st' = a :: free_pool st
         ∧ frame_step st st' this cells (delete k cells)
         ∧ heap_step st st' cells (delete k cells).
Proof.
  intros Hok Hown Hk.
  destruct (EraseAfter_at_named st this cells k a x Hok Hown Hk)
    as (st' & Hrun & Hp' & Hstep).
  exists st'. do 3 (split; [done|]).
  pose proof Hown as (hd & Ho & Hc).
  pose proof (chain_NoDup _ _ _ Hc) as Hnd.
  pose proof (chain_lookup _ _ _ _ _ _ Hc Hk) as Hha.
  intros y Hy.
  destruct (decide (y ∈ cells.*1)) as [Hin|Hnotin].
  { rewrite (delete_fst_elem cells k a x y Hnd Hk Hin Hy).
    destruct Hstep as (Hok' & _). apply (pool_unused _ Hok'). rewrite Hp'.
    apply list_elem_of_here. }
  assert (Hya : y ≠ a).
  { intros ->. apply Hnotin. apply list_elem_of_fmap. exists (a, x). split; [done|].
    by eapply list_elem_of_lookup_2. }
  destruct k as [|k].
  - destruct cells as [|[a' x'] cells]; [done|]. injection Hk as -> ->.
    destruct Hc as (Hnext & r & Hr & _). simpl in Hnext, Hr.
    cbn [pos_ptr] in Hrun.
    rewrite (EraseAfter_head_run st this _ a _ Ho Hnext Hr) in Hrun.
    apply (f_equal (λ o, match o with Ret _ s => heap s | _ => ∅ end)) in Hrun.
    simpl in Hrun. rewrite <- Hrun. by rewrite lookup_delete_ne.
  - destruct (lookup_lt_is_Some_2 cells k) as [[b vb] Hb].
    { apply lookup_lt_Some in Hk. lia. }
    cbn [pos_ptr] in Hrun. rewrite Hb in Hrun. simpl in Hrun.
    pose proof (chain_lookup _ _ _ _ _ _ Hc Hb) as Hhb.
    assert (Hnb : first_ptr (drop (S k) cells) = node_at a).
    { rewrite first_ptr_drop. simpl. by rewrite Hk. }
    assert (Hab : a ≠ b).
    { intros ->. assert (Hkk : cells.*1 !! k = Some b) by (by rewrite list_lookup_fmap, Hb).
      assert (Hkk' : cells.*1 !! S k = Some b) by (by rewrite list_lookup_fmap, Hk).
      pose proof (NoDup_lookup _ _ _ _ Hnd Hkk Hkk'). lia. }
    assert (Hyb : y ≠ b).
    { intros ->. apply Hnotin. apply list_elem_of_fmap. exists (b, vb). split; [done|].
      by eapply list_elem_of_lookup_2. }
    rewrite (EraseAfter_node_run st this _ b _ a _ Ho Hhb Hnb Hha Hab) in Hrun.
    apply (f_equal (λ o, match o with Ret _ s => heap s | _ => ∅ end)) in Hrun.
    simpl in Hrun. rewrite <- Hrun. rewrite lookup_insert_ne by done.
    by rewrite lookup_delete_ne.
Qed.

Lemma store_value_exact st this cells k a old v :
  alloc_ok st → owns st this cells → cells !! k = Some (a, old) →
  ∃ st', store_value (node_at a) v st = Ret tt st'
         ∧ frame_step st st' this cells (<[k := (a, v)]> cells)
         ∧ heap_step st st' cells (<[k := (a, v)]> cells).
Proof.
  intros Hok Hown Hk.
  destruct (store_value_owns st this cells k a old v Hok Hown Hk) as (st' & Hrun & Hstep).
  exists st'. do 2 (split; [done|]).
  pose proof Hown as (hd & Ho & Hc).
  pose proof (chain_lookup _ _ _ _ _ _ Hc Hk) as Hha.
  assert (Hfst : (<[k := (a, v)]> cells).*1 = cells.*1).
  { rewrite list_fmap_insert. simpl. apply list_insert_id.
    by rewrite list_lookup_fmap, Hk. }
  intros y Hy. rewrite Hfst in Hy. rewrite decide_False by done.
  assert (Hya : y ≠ a).
  { intros ->. apply Hy. apply list_elem_of_fmap. exists (a, old). split; [done|].
    by eapply list_elem_of_lookup_2. }
  revert Hrun. unfold store_value. rewrite Hha. intros [= <-]. simpl.
  by rewrite lookup_insert_ne.
Qed.

Lemma Clear_exact st this cells :
  alloc_ok st → owns st this cells →
  ∃ st', Clear this st = Ret tt st' ∧ frame_step st st' this cells []
         ∧ heap_step st st' cells [].
Proof.
  intros Hok Hown.
  destruct (Clear_frame st this cells Hok Hown) as (st' & Hrun & Hstep).
  exists st'. do 2 (split; [done|]).
  destruct Hown as (hd & Ho & Hc).
  destruct (Clear_full st this hd _ cells Ho Hc) as (st2 & Hrun2 & _ & Hheap & _).
  rewrite Hrun in Hrun2. injection Hrun2 as <-. intros x _. apply Hheap.
Qed.

(** A mutator that returns has kept the frame and the heap account. *)
Lemma run_mutation_exact st this m st' :
  state_inv st → run_mutation this m st = Ret tt st' →
  ∃ cells cells', owns st this cells ∧ frame_step st st' this cells cells'
                  ∧ heap_step st st' cells cells'.
Proof.
  intros Hinv. pose proof (inv_alloc _ Hinv) as Hok.
  pose proof (run_mutation_outcome st this m Hinv) as Hout. intros Hrun.
  rewrite Hrun in Hout. destruct Hout as (cells & _ & Hown & _).
  exists cells. revert Hrun.
  destruct m as [v| |k v|k| |k v]; cbn [run_mutation].
  - destruct (free_pool st) as [|a pool] eqn:Hp.
    + destruct Hown as (hd & Ho & _).
      unfold PushFront, load, new_Node. unfold_monad. by rewrite Ho, Hp.
    + destruct (InsertAfter_at_exact st this cells 0 a pool v Hok Hown) as
        (st1 & Hrun1 & _ & Hstep & Hheap); [lia|done|].
      destruct (InsertAfter_head_owns st this cells a pool v Hok Hown Hp)
        as (st2 & Hrun2 & -> & _).
      cbn [pos_ptr] in Hrun1. rewrite Hrun1 in Hrun2. injection Hrun2 as <-.
      intros [= <-]. by exists ((a, v) :: cells).
  - destruct cells as [|[a va] cells].
    + destruct Hown as (hd & Ho & _). unfold PopFront, IsEmpty, get_size.
      unfold_monad. rewrite Ho. done.
    + destruct (EraseAfter_at_exact st this ((a, va) :: cells) 0 a va Hok Hown eq_refl)
        as (st1 & Hrun1 & _ & Hstep & Hheap).
      destruct (PopFront_owns st this a va cells Hok Hown) as (st2 & -> & Hrun2 & _).
      cbn [pos_ptr] in Hrun1. rewrite Hrun1 in Hrun2. injection Hrun2 as <-.
      intros [= <-]. by exists cells.
  - destruct (decide (k ≤ length cells)%nat) as [Hk|Hk].
    + unfold_monad.
      rewrite (advance_from_before_begin st this cells k Hown) by lia. simpl.
      destruct (free_pool st) as [|a pool] eqn:Hp.
      * by rewrite (InsertAfter_throw st this cells k v Hown Hk Hp).
      * destruct (InsertAfter_at_exact st this cells k a pool v Hok Hown Hk Hp)
          as (st1 & -> & _ & Hstep & Hheap). intros [= <-]. by eexists.
    + unfold_monad. destruct (decide (k = S (length cells))) as [->|Hk'].
      * rewrite (advance_from_before_begin st this cells _ Hown) by lia. simpl.
        by rewrite lookup_ge_None_2.
      * rewrite (advance_beyond_end st this cells k Hown) by lia. done.
  - destruct (cells !! k) as [[a x]|] eqn:Hlk.
    + unfold_monad.
      rewrite (advance_from_before_begin st this cells k Hown)
        by (apply lookup_lt_Some in Hlk; lia).
      simpl.
      destruct (EraseAfter_at_exact st this cells k a x Hok Hown Hlk)
        as (st1 & -> & _ & Hstep & Hheap). intros [= <-]. by eexists.
    + apply lookup_ge_None_1 in Hlk.
      unfold_monad. destruct (decide (k ≤ S (length cells))%nat) as [Hk'|Hk'].
      * rewrite (advance_from_before_begin st this cells k Hown) by lia. simpl.
        destruct (decide (k = length cells)) as [->|Hk''].
        -- by rewrite (EraseAfter_last st this cells Hown).
        -- assert (k = S (length cells)) as -> by lia. simpl. by rewrite lookup_ge_None_2.
      * rewrite (advance_beyond_end st this cells k Hown) by lia. done.
  - destruct (Clear_exact st this cells Hok Hown) as (st1 & -> & Hstep & Hheap).
    intros [= <-]. by eexists.
  - unfold_monad. rewrite (begin_owns st this cells Hown).
    change (Iter (first_ptr cells)) with (Iter (first_ptr (drop 0 cells))).
    rewrite (first_ptr_drop cells 0), (pos_ptr_S 1%positive this).
    destruct (decide (k ≤ length cells)%nat) as [Hk|Hk].
    + rewrite (advance_pos st this cells 1 k Hown) by lia. simpl.
      destruct (cells !! k) as [[a old]|] eqn:Hlk; simpl.
      * destruct (store_value_exact st this cells k a old v Hok Hown Hlk)
          as (st1 & Hrun1 & Hstep & Hheap).
        unfold iter_assign. unfold_monad. cbn [node_].
        rewrite bool_decide_eq_false_2 by done. cbn [negb]. unfold_monad.
        rewrite Hrun1. intros [= <-]. by eexists.
      * done.
    + rewrite (advance_beyond st this cells k 1 Hown) by lia. done.
Qed.

Lemma no_leak_same_heap st st' :
  no_leak st → heap st' = heap st →
  (∀ l c, owns st l c → ∃ l', owns st' l' c) →
  no_leak st'.
Proof.
  intros Hnl Hheap Hkeep x Hx. rewrite Hheap in Hx.
  destruct (Hnl x Hx) as (l & c & Hl & Hxc).
  destruct (Hkeep l c Hl) as (l' & Hl'). by exists l', c.
Qed.

Lemma default_no_leak st this st' :
  state_inv st → no_leak st →
  SingleLinkedList_default Type_default this st = Ret tt st' → no_leak st'.
Proof.
  intros Hinv Hnl Hrun.
  destruct (default_outcome Type_default st this st' Hinv Hrun) as (Hnone & Hstep).
  eapply no_leak_step; [done|done|by right|done|].
  unfold SingleLinkedList_default, init_members in Hrun. rewrite Hnone in Hrun.
  injection Hrun as <-. intros x _. by rewrite decide_False by apply not_elem_of_nil.
Qed.

Lemma PushFront_each_exact this vs : ∀ st cells st',
  alloc_ok st → owns st this cells → PushFront_each this vs st = Ret tt st' →
  ∃ cells', frame_step st st' this cells cells' ∧ heap_step st st' cells cells'.
Proof.
  induction vs as [|v vs IH]; intros st cells st' Hok Hown Hrun.
  - injection Hrun as <-. exists cells. split.
    + split; [done|]. split; [done|]. split; [done|]. split; [done|]. by left.
    + intros x Hx. by rewrite decide_False.
  - cbn [PushFront_each] in Hrun. destruct (free_pool st) as [|a pool] eqn:Hp.
    { exfalso. revert Hrun. destruct Hown as (hd & Ho & _).
      unfold PushFront, load, new_Node. unfold_monad. by rewrite Ho, Hp. }
    destruct (InsertAfter_at_exact st this cells 0 a pool v Hok Hown) as
      (st1 & Hrun1 & _ & Hstep1 & Hheap1); [lia|done|].
    destruct (InsertAfter_head_owns st this cells a pool v Hok Hown Hp)
      as (st2 & Hrun2 & Hpush & _).
    cbn [pos_ptr] in Hrun1. rewrite Hrun1 in Hrun2. injection Hrun2 as <-.
    rewrite take_0, drop_0 in Hstep1, Hheap1. simpl in Hstep1, Hheap1.
    unfold mbind, M_bind in Hrun. rewrite Hpush in Hrun.
    pose proof Hstep1 as (Hok1 & Hown1 & _).
    destruct (IH st1 ((a, v) :: cells) st' Hok1 Hown1 Hrun) as (cells' & Hstep & Hheap).
    exists cells'. split; [by eapply frame_step_trans|by eapply heap_step_trans].
Qed.

Lemma init_no_leak st this vs st' :
  state_inv st → no_leak st →
  SingleLinkedList_init Type_default this vs st = Ret tt st' → no_leak st'.
Proof.
  intros Hinv Hnl Hrun. pose proof (inv_alloc _ Hinv) as Hok.
  destruct (init_outcome Type_default st this vs st' Hinv Hrun) as (Hnone & _).
  destruct (init_members_frame Type_default st this Hok Hnone)
    as (st0 & Hrun0 & _ & Hheap0 & _ & Hstep0).
  pose proof Hstep0 as (Hok0 & Hown0 & _).
  unfold SingleLinkedList_init in Hrun. unfold mbind, M_bind in Hrun.
  rewrite Hrun0 in Hrun. unfold ctor_body in Hrun.
  destruct (PushFront_each this (rev vs) st0) as [[] s|s| |] eqn:Hbody;
    [|by destruct (release_members this s)|done|done].
  injection Hrun as ->.
  destruct (PushFront_each_exact this (rev vs) st0 [] st' Hok0 Hown0 Hbody)
    as (cells' & Hstep & Hheap).
  eapply (no_leak_step st st' this [] cells'); [done|done|by right| |].
  - by eapply frame_step_trans.
  - eapply heap_step_trans; [exact Hstep0| |exact Hheap].
    intros x _. rewrite Hheap0. by rewrite decide_False by apply not_elem_of_nil.
Qed.

Lemma copy_no_leak st this other st' :
  state_inv st → no_leak st →
  SingleLinkedList_copy Type_default this other st = Ret tt st' → no_leak st'.
Proof.
  intros Hinv Hnl Hrun. pose proof (inv_alloc _ Hinv) as Hok.
  destruct (copy_outcome Type_default st this other st' Hinv Hrun)
    as (Hnone & cells' & Hstep).
  eapply (no_leak_step st st' this [] cells'); [done|done|by right|done|].
  intros x Hx. rewrite decide_False by apply not_elem_of_nil.
  destruct (objects st !! other) as [oo|] eqn:Hother.
  - destruct (inv_owns _ Hinv other) as (cells & Hown); [by eexists|].
    destruct (decide (length cells ≤ length (free_pool st))%nat) as [Hlen|Hlen].
    + destruct (SingleLinkedList_copy_exact Type_default st this other cells
                  Hok Hnone Hown Hlen) as (st2 & Hrun2 & _ & Hstep2 & Hheap2).
      rewrite Hrun2 in Hrun. injection Hrun as <-.
      apply Hheap2.
      destruct Hstep as (_ & Hown' & _). destruct Hstep2 as (_ & Hown2 & _).
      rewrite (owns_det _ _ _ _ Hown' Hown2) in Hx.
      rewrite fst_zip in Hx; [done|]. rewrite length_fmap, length_take. lia.
    + rewrite (SingleLinkedList_copy_throws Type_default st this other cells
                 Hok Hnone Hown) in Hrun by lia. done.
  - destruct (decide (is_Some (heap st !! x))) as [Hs|Hn].
    + destruct Hstep as (_ & _ & _ & Hframe & _). apply Hframe; [|done].
      apply not_elem_of_nil.
    + apply eq_None_not_Some in Hn. rewrite Hn.
      destruct (heap st' !! x) eqn:Hx'; [|done]. exfalso.
      set (L0 := mkList (mkNode Type_default nullptr) 0) in *.
      set (st0 := mkState (<[this := L0]> (objects st)) (heap st) (free_pool st)).
      set (temp := fresh (dom (objects st0))).
      destruct (decide (other = this ∨ other = temp)) as [Hwhich|Hwhich].
      * rewrite copy_unborn_run in Hrun by done. injection Hrun as <-.
        simpl in Hx'. by rewrite Hn in Hx'.
      * assert (Htemp0 : objects st0 !! temp = None) by apply fresh_object_unused.
        set (st1 := mkState (<[temp := L0]> (objects st0)) (heap st) (free_pool st)).
        apply Ret_returns in Hrun. revert Hrun.
        eapply not_returns_bind.
        { unfold init_members. rewrite Hnone. fold L0. fold st0. reflexivity. }
        apply not_returns_ctor_body.
        eapply not_returns_bind; [apply (get_size_run st0 this L0); apply lookup_insert_eq|].
        eapply not_returns_bind; [apply (load_head_run st0 this L0); apply lookup_insert_eq|].
        eapply not_returns_bind; [reflexivity|].
        eapply not_returns_with_local.
        { unfold SingleLinkedList_default, init_members. fold temp. rewrite Htemp0.
          fold L0. fold st1. reflexivity. }
        apply not_returns_bind_fail. unfold begin, cbegin, load. unfold_monad. simpl.
        rewrite !lookup_insert_ne by (intros ->; apply Hwhich; (by left) || (by right)).
        rewrite Hother. apply not_returns_Undefined.
Qed.

Lemma Swap_no_leak st this other st' :
  state_inv st → no_leak st → Swap this other st = Ret tt st' → no_leak st'.
Proof.
  intros Hinv Hnl Hrun.
  destruct (Swap_outcome st this other st' Hinv Hrun) as (_ & ct & co & Hct & Hco & _).
  destruct (Swap_inv st this other ct co Hinv Hct Hco)
    as (st2 & Hrun2 & _ & Hthis & Hother & Hheap & _ & Hobj).
  rewrite Hrun2 in Hrun. injection Hrun as <-.
  eapply no_leak_same_heap; [done|done|].
  intros l c Hl.
  destruct (decide (l = this)) as [->|Hlt].
  { exists other. by rewrite (owns_det _ _ _ _ Hl Hct). }
  destruct (decide (l = other)) as [->|Hlo].
  { exists this. by rewrite (owns_det _ _ _ _ Hl Hco). }
  exists l. eapply owns_frame; [done|by apply Hobj|]. intros a _. by rewrite Hheap.
Qed.

Lemma destroy_live_no_leak st this cells st' :
  state_inv st → no_leak st → owns st this cells →
  SingleLinkedList_destroy this st = Ret tt st' → no_leak st'.
Proof.
  intros Hinv Hnl Hown Hrun.
  destruct (destroy_effect st this cells Hinv Hown)
    as (st2 & Hrun2 & _ & Hheap & _ & _ & Hkeep).
  rewrite Hrun2 in Hrun. injection Hrun as <-.
  intros x Hx. rewrite Hheap in Hx.
  destruct (decide (x ∈ cells.*1)) as [Hin|Hnotin]; [by destruct Hx|].
  destruct (Hnl x Hx) as (l & c & Hl & Hxc).
  exists l, c. split; [|done]. apply Hkeep; [|done].
  intros ->. by rewrite (owns_det _ _ _ _ Hl Hown) in Hxc.
Qed.

Lemma destroy_no_leak st this st' :
  state_inv st → no_leak st →
  SingleLinkedList_destroy this st = Ret tt st' → no_leak st'.
Proof.
  intros Hinv Hnl Hrun.
  destruct (objects st !! this) as [o|] eqn:Hlive.
  - destruct (inv_owns _ Hinv this) as (cells & Hown); [by eexists|].
    by eapply destroy_live_no_leak.
  - exfalso. revert Hrun. unfold SingleLinkedList_destroy, Clear, loop_fuel.
    unfold_monad. cbn [Clear_loop]. unfold load. unfold_monad. by rewrite Hlive.
Qed.

Lemma assign_no_leak st this rhs st' :
  state_inv st → no_leak st →
  assign Type_default this rhs st = Ret tt st' → no_leak st'.
Proof.
  intros Hinv Hnl Hrun. unfold assign in Hrun.
  destruct (decide (this = rhs)) as [<-|Hne].
  - rewrite bool_decide_eq_false_2 in Hrun by (intros H; by apply H).
    by injection Hrun as <-.
  - rewrite bool_decide_eq_true_2 in Hrun by done.
    set (temp := fresh (dom (objects st))) in *.
    assert (Htemp : objects st !! temp = None) by apply fresh_object_unused.
    unfold with_local in Hrun. fold temp in Hrun.
    destruct (SingleLinkedList_copy Type_default temp rhs st) as [[] st1|?| |] eqn:Hcopy;
      [|done..].
    destruct (copy_outcome Type_default st temp rhs st1 Hinv Hcopy) as (_ & cn & Hstep1).
    pose proof (frame_step_inv _ _ _ _ _ Hinv (or_intror (conj Htemp eq_refl)) Hstep1) as Hinv1.
    pose proof (copy_no_leak st temp rhs st1 Hinv Hnl Hcopy) as Hnl1.
    destruct (Swap this temp st1) as [[] st2|s| |] eqn:Hswap; [| |done|done].
    2:{ by destruct (SingleLinkedList_destroy temp s). }
    destruct (Swap_outcome st1 this temp st2 Hinv1 Hswap)
      as (Hinv2 & ct & co & _ & _ & _ & Htemp2).
    pose proof (Swap_no_leak st1 this temp st2 Hinv1 Hnl1 Hswap) as Hnl2.
    destruct (SingleLinkedList_destroy temp st2) as [[] st3|?| |] eqn:Hd; [|done..].
    injection Hrun as <-. by eapply destroy_live_no_leak.
Qed.

(** Every public operation that returns keeps the heap accounted for. *)
Lemma run_op_no_leak st this op st' :
  state_inv st → no_leak st → run_op Type_default this op st = Ret tt st' → no_leak st'.
Proof.
  intros Hinv Hnl Hrun. destruct op as [|vs|other|m|other|rhs]; cbn [run_op] in Hrun.
  - by eapply default_no_leak.
  - by eapply init_no_leak.
  - by eapply copy_no_leak.
  - destruct (run_mutation_exact st this m st' Hinv Hrun) as (c & c' & Hown & Hstep & Hheap).
    eapply no_leak_step; [done|done|by left|done|done].
  - by eapply Swap_no_leak.
  - by eapply assign_no_leak.
Qed.

End LeakFreedom.

Lemma no_leak_fresh {T : Type} (pool : list positive) : no_leak (@mkState T ∅ ∅ pool).
Proof. intros x Hx. simpl in Hx. rewrite lookup_empty in Hx. by destruct Hx. Qed.

Lemma ex_one_no_leak : no_leak ex_one.
Proof.
  apply (run_op_no_leak 0 ex_empty 1%positive (OpInit [1; 2; 3]) ex_one ex_empty_inv).
  - apply no_leak_fresh.
  - by vm_compute.
Qed.

Lemma ex_two_no_leak : no_leak ex_two.
Proof.
  apply (run_op_no_leak 0 ex_one 2%positive (OpInit [1; 2; 3; 4]) ex_two ex_one_inv).
  - apply ex_one_no_leak.
  - by vm_compute.
Qed.

(** X15: no operation that returns loses a node.  In a well-formed state
    in which every allocated node belongs to the chain of a live list, the
    same holds after any public operation that returns (the constructors,
    the mutators at any position, writing through an iterator, [Swap],
    copy assignment) and after the destructor: whatever a list no longer
    holds has been deleted. *)
Theorem X15_completed_operations_do_not_leak {T : Type} (d : T) (st : @state T) this :
  state_inv st → no_leak st →
  (∀ op st', run_op d this op st = Ret tt st' → state_inv st' ∧ no_leak st')
  ∧ (∀ st', SingleLinkedList_destroy this st = Ret tt st' → no_leak st').
Proof.
  intros Hinv Hnl. split.
  - intros op st' Hrun. split; [by eapply run_op_inv|by eapply run_op_no_leak].
  - intros st' Hrun. by eapply destroy_no_leak.
Qed.

Lemma X15_completed_operations_do_not_leak_witness :
  state_inv ex_two ∧ no_leak ex_two
  ∧ ∃ st', run_op 0 1%positive (OpMutate (MutEraseAfter 1)) ex_two = Ret tt st'
           ∧ no_leak st' ∧ heap st' !! 11%positive = None.
Proof.
  split; [exact ex_two_inv|]. split; [exact ex_two_no_leak|].
  eexists. split; [vm_compute; reflexivity|].
  split; [|reflexivity].
  apply (proj1 (X15_completed_operations_do_not_leak 0 ex_two 1%positive
                  ex_two_inv ex_two_no_leak) (OpMutate (MutEraseAfter 1))).
  vm_compute. reflexivity.
Defined.

(** ** Functions declared noexcept *)

Section NoThrow.

Context {T : Type}.

Implicit Types (p q : ptr) (st : @state T).

Lemma never_throws_bind {A B} (m : @M T A) (k : A → M B) :
  never_throws m → (∀ a, never_throws (k a)) → never_throws (m ≫= k).
Proof.
  intros Hm Hk st st'. unfold mbind, M_bind.
  destruct (m st) as [a s|s| |] eqn:Hr; [apply Hk| |done|done].
  by destruct (Hm st s).
Qed.

Lemma never_throws_ret {A} (a : A) : never_throws (mret a : @M T A).
Proof. by intros st st'. Qed.

Lemma never_throws_assert b : never_throws (@assert T b).
Proof. intros st st'. by destruct b. Qed.

Lemma never_throws_load p : never_throws (@load T p).
Proof. intros st st'. unfold load. by repeat case_match. Qed.

Lemma never_throws_store_next p q : never_throws (@store_next T p q).
Proof. intros st st'. unfold store_next. by repeat case_match. Qed.

Lemma never_throws_get_size l : never_throws (@get_size T l).
Proof. intros st st'. unfold get_size. by repeat case_match. Qed.

Lemma never_throws_set_size l z : never_throws (@set_size T l z).
Proof. intros st st'. unfold set_size. by repeat case_match. Qed.

Lemma never_throws_delete_Node p : never_throws (@delete_Node T p).
Proof. intros st st'. unfold delete_Node. by repeat case_match. Qed.

Lemma never_throws_release_members l : never_throws (@release_members T l).
Proof. intros st st'. unfold release_members. by repeat case_match. Qed.

Lemma never_throws_loop_fuel : never_throws (@loop_fuel T).
Proof. by intros st st'. Qed.

Ltac no_throw :=
  repeat first
    [ apply never_throws_ret | apply never_throws_assert | apply never_throws_load
    | apply never_throws_store_next | apply never_throws_get_size
    | apply never_throws_set_size | apply never_throws_delete_Node
    | apply never_throws_release_members | apply never_throws_loop_fuel
    | apply never_throws_bind; [|intros ?] ].

Lemma never_throws_Clear_loop fuel this : never_throws (@Clear_loop T fuel this).
Proof.
  induction fuel as [|fuel IH]; [by intros st st'|].
  cbn [Clear_loop]. apply never_throws_bind; [no_throw|]. intros hd.
  destruct (bool_decide (next_node hd = nullptr)); no_throw. exact IH.
Qed.

Lemma never_throws_Clear this : never_throws (@Clear T this).
Proof. unfold Clear. no_throw. apply never_throws_Clear_loop. Qed.

Lemma never_throws_Swap this other : never_throws (@Swap T this other).
Proof. unfold Swap. no_throw. Qed.

Lemma never_throws_destroy this : never_throws (@SingleLinkedList_destroy T this).
Proof.
  unfold SingleLinkedList_destroy.
  apply never_throws_bind; [apply never_throws_Clear|].
  intros _. apply never_throws_release_members.
Qed.

End NoThrow.

(** X16: the functions the class declares noexcept let no exception out,
    in any state and for any argument: they read and write nodes and
    delete them, and none of them allocates.  The same holds for the
    destructor. *)
Theorem X16_noexcept_functions_never_throw {T : Type} (this other : positive)
    (pos it : BasicIterator) :
  never_throws (@GetSize T this)
  ∧ never_throws (@IsEmpty T this)
  ∧ never_throws (@Clear T this)
  ∧ never_throws (@PopFront T this)
  ∧ never_throws (@EraseAfter T this pos)
  ∧ never_throws (@Swap T this other)
  ∧ never_throws (@Swap_free T this other)
  ∧ never_throws (@begin T this)
  ∧ never_throws (@cbegin T this)
  ∧ never_throws (@iter_incr T it)
  ∧ never_throws (@iter_post_incr T it)
  ∧ never_throws (@iter_deref T it)
  ∧ never_throws (@SingleLinkedList_destroy T this).
Proof.
  repeat split.
  - apply never_throws_get_size.
  - unfold IsEmpty. apply never_throws_bind; [apply never_throws_get_size|].
    intros n. apply never_throws_ret.
  - apply never_throws_Clear.
  - unfold PopFront, IsEmpty.
    repeat first
      [ apply never_throws_ret | apply never_throws_assert | apply never_throws_load
      | apply never_throws_store_next | apply never_throws_get_size
      | apply never_throws_set_size | apply never_throws_delete_Node
      | apply never_throws_bind; [|intros ?] ].
  - unfold EraseAfter.
    repeat first
      [ apply never_throws_ret | apply never_throws_assert | apply never_throws_load
      | apply never_throws_store_next | apply never_throws_get_size
      | apply never_throws_set_size | apply never_throws_delete_Node
      | apply never_throws_bind; [|intros ?] ].
  - apply never_throws_Swap.
  - apply never_throws_Swap.
  - unfold begin, cbegin. apply never_throws_bind; [apply never_throws_load|].
    intros n. apply never_throws_ret.
  - unfold cbegin. apply never_throws_bind; [apply never_throws_load|].
    intros n. apply never_throws_ret.
  - unfold iter_incr.
    repeat first
      [ apply never_throws_ret | apply never_throws_assert | apply never_throws_load
      | apply never_throws_bind; [|intros ?] ].
  - unfold iter_post_incr.
    repeat first
      [ apply never_throws_ret | apply never_throws_assert | apply never_throws_load
      | apply never_throws_bind; [|intros ?] ].
  - unfold iter_deref.
    repeat first
      [ apply never_throws_ret | apply never_throws_assert | apply never_throws_load
      | apply never_throws_bind; [|intros ?] ].
  - apply never_throws_destroy.
Qed.

(** ** What an exception leaves behind *)

Section Exceptions.

Context {T : Type}.
Variable Type_default : T.

Implicit Types (h : gmap positive (@Node T)) (p q r : ptr).
Implicit Types (cells : list (positive * T)) (st : @state T).

Lemma elem_of_rev {A} (l : list A) x : x ∈ rev l ↔ x ∈ l.
Proof. rewrite !list_elem_of_In. symmetry. apply in_rev. Qed.

Lemma alloc_ok_rev_pool st :
  alloc_ok st → alloc_ok (mkState (objects st) (heap st) (rev (free_pool st))).
Proof.
  intros [Hnd Hun Hpb Hhb]. constructor; simpl.
  - by rewrite <- (Permutation_rev (free_pool st)).
  - intros a Ha. apply Hun. by apply elem_of_rev.
  - intros a Ha. apply Hpb. by apply elem_of_rev.
  - done.
Qed.

(** A state with the same list objects in which every node that was
    allocated is unchanged has the same lists. *)
Lemma state_inv_same_lists st st' :
  state_inv st → alloc_ok st' → objects st' = objects st →
  (∀ x, is_Some (heap st !! x) → heap st' !! x = heap st !! x) →
  state_inv st' ∧ ∀ l c, owns st l c → owns st' l c.
Proof.
  intros Hinv Hok' Hobj Hheap.
  assert (Hkeep : ∀ l c, owns st l c → owns st' l c).
  { intros l c Hl. eapply owns_frame; [done|by rewrite Hobj|].
    intros a Ha. apply Hheap. destruct Hl as (hd & _ & Hc). by eapply seg_allocated. }
  split; [|done].
  assert (Hback : ∀ l c, owns st' l c → owns st l c).
  { intros l c Hl. destruct (inv_owns _ Hinv l) as (c0 & Hc0).
    { destruct Hl as (hd & Ho & _). rewrite Hobj in Ho. by eexists. }
    by rewrite (owns_det _ _ _ _ Hl (Hkeep _ _ Hc0)). }
  constructor.
  - done.
  - intros l Hl. rewrite Hobj in Hl. destruct (inv_owns _ Hinv l Hl) as (c & Hc).
    exists c. by apply Hkeep.
  - intros l1 l2 c1 c2 Hne H1 H2. eapply (inv_sep _ Hinv l1 l2); [done| |]; by apply Hback.
Qed.

Lemma bind_Undefined_eq {A B} (m : M A) (k : A → M B) st :
  m st = Undefined → (m ≫= k) st = Undefined.
Proof. intros H. unfold mbind, M_bind. by rewrite H. Qed.

Lemma with_local_body_Undefined {A} (ctor : positive → M unit) (body : positive → M A)
    st st1 :
  ctor (fresh (dom (objects st))) st = Ret tt st1 →
  body (fresh (dom (objects st))) st1 = Undefined →
  with_local ctor body st = Undefined.
Proof. intros H1 H2. unfold with_local. by rewrite H1, H2. Qed.

(** Copying from storage that holds no list is undefined, the two cells
    apart that the constructor has itself initialised by then. *)
Lemma copy_dead_source st this other :
  objects st !! this = None → objects st !! other = None →
  ¬ (other = this
     ∨ other = fresh (dom (<[this := mkList (mkNode Type_default nullptr) 0]> (objects st)))) →
  SingleLinkedList_copy Type_default this other st = Undefined.
Proof.
  intros Hnone Hother Hwhich.
  set (L0 := mkList (mkNode Type_default nullptr) 0) in *.
  set (st0 := mkState (<[this := L0]> (objects st)) (heap st) (free_pool st)).
  set (temp := fresh (dom (objects st0))).
  assert (Htemp0 : objects st0 !! temp = None) by apply fresh_object_unused.
  set (st1 := mkState (<[temp := L0]> (objects st0)) (heap st) (free_pool st)).
  change (¬ (other = this ∨ other = temp)) in Hwhich.
  unfold SingleLinkedList_copy.
  eapply bind_Ret_eq.
  { unfold init_members. rewrite Hnone. fold L0. fold st0. reflexivity. }
  match goal with |- ctor_body _ ?b _ = _ => assert (Hb : b st0 = Undefined) end.
  { eapply bind_Ret_eq; [apply (get_size_run st0 this L0); apply lookup_insert_eq|].
    eapply bind_Ret_eq; [apply (load_head_run st0 this L0); apply lookup_insert_eq|].
    eapply bind_Ret_eq; [reflexivity|].
    eapply with_local_body_Undefined.
    - unfold SingleLinkedList_default, init_members. fold temp. rewrite Htemp0.
      fold L0. fold st1. reflexivity.
    - fold temp. apply bind_Undefined_eq.
      unfold begin, cbegin, load. unfold_monad. simpl.
      rewrite !lookup_insert_ne by (intros ->; apply Hwhich; (by left) || (by right)).
      by rewrite Hother. }
  unfold ctor_body. by rewrite Hb.
Qed.

Lemma copy_throw_outcome st this other st' :
  state_inv st → SingleLinkedList_copy Type_default this other st = Throw st' →
  st' = mkState (objects st) (heap st) (rev (free_pool st)).
Proof.
  intros Hinv Hrun. pose proof (inv_alloc _ Hinv) as Hok.
  destruct (objects st !! this) as [o|] eqn:Hnone.
  { unfold SingleLinkedList_copy, init_members in Hrun. unfold_monad in Hrun.
    by rewrite Hnone in Hrun. }
  destruct (objects st !! other) as [oo|] eqn:Hother.
  - destruct (inv_owns _ Hinv other) as (cells & Hown); [by eexists|].
    destruct (decide (length cells ≤ length (free_pool st))%nat) as [Hlen|Hlen].
    + destruct (SingleLinkedList_copy_owns Type_default st this other cells
                  Hok Hnone Hown Hlen) as (st2 & Hrun2 & _).
      by rewrite Hrun2 in Hrun.
    + rewrite (SingleLinkedList_copy_throws Type_default st this other cells
                 Hok Hnone Hown) in Hrun by lia.
      by injection Hrun as <-.
  - destruct (decide (other = this
        ∨ other = fresh (dom (<[this := mkList (mkNode Type_default nullptr) 0]>
                                (objects st))))) as [Hwhich|Hwhich].
    + by rewrite copy_unborn_run in Hrun.
    + by rewrite copy_dead_source in Hrun.
Qed.

Lemma assign_throw_outcome st this rhs st' :
  state_inv st → assign Type_default this rhs st = Throw st' →
  st' = mkState (objects st) (heap st) (rev (free_pool st)).
Proof.
  intros Hinv Hrun. unfold assign in Hrun.
  destruct (decide (this = rhs)) as [<-|Hne].
  { by rewrite bool_decide_eq_false_2 in Hrun by (intros H; by apply H). }
  rewrite bool_decide_eq_true_2 in Hrun by done.
  unfold with_local in Hrun.
  destruct (SingleLinkedList_copy Type_default (fresh (dom (objects st))) rhs st)
    as [[] st1|st1| |] eqn:Hcopy; [| |done|done].
  - destruct (Swap this (fresh (dom (objects st))) st1) as [[] st2|s| |] eqn:Hswap;
      [| |done|done].
    + by destruct (SingleLinkedList_destroy (fresh (dom (objects st))) st2).
    + by destruct (never_throws_Swap this (fresh (dom (objects st))) st1 s).
  - injection Hrun as <-. by eapply copy_throw_outcome.
Qed.

Lemma init_throw_outcome st this vs st' :
  state_inv st → SingleLinkedList_init Type_default this vs st = Throw st' →
  objects st' = objects st ∧ alloc_ok st'
  ∧ (∀ x, x ∉ free_pool st → heap st' !! x = heap st !! x).
Proof.
  intros Hinv Hrun. pose proof (inv_alloc _ Hinv) as Hok.
  destruct (objects st !! this) as [o|] eqn:Hnone.
  { unfold SingleLinkedList_init, init_members in Hrun. unfold_monad in Hrun.
    by rewrite Hnone in Hrun. }
  destruct (decide (length vs ≤ length (free_pool st))%nat) as [Hlen|Hlen].
  - destruct (SingleLinkedList_init_owns Type_default st this vs Hok Hnone Hlen)
      as (st2 & Hrun2 & _).
    by rewrite Hrun2 in Hrun.
  - destruct (SingleLinkedList_init_throws Type_default st this vs Hok Hnone)
      as (st2 & Hrun2 & Hobj & _ & _ & _ & Hheap & Hok2); [lia|].
    rewrite Hrun2 in Hrun. by injection Hrun as <-.
Qed.

(** What every exception out of a public operation leaves behind. *)
Lemma run_op_throw st this op st' :
  state_inv st → run_op Type_default this op st = Throw st' →
  alloc_ok st' ∧ objects st' = objects st
  ∧ (∀ x, is_Some (heap st !! x) → heap st' !! x = heap st !! x)
  ∧ ((∀ vs, op ≠ OpInit vs) → heap st' = heap st)
  ∧ (∀ m, op = OpMutate m → st' = st)
  ∧ op ≠ OpDefault ∧ (∀ other, op ≠ OpSwap other).
Proof.
  intros Hinv Hrun. pose proof (inv_alloc _ Hinv) as Hok.
  destruct op as [|vs|other|m|other|rhs]; cbn [run_op] in Hrun.
  - exfalso. revert Hrun. unfold SingleLinkedList_default, init_members.
    by destruct (objects st !! this).
  - destruct (init_throw_outcome st this vs st' Hinv Hrun) as (Hobj & Hok' & Hheap).
    split; [done|]. split; [done|]. split.
    { intros x Hx. apply Hheap. intros Hin. rewrite (pool_unused _ Hok x Hin) in Hx.
      by destruct Hx. }
    split; [intros Hno; by destruct (Hno vs)|]. done.
  - rewrite (copy_throw_outcome st this other st' Hinv Hrun). simpl.
    split; [by apply alloc_ok_rev_pool|]. done.
  - pose proof (run_mutation_outcome st this m Hinv) as Hout. rewrite Hrun in Hout.
    subst st'. done.
  - by destruct (never_throws_Swap this other st st').
  - rewrite (assign_throw_outcome st this rhs st' Hinv Hrun). simpl.
    split; [by apply alloc_ok_rev_pool|]. done.
Qed.

End Exceptions.

(** X17: an exception out of a public operation leaves every list as it
    was.  If one of the constructors, a mutator, [Swap] or copy assignment
    throws in a well-formed state, the state is again well formed, the same
    list objects exist, every list holds the same elements and size, and
    every node that was allocated is unchanged.  Unless the operation is
    the initializer-list constructor the heap is exactly as before, so no
    node is lost; a mutator leaves the whole state, the free addresses
    too, as it was; the default constructor and [Swap] do not throw. *)
Theorem X17_exceptions_leave_every_list_unchanged {T : Type} (d : T)
    (st : @state T) this op st' :
  state_inv st → run_op d this op st = Throw st' →
  state_inv st'
  ∧ objects st' = objects st
  ∧ (∀ l c, owns st l c →
       contents l st' = Ret c.*2 st' ∧ GetSize l st' = Ret (Z.of_nat (length c)) st')
  ∧ (∀ x, is_Some (heap st !! x) → heap st' !! x = heap st !! x)
  ∧ ((∀ vs, op ≠ OpInit vs) → heap st' = heap st ∧ (no_leak st → no_leak st'))
  ∧ (∀ m, op = OpMutate m → st' = st)
  ∧ op ≠ OpDefault ∧ (∀ other, op ≠ OpSwap other).
Proof.
  intros Hinv Hrun.
  destruct (run_op_throw d st this op st' Hinv Hrun)
    as (Hok' & Hobj & Hheap & Hsame & Hmut & Hdef & Hswap).
  destruct (state_inv_same_lists st st' Hinv Hok' Hobj Hheap) as (Hinv' & Hkeep).
  split; [done|]. split; [done|]. split.
  { intros l c Hl. pose proof (Hkeep l c Hl) as Hl'.
    split; [by apply contents_owns|by apply GetSize_owns]. }
  split; [done|]. split; [|done].
  intros Hno. pose proof (Hsame Hno) as Hh. split; [done|].
  intros Hnl. eapply no_leak_same_heap; [done|done|].
  intros l c Hl. exists l. by apply Hkeep.
Qed.

Lemma X17_exceptions_leave_every_list_unchanged_witness :
  state_inv ex_two_short
  ∧ ∃ st', run_op 0 1%positive (OpAssign 2%positive) ex_two_short = Throw st'
           ∧ contents 1%positive st' = Ret [1; 2; 3] st'
           ∧ heap st' = heap ex_two_short.
Proof.
  split; [exact ex_two_short_inv|].
  eexists. split; [vm_compute; reflexivity|].
  destruct (X17_exceptions_leave_every_list_unchanged 0 ex_two_short 1%positive
              (OpAssign 2%positive) _ ex_two_short_inv ltac:(vm_compute; reflexivity))
    as (_ & _ & Hlists & _ & Hheap & _).
  split.
  - exact (proj1 (Hlists 1%positive ex_cells_A ex_two_short_owns_A)).
  - exact (proj1 (Hheap ltac:(discriminate))).
Defined.

(** ** The comparison operators as an order on lists *)

Section ListOrder.

Context {T : Type}.
Variable eq lt : T → T → bool.
Hypothesis eq_spec : ∀ x y, eq x y = true ↔ x = y.
Hypothesis lt_irrefl : ∀ x, lt x x = false.
Hypothesis lt_trans : ∀ x y z, lt x y = true → lt y z = true → lt x z = true.
Hypothesis lt_total : ∀ x y, lt x y = true ∨ x = y ∨ lt y x = true.

Lemma lt_neither x y : lt x y = false → lt y x = false → x = y.
Proof. intros H1 H2. destruct (lt_total x y) as [H|[H|H]]; congruence. Qed.

Lemma seq_equal_eq (l1 l2 : list T) : seq_equal eq l1 l2 = true ↔ l1 = l2.
Proof.
  revert l2. induction l1 as [|x l1 IH]; intros [|y l2]; simpl; [done..|].
  destruct (eq x y) eqn:Hxy; simpl.
  - apply eq_spec in Hxy as ->. rewrite IH. split; [by intros ->|by intros [= ->]].
  - split; [done|]. intros [= -> _]. by rewrite (proj2 (eq_spec y y) eq_refl) in Hxy.
Qed.

Lemma seq_less_irrefl (l : list T) : seq_less lt l l = false.
Proof. induction l as [|x l IH]; simpl; [done|]. by rewrite lt_irrefl. Qed.

Lemma seq_less_trans (l1 l2 l3 : list T) :
  seq_less lt l1 l2 = true → seq_less lt l2 l3 = true → seq_less lt l1 l3 = true.
Proof.
  revert l2 l3. induction l1 as [|x l1 IH]; intros [|y l2] [|z l3]; simpl; try done.
  destruct (lt x y) eqn:Hxy.
  - intros _. destruct (lt y z) eqn:Hyz.
    + intros _. by rewrite (lt_trans x y z Hxy Hyz).
    + destruct (lt z y) eqn:Hzy; [done|]. intros _.
      rewrite <- (lt_neither y z Hyz Hzy). by rewrite Hxy.
  - destruct (lt y x) eqn:Hyx; [done|]. rewrite (lt_neither x y Hxy Hyx).
    intros H12. destruct (lt y z); [done|]. destruct (lt z y); [done|].
    by apply IH.
Qed.

(** [A <= B] is [A < B] or [A == B]. *)
Lemma seq_le_cases (l1 l2 : list T) :
  negb (seq_less lt l2 l1) = true ↔ seq_less lt l1 l2 = true ∨ l1 = l2.
Proof.
  rewrite <- seq_equal_eq.
  destruct (seq_trichotomy eq lt eq_spec lt_irrefl lt_trans lt_total l1 l2)
    as [(-> & -> & ->)|[(-> & -> & ->)|(-> & -> & ->)]]; simpl; naive_solver.
Qed.

End ListOrder.

(** X18: over a totally ordered element type the comparison operators
    order the lists.  [==] holds exactly when the two lists hold the same
    sequence of elements; [<] is irreflexive and transitive; [<=] is [<]
    or [==], it is reflexive, transitive, antisymmetric up to [==], and of
    any two lists one is [<=] the other. *)
Theorem X18_comparisons_order_lists {T : Type} (eq lt : T → T → bool)
    (st : @state T) a b c ca cb cc :
  (∀ x y, eq x y = true ↔ x = y) →
  (∀ x, lt x x = false) →
  (∀ x y z, lt x y = true → lt y z = true → lt x z = true) →
  (∀ x y, lt x y = true ∨ x = y ∨ lt y x = true) →
  owns st a ca → owns st b cb → owns st c cc →
  (op_eq eq a b st = Ret true st ↔ ca.*2 = cb.*2)
  ∧ op_lt lt a a st = Ret false st
  ∧ op_le lt a a st = Ret true st
  ∧ (op_lt lt a b st = Ret true st → op_lt lt b c st = Ret true st →
       op_lt lt a c st = Ret true st)
  ∧ (op_le lt a b st = Ret true st ↔
       op_lt lt a b st = Ret true st ∨ op_eq eq a b st = Ret true st)
  ∧ (op_le lt a b st = Ret true st → op_le lt b c st = Ret true st →
       op_le lt a c st = Ret true st)
  ∧ (op_le lt a b st = Ret true st → op_le lt b a st = Ret true st →
       op_eq eq a b st = Ret true st)
  ∧ (op_le lt a b st = Ret true st ∨ op_le lt b a st = Ret true st).
Proof.
  intros Heq Hirr Htrans Htotal Ha Hb Hc.
  assert (Hle : ∀ l1 l2 c1 c2, owns st l1 c1 → owns st l2 c2 →
            op_le lt l1 l2 st = Ret (negb (seq_less lt c2.*2 c1.*2)) st).
  { intros l1 l2 c1 c2 H1 H2. unfold op_le, op_gt. unfold_monad.
    by rewrite (op_lt_owns lt st l2 l1 c2 c1 H2 H1). }
  rewrite !(Hle _ _ _ _ Ha Ha), !(Hle _ _ _ _ Ha Hb), !(Hle _ _ _ _ Hb Hc),
    !(Hle _ _ _ _ Ha Hc), !(Hle _ _ _ _ Hb Ha).
  rewrite !(op_lt_owns lt st _ _ _ _ Ha Ha), !(op_lt_owns lt st _ _ _ _ Ha Hb),
    !(op_lt_owns lt st _ _ _ _ Hb Hc), !(op_lt_owns lt st _ _ _ _ Ha Hc).
  rewrite !(op_eq_owns eq st _ _ _ _ Ha Hb).
  assert (Hret : ∀ b1 b2 : bool, @Ret T bool b1 st = Ret b2 st ↔ b1 = b2).
  { intros b1 b2. split; [by intros [= ->]|by intros ->]. }
  rewrite !Hret.
  pose proof (seq_le_cases eq lt Heq Hirr Htrans Htotal) as Hcases.
  pose proof (seq_equal_eq eq Heq) as Hse.
  pose proof (seq_less_irrefl lt Hirr) as Hsi.
  pose proof (seq_less_trans lt Htrans Htotal) as Hst.
  split; [apply Hse|]. split; [by rewrite Hsi|]. split; [by rewrite Hsi|].
  split; [apply Hst|].
  split; [rewrite Hcases, Hse; done|].
  split.
  { rewrite !Hcases. intros [H1|E1] [H2|E2].
    - left. by eapply Hst.
    - left. by rewrite <- E2.
    - left. by rewrite E1.
    - right. by rewrite E1. }
  split.
  { rewrite !Hcases, Hse. intros [H1|H1] [H2|H2]; try done.
    pose proof (Hst _ _ _ H1 H2) as Hcontra. by rewrite Hsi in Hcontra. }
  rewrite !Hcases.
  destruct (seq_trichotomy eq lt Heq Hirr Htrans Htotal ca.*2 cb.*2)
    as [(H1 & _)|[(_ & H1 & _)|(_ & _ & H1)]].
  - left. by left.
  - left. right. by apply Hse.
  - right. by left.
Qed.

Lemma X18_comparisons_order_lists_witness :
  owns ex_two 1%positive ex_cells_A ∧ owns ex_two 2%positive ex_cells_B
  ∧ op_le Z.ltb 1%positive 2%positive ex_two = Ret true ex_two
  ∧ (op_eq Z.eqb 1%positive 2%positive ex_two = Ret true ex_two ↔
       ex_cells_A.*2 = ex_cells_B.*2).
Proof.
  split; [exact ex_two_owns_A|]. split; [exact ex_two_owns_B|].
  destruct (X18_comparisons_order_lists Z.eqb Z.ltb ex_two 1%positive 2%positive 1%positive
              ex_cells_A ex_cells_B ex_cells_A
              Z.eqb_eq Z.ltb_irrefl
              ltac:(intros x y z; rewrite !Z.ltb_lt; lia)
              ltac:(intros x y; rewrite !Z.ltb_lt; lia)
              ex_two_owns_A ex_two_owns_B ex_two_owns_A)
    as (Heq & _ & _ & _ & Hle & _).
  split; [|exact Heq].
  apply Hle. left. vm_compute. reflexivity.
Defined.

(** ** Writing through an iterator, and telling iterators apart *)

(** X19: assigning through the reference a mutable iterator dereferences
    to replaces exactly the element the iterator refers to.  The list keeps
    its size and its nodes, so every iterator stays where it was; nothing is
    allocated or deleted; the element reads back as the value written; and
    no other list of a well-formed state changes. *)
Theorem X19_assignment_through_iterator {T : Type} (st : @state T) this cells k a old v :
  state_inv st → owns st this cells → cells !! k = Some (a, old) →
  ∃ st', (b ← begin this; it ← advance k b; iter_assign it v) st = Ret tt st'
    ∧ iter_assign (Iter (node_at a)) v st = Ret tt st'
    ∧ owns st' this (<[k := (a, v)]> cells)
    ∧ contents this st' = Ret (<[k := v]> cells.*2) st'
    ∧ GetSize this st' = Ret (Z.of_nat (length cells)) st'
    ∧ iter_deref (Iter (node_at a)) st' = Ret v st'
    ∧ objects st' = objects st
    ∧ free_pool st' = free_pool st
    ∧ (∀ l c, l ≠ this → owns st l c →
         contents l st' = Ret c.*2 st' ∧ GetSize l st' = Ret (Z.of_nat (length c)) st').
Proof.
  intros Hinv Hown Hk. pose proof (inv_alloc _ Hinv) as Hok.
  destruct (store_value_owns st this cells k a old v Hok Hown Hk) as (st' & Hrun & Hstep).
  pose proof Hstep as (_ & Hown' & _).
  pose proof Hown as (hd & Ho & Hc).
  pose proof (chain_lookup _ _ _ _ _ _ Hc Hk) as Hha.
  assert (Hassign : iter_assign (Iter (node_at a)) v st = Ret tt st').
  { unfold iter_assign. unfold_monad. cbn [node_].
    rewrite bool_decide_eq_false_2 by done. cbn [negb]. unfold_monad. by rewrite Hrun. }
  exists st'. split.
  { eapply bind_Ret_eq; [by apply begin_owns|].
    eapply bind_Ret_eq; [|exact Hassign].
    change (Iter (first_ptr cells)) with (Iter (first_ptr (drop 0 cells))).
    rewrite (first_ptr_drop cells 0), (pos_ptr_S 1%positive this).
    rewrite (advance_pos st this cells 1 k Hown) by (apply lookup_lt_Some in Hk; lia).
    simpl. by rewrite Hk. }
  split; [done|]. split; [done|]. split.
  { rewrite (contents_owns _ _ _ Hown'). by rewrite list_fmap_insert. }
  split.
  { rewrite (GetSize_owns _ _ _ Hown'). by rewrite length_insert. }
  split.
  { eapply (iter_deref_node st' this _ k a v); [done|].
    apply list_lookup_insert_eq. by apply lookup_lt_Some in Hk. }
  revert Hrun. unfold store_value. rewrite Hha. intros [= <-]. simpl.
  split; [done|]. split; [done|].
  intros l c Hne Hl.
  assert (Hl' : owns (mkState (objects st)
                        (<[a := mkNode v (first_ptr (drop (S k) cells))]> (heap st))
                        (free_pool st)) l c).
  { eapply frame_step_other; [exact Hstep|done|done|].
    by eapply (inv_sep _ Hinv l this). }
  split; [by apply contents_owns|by apply GetSize_owns].
Qed.

Lemma X19_assignment_through_iterator_witness :
  state_inv ex_two ∧ owns ex_two 1%positive ex_cells_A
  ∧ ex_cells_A !! 1%nat = Some (11%positive, 2)
  ∧ ∃ st', (b ← begin 1%positive; it ← advance 1 b; iter_assign it 7) ex_two = Ret tt st'
           ∧ contents 1%positive st' = Ret [1; 7; 3] st'
           ∧ contents 2%positive st' = Ret [1; 2; 3; 4] st'.
Proof.
  split; [exact ex_two_inv|]. split; [exact ex_two_owns_A|]. split; [reflexivity|].
  destruct (X19_assignment_through_iterator ex_two 1%positive ex_cells_A 1 11%positive 2 7
              ex_two_inv ex_two_owns_A eq_refl)
    as (st' & Hrun & _ & _ & Hc & _ & _ & _ & _ & Hother).
  exists st'. split; [exact Hrun|]. split; [exact Hc|].
  exact (proj1 (Hother 2%positive ex_cells_B ltac:(discriminate) ex_two_owns_B)).
Defined.

(** X20: two iterators into a list are equal exactly when they stand at
    the same position.  Counting [before_begin()] as position 0 and
    [end()] as the position after the last element, the iterators reached
    by [j] and by [k] increments compare equal under [==] if and only if
    [j = k], and [!=] is the negation; in particular [end()] is reached
    after exactly size + 1 increments and no increment leads back to an
    earlier node.  An iterator to an element of one list never equals an
    iterator to an element of another list. *)
Theorem X20_iterators_equal_iff_same_position {T : Type} (st : @state T)
    this cells j k itj itk :
  state_inv st → owns st this cells →
  advance j (before_begin this) st = Ret itj st →
  advance k (before_begin this) st = Ret itk st →
  (iter_eq itj itk = true ↔ j = k)
  ∧ iter_ne itj itk = negb (iter_eq itj itk)
  ∧ (iter_eq itj (end_ this) = true ↔ j = S (length cells))
  ∧ (∀ l c i itl, l ≠ this → owns st l c →
       advance i (before_begin l) st = Ret itl st →
       iter_eq itj itl = true → j = S (length cells) ∧ i = S (length c)).
Proof.
  intros Hinv Hown Hj Hk.
  assert (Hrange : ∀ l c i it, owns st l c → advance i (before_begin l) st = Ret it st →
            (i ≤ S (length c))%nat ∧ it = Iter (pos_ptr l c i)).
  { intros l c i it Hl Hi.
    destruct (decide (i ≤ S (length c))%nat) as [Hle|Hgt].
    - split; [done|].
      rewrite (advance_from_before_begin st l c i Hl Hle) in Hi. by injection Hi.
    - by rewrite (advance_beyond_end st l c i Hl) in Hi by lia. }
  destruct (Hrange _ _ _ _ Hown Hj) as (Hjr & ->).
  destruct (Hrange _ _ _ _ Hown Hk) as (Hkr & ->).
  assert (Hpos : ∀ l c i, owns st l c → (i ≤ S (length c))%nat →
            (i = 0%nat ∧ pos_ptr l c i = head_of l)
            ∨ (∃ a x, i = S (pred i) ∧ c !! pred i = Some (a, x)
                      ∧ pos_ptr l c i = node_at a)
            ∨ (i = S (length c) ∧ pos_ptr l c i = nullptr)).
  { intros l c i Hl Hi. destruct i as [|i]; [by left|]. right.
    destruct (c !! i) as [[a x]|] eqn:Hci.
    - left. exists a, x. simpl. by rewrite Hci.
    - right. apply lookup_ge_None_1 in Hci. split; [lia|]. simpl.
      by rewrite (lookup_ge_None_2 c i). }
  pose proof Hown as (hd & _ & Hc).
  pose proof (chain_NoDup _ _ _ Hc) as Hnd.
  assert (Heq : ∀ p q, iter_eq (Iter p) (Iter q) = true ↔ p = q).
  { intros p q. unfold iter_eq. simpl. apply bool_decide_eq_true. }
  split; [|split; [done|split]].
  - rewrite Heq.
    destruct (Hpos _ _ j Hown Hjr) as [(Hj0 & ->)|[(a1 & x1 & Hj1 & Hc1 & ->)|(Hj2 & ->)]];
    destruct (Hpos _ _ k Hown Hkr) as [(Hk0 & ->)|[(a2 & x2 & Hk1 & Hc2 & ->)|(Hk2 & ->)]];
      try (split; intros; congruence).
    + split.
      * intros [= ->].
        assert (H1 : cells.*1 !! pred j = Some a2) by (by rewrite list_lookup_fmap, Hc1).
        assert (H2 : cells.*1 !! pred k = Some a2) by (by rewrite list_lookup_fmap, Hc2).
        pose proof (NoDup_lookup _ _ _ _ Hnd H1 H2). lia.
      * intros E. rewrite E in Hc1. rewrite Hc1 in Hc2. by injection Hc2 as ->.
    + split; [done|]. intros E. apply lookup_lt_Some in Hc1. lia.
    + split; [done|]. intros E. apply lookup_lt_Some in Hc2. lia.
  - unfold end_. rewrite Heq.
    destruct (Hpos _ _ j Hown Hjr) as [(Hj0 & ->)|[(a1 & x1 & Hj1 & Hc1 & ->)|(Hj2 & ->)]].
    + split; [done|]. lia.
    + split; [done|]. intros ->. simpl in Hc1. by rewrite lookup_ge_None_2 in Hc1.
    + done.
  - intros l c i itl Hne Hl Hi Hsame.
    destruct (Hrange _ _ _ _ Hl Hi) as (Hir & ->). apply Heq in Hsame.
    destruct (Hpos _ _ j Hown Hjr) as [(Hj0 & Hp)|[(a1 & x1 & Hj1 & Hc1 & Hp)|(Hj2 & Hp)]];
    destruct (Hpos _ _ i Hl Hir) as [(Hi0 & Hq)|[(a2 & x2 & Hi1 & Hc2 & Hq)|(Hi2 & Hq)]];
      rewrite Hp, Hq in Hsame; try done.
    + by injection Hsame.
    + injection Hsame as ->. exfalso.
      eapply (inv_sep _ Hinv this l cells c); [done|done|done| |].
      * apply list_elem_of_fmap. exists (a2, x1). split; [done|].
        by eapply list_elem_of_lookup_2.
      * apply list_elem_of_fmap. exists (a2, x2). split; [done|].
        by eapply list_elem_of_lookup_2.
Qed.

Lemma X20_iterators_equal_iff_same_position_witness :
  state_inv ex_two ∧ owns ex_two 1%positive ex_cells_A
  ∧ advance 2 (before_begin 1%positive) ex_two = Ret (Iter (node_at 11)) ex_two
  ∧ advance 4 (before_begin 1%positive) ex_two = Ret (Iter nullptr) ex_two
  ∧ iter_ne (Iter (node_at 11)) (end_ 1%positive) = true.
Proof.
  split; [exact ex_two_inv|]. split; [exact ex_two_owns_A|].
  split; [reflexivity|]. split; [reflexivity|].
  destruct (X20_iterators_equal_iff_same_position ex_two 1%positive ex_cells_A 2 4
              (Iter (node_at 11)) (Iter nullptr) ex_two_inv ex_two_owns_A eq_refl eq_refl)
    as (Hiff & Hne & _).
  unfold end_. rewrite Hne.
  destruct (iter_eq (Iter (node_at 11)) (Iter nullptr)) eqn:He; [|done].
  pose proof (proj1 Hiff eq_refl). discriminate.
Defined.

(** ** A list that is constructed and destroyed *)

(** Destroying a list that was constructed in unused storage gives back
    the objects and the heap as they were before the construction. *)
Lemma construct_destroy {T : Type} (st st1 : @state T) this cells1 :
  objects st !! this = None →
  frame_step st st1 this [] cells1 → heap_step st st1 [] cells1 →
  SingleLinkedList_destroy this st1 =
    Ret tt (mkState (objects st) (heap st) (rev cells1.*1 ++ free_pool st1)).
Proof.
  intros Hnone (_ & (hd & Ho & Hc) & Hobj & _ & Hnew) Hheap.
  destruct (Clear_full st1 this hd _ cells1 Ho Hc) as (st2 & Hrun & Hobj2 & Hheap2 & Hpool2).
  unfold SingleLinkedList_destroy. eapply bind_Ret_eq; [exact Hrun|].
  erewrite release_members_run; [|rewrite Hobj2; apply lookup_insert_eq].
  f_equal. rewrite Hpool2. f_equal.
  - rewrite Hobj2. apply map_eq. intros i. destruct (decide (i = this)) as [->|Hi].
    + by rewrite lookup_delete_eq.
    + rewrite lookup_delete_ne by done. rewrite lookup_insert_ne by done. by apply Hobj.
  - apply map_eq. intros x. rewrite Hheap2.
    destruct (decide (x ∈ cells1.*1)) as [Hin|Hnotin].
    + destruct (Hnew x Hin) as [Hx|Hx]; [|done]. by apply elem_of_nil in Hx.
    + rewrite (Hheap x Hnotin). by rewrite decide_False by apply not_elem_of_nil.
Qed.

Lemma init_exact {T : Type} (d : T) (st : @state T) this vs st' :
  alloc_ok st → objects st !! this = None →
  SingleLinkedList_init d this vs st = Ret tt st' →
  ∃ cells', frame_step st st' this [] cells' ∧ heap_step st st' [] cells'.
Proof.
  intros Hok Hnone Hrun.
  destruct (init_members_frame d st this Hok Hnone)
    as (st0 & Hrun0 & _ & Hheap0 & _ & Hstep0).
  pose proof Hstep0 as (Hok0 & Hown0 & _).
  unfold SingleLinkedList_init in Hrun. unfold mbind, M_bind in Hrun.
  rewrite Hrun0 in Hrun. unfold ctor_body in Hrun.
  destruct (PushFront_each this (rev vs) st0) as [[] s|s| |] eqn:Hbody;
    [|by destruct (release_members this s)|done|done].
  injection Hrun as ->.
  destruct (PushFront_each_exact this (rev vs) st0 [] st' Hok0 Hown0 Hbody)
    as (cells' & Hstep & Hheap).
  exists cells'. split; [by eapply frame_step_trans|].
  eapply heap_step_trans; [exact Hstep0| |exact Hheap].
  intros x _. rewrite Hheap0. by rewrite decide_False by apply not_elem_of_nil.
Qed.

(** X21: a list that is constructed in unused storage and destroyed again
    leaves no trace.  After the default constructor or the
    initializer-list constructor followed by the destructor the state is
    exactly the state before, the order of the free addresses included;
    after the copy constructor followed by the destructor the list objects
    and the heap are as before and the addresses the copy used are free
    again, in reverse order. *)
Theorem X21_constructed_and_destroyed_list_leaves_no_trace {T : Type} (d : T)
    (st : @state T) this vs other cells :
  alloc_ok st → objects st !! this = None →
  (length vs ≤ length (free_pool st))%nat →
  owns st other cells → (length cells ≤ length (free_pool st))%nat →
  (SingleLinkedList_default d this;; SingleLinkedList_destroy this) st = Ret tt st
  ∧ (SingleLinkedList_init d this vs;; SingleLinkedList_destroy this) st = Ret tt st
  ∧ (SingleLinkedList_copy d this other;; SingleLinkedList_destroy this) st =
      Ret tt (mkState (objects st) (heap st)
                (rev (take (length cells) (free_pool st))
                 ++ drop (length cells) (free_pool st))).
Proof.
  intros Hok Hnone Hlen Hown Hlenc. split; [|split].
  - destruct (init_members_frame d st this Hok Hnone)
      as (st0 & Hrun0 & _ & Hheap0 & Hp0 & Hstep0).
    eapply bind_Ret_eq; [exact Hrun0|].
    rewrite (construct_destroy st st0 this [] Hnone Hstep0).
    + simpl. rewrite Hp0. by destruct st.
    + intros x _. rewrite Hheap0. by rewrite decide_False by apply not_elem_of_nil.
  - destruct (SingleLinkedList_init_owns d st this vs Hok Hnone Hlen)
      as (st1 & Hrun1 & Hp1 & Hstep1).
    destruct (init_exact d st this vs st1 Hok Hnone Hrun1) as (c' & Hstep' & Hheap').
    assert (c' = zip (rev (take (length vs) (free_pool st))) vs) as ->.
    { destruct Hstep1 as (_ & H1 & _). destruct Hstep' as (_ & H2 & _).
      by eapply owns_det. }
    eapply bind_Ret_eq; [exact Hrun1|].
    rewrite (construct_destroy st st1 this _ Hnone Hstep1 Hheap').
    rewrite fst_zip by (rewrite length_rev, length_take; lia).
    rewrite rev_involutive, Hp1, take_drop. by destruct st.
  - destruct (SingleLinkedList_copy_exact d st this other cells Hok Hnone Hown Hlenc)
      as (st1 & Hrun1 & Hp1 & Hstep1 & Hheap1).
    eapply bind_Ret_eq; [exact Hrun1|].
    rewrite (construct_destroy st st1 this _ Hnone Hstep1).
    + rewrite fst_zip by (rewrite length_fmap, length_take; lia). by rewrite Hp1.
    + intros x Hx. rewrite decide_False by apply not_elem_of_nil. apply Hheap1.
      rewrite fst_zip in Hx; [done|]. rewrite length_fmap, length_take. lia.
Qed.

Lemma X21_constructed_and_destroyed_list_leaves_no_trace_witness :
  alloc_ok ex_one ∧ objects ex_one !! 2%positive = None
  ∧ (length [5; 6] ≤ length (free_pool ex_one))%nat
  ∧ owns ex_one 1%positive ex_cells_A
  ∧ (length ex_cells_A ≤ length (free_pool ex_one))%nat
  ∧ (SingleLinkedList_init 0 2%positive [5; 6];; SingleLinkedList_destroy 2%positive) ex_one
      = Ret tt ex_one.
Proof.
  split; [exact (inv_alloc _ ex_one_inv)|]. split; [reflexivity|].
  split; [vm_compute; lia|]. split; [exact ex_one_owns|]. split; [vm_compute; lia|].
  exact (proj1 (proj2 (X21_constructed_and_destroyed_list_leaves_no_trace 0 ex_one
                         2%positive [5; 6] 1%positive ex_cells_A
                         (inv_alloc _ ex_one_inv) eq_refl ltac:(vm_compute; lia)
                         ex_one_owns ltac:(vm_compute; lia)))).
Defined.
